(** * House3D renderer: creation and teardown of OpenGL contexts

    A shallow embedding of [renderer/gl/glContext.cc].  The C++ code is a
    straight-line sequence of native calls (GLFW, EGL, GLX, CGL, libc)
    interleaved with checks that end the process through [error_exit].
    It is embedded as a state-and-abort monad:

    - the state ([world]) holds what the translation unit mutates or
      emits: the process-wide counter [NUM_EGLCONTEXT_ALIVE], the text
      written to [cerr], the pending EGL error code read by
      [eglGetError], and the chronological list of native calls issued;
    - the answers of the drivers and of the operating system are
      oracles, collected in one environment record per backend;
    - a computation ends with a value, with [error_exit] (the process is
      gone), or with behaviour the C++ standard leaves undefined (an
      array read out of bounds, a call through a null pointer). *)

From Stdlib Require Import ZArith List String Ascii Bool Lia DecimalString DecimalZ DecimalPos.
From Stdlib Require Import Sorting.Sorted.
Import ListNotations.
Local Open Scope Z_scope.

(** ** Values *)

(** [Geometry] (declared in glContext.hh): the requested framebuffer size. *)
Record Geometry : Type := mkGeometry { w : Z; h : Z }.

(** Native handles are opaque to the code; the null handle is [0]. *)
Definition handle : Type := Z.
Definition NULL : handle := 0.

Inductive GLenum : Type :=
| GL_VERSION
| GL_SHADING_LANGUAGE_VERSION
| GL_VENDOR
| GL_RENDERER.

Inductive GLFWhint : Type :=
| GLFW_CONTEXT_VERSION_MAJOR
| GLFW_CONTEXT_VERSION_MINOR
| GLFW_OPENGL_PROFILE
| GLFW_OPENGL_FORWARD_COMPAT
| GLFW_OPENGL_DEBUG_CONTEXT
| GLFW_RESIZABLE.

(** Header constants used by the code (GL/gl.h, GLFW/glfw3.h, EGL/egl.h). *)
Definition GL_TRUE : Z := 1.
Definition GL_FALSE : Z := 0.
Definition GLFW_OPENGL_CORE_PROFILE : Z := 204801.
Definition EGL_SUCCESS : Z := 12288.
Definition EGL_NO_SURFACE : handle := 0.
Definition EGL_NO_CONTEXT : handle := 0.

(** [static const int MAX_DEVICES = 16] *)
Definition MAX_DEVICES : Z := 16.

(** ** Native calls *)

(** Every call that leaves the translation unit, with the arguments the
    code passes.  The update of the atomic counter is recorded as well,
    so that its position among the native calls can be stated. *)
Inductive event : Type :=
| fetch_add_NUM_EGLCONTEXT_ALIVE (delta : Z)
| glViewport (x y width height : Z)
| glGetString (name : GLenum)
| glfwInit
| glfwWindowHint (hint : GLFWhint) (value : Z)
| glfwCreateWindow (width height : Z) (title : string)
| glfwMakeContextCurrent (window : handle)
| glfwTerminate
| eglGetProcAddress (name : string)
| eglQueryDevicesEXT (max_devices : Z)
| sys_open (path : string)
| sys_close (fd : Z)
| eglGetPlatformDisplayEXT (device : handle)
| eglInitialize (dpy : handle)
| eglGetError
| eglChooseConfig (dpy : handle) (config_size : Z)
| eglBindAPI
| eglCreateContext (dpy config share : handle)
| eglMakeCurrent (dpy draw read ctx : handle)
| eglDestroyContext (dpy ctx : handle)
| eglTerminate (dpy : handle)
| XOpenDisplay
| glXChooseFBConfig (dpy : handle)
| glXGetProcAddressARB (name : string)
| glXCreateContextAttribsARB (dpy config share : handle)
| glXCreatePbuffer (dpy config : handle)
| XFree
| XSync (dpy : handle)
| glXMakeContextCurrent (dpy draw read ctx : handle)
| glXDestroyContext (dpy ctx : handle)
| glXDestroyPbuffer (dpy pbuf : handle)
| XCloseDisplay (dpy : handle)
| CGLChoosePixelFormat
| CGLCreateContext (pix share : handle)
| CGLDestroyPixelFormat (pix : handle)
| CGLSetCurrentContext (ctx : handle)
| CGLDestroyContext (ctx : handle).

(** ** The state and the monad *)

Record world : Type := mkWorld {
  NUM_EGLCONTEXT_ALIVE : Z;   (* std::atomic_int NUM_EGLCONTEXT_ALIVE{0} *)
  trace : list event;         (* native calls so far, oldest first *)
  cerr : string;              (* text written to std::cerr *)
  egl_error : Z               (* what the next eglGetError() returns *)
}.

(** The state of a fresh process. *)
Definition world0 : world :=
  {| NUM_EGLCONTEXT_ALIVE := 0; trace := []; cerr := ""; egl_error := EGL_SUCCESS |}.

Inductive outcome (A : Type) : Type :=
| Ok (a : A)
| Abort (msg : string)
| Undefined.
Arguments Ok {A} a.
Arguments Abort {A} msg.
Arguments Undefined {A}.

Definition M (A : Type) : Type := world -> world * outcome A.

Definition ret {A} (a : A) : M A := fun s => (s, Ok a).

Definition bind {A B} (m : M A) (k : A -> M B) : M B :=
  fun s =>
    match m s with
    | (s', Ok a) => k a s'
    | (s', Abort msg) => (s', Abort msg)
    | (s', Undefined) => (s', Undefined)
    end.

Declare Scope ctx_scope.
Delimit Scope ctx_scope with ctx.
Notation "x <- m ;; k" := (bind m (fun x => k))
  (at level 100, m at next level, right associativity) : ctx_scope.
Notation "m ;; k" := (bind m (fun _ => k))
  (at level 100, right associativity) : ctx_scope.
Local Open Scope ctx_scope.

(** Modelled from the spec: [error_exit] of lib/debugutils.hh, the
    fatal-abort capability: it receives the formatted message and never
    returns. *)
Definition error_exit {A} (msg : string) : M A := fun s => (s, Abort msg).

(** A read outside an array, or a call through a null pointer. *)
Definition undefined_behaviour {A} : M A := fun s => (s, Undefined).

Definition emit (e : event) : M unit :=
  fun s => (mkWorld (NUM_EGLCONTEXT_ALIVE s) (trace s ++ [e]) (cerr s) (egl_error s), Ok tt).

(** [cerr << ...] *)
Definition cerr_write (text : string) : M unit :=
  fun s => (mkWorld (NUM_EGLCONTEXT_ALIVE s) (trace s) (cerr s ++ text) (egl_error s), Ok tt).

Definition set_egl_error (code : Z) : M unit :=
  fun s => (mkWorld (NUM_EGLCONTEXT_ALIVE s) (trace s) (cerr s) code, Ok tt).

(** [int] arithmetic of [std::atomic_int]: two's complement on 32 bits. *)
Definition wrap_int (z : Z) : Z := (z + 2 ^ 31) mod 2 ^ 32 - 2 ^ 31.

(** [NUM_EGLCONTEXT_ALIVE.fetch_add(delta)]; the old value is returned. *)
Definition fetch_add (delta : Z) : M Z :=
  fun s =>
    (mkWorld (wrap_int (NUM_EGLCONTEXT_ALIVE s + delta))
             (trace s ++ [fetch_add_NUM_EGLCONTEXT_ALIVE delta]) (cerr s) (egl_error s),
     Ok (NUM_EGLCONTEXT_ALIVE s)).

(** [a[i]] for a C array or a [std::vector] and an [int] index: defined
    only inside the bounds. *)
Definition index {A} (a : list A) (i : Z) : M A :=
  if i <? 0 then undefined_behaviour
  else match nth_error a (Z.to_nat i) with
       | Some x => ret x
       | None => undefined_behaviour
       end.

(** Modelled from the spec: the [%d] and [%lu] conversions of [ssprintf]
    (lib/strutils.hh) and [operator<<] on integers: decimal text. *)
Definition dec (z : Z) : string := NilZero.string_of_int (Z.to_int z).

Definition endl : string := String (ascii_of_nat 10) "".

(** ** GLContext: the base class *)

(** Answers of the current GL context: [glGetString] returns a null
    pointer when no context is current. *)
Record GLEnv : Type := mkGLEnv {
  gl_string : GLenum -> option string
}.

Definition call_glGetString (gl : GLEnv) (name : GLenum) : M (option string) :=
  emit (glGetString name) ;; ret (gl_string gl name).

(** [cerr << p] for [const GLubyte* p]: a null pointer is not a string. *)
Definition cerr_write_cstr (p : option string) : M unit :=
  match p with
  | Some text => cerr_write text
  | None => undefined_behaviour
  end.

(** Modelled from the spec: [m_assert] of lib/debugutils.hh; the
    assertion guards [printInfo] and ends the process when the version
    string is not retrievable. *)
Definition m_assert (cond : bool) (expr : string) : M unit :=
  if cond then ret tt else error_exit ("assertion failed: " ++ expr)%string.

(** [void GLContext::init()] *)
Definition GLContext_init (win_size_ : Geometry) : M unit :=
  emit (glViewport 0 0 (w win_size_) (h win_size_)).

(** [void GLContext::printInfo()] *)
Definition GLContext_printInfo (gl : GLEnv) : M unit :=
  v <- call_glGetString gl GL_VERSION ;;
  m_assert (match v with Some _ => true | None => false end) "glGetString(GL_VERSION)" ;;
  cerr_write ("----------- OpenGL Context Info --------------" ++ endl)%string ;;
  v <- call_glGetString gl GL_VERSION ;;
  cerr_write "GL Version: " ;; cerr_write_cstr v ;; cerr_write endl ;;
  v <- call_glGetString gl GL_SHADING_LANGUAGE_VERSION ;;
  cerr_write "GLSL Version: " ;; cerr_write_cstr v ;; cerr_write endl ;;
  v <- call_glGetString gl GL_VENDOR ;;
  cerr_write "Vendor: " ;; cerr_write_cstr v ;; cerr_write endl ;;
  v <- call_glGetString gl GL_RENDERER ;;
  cerr_write "Renderer: " ;; cerr_write_cstr v ;; cerr_write endl ;;
  cerr_write ("----------------------------------------------" ++ endl)%string.

(** ** GLFWContext: the windowed backend *)

Record GLFWEnv : Type := mkGLFWEnv {
  glfw_create_window : Z -> Z -> handle   (* the new window, or NULL *)
}.

Record GLFWContext : Type := mkGLFWContext {
  glfw_win_size_ : Geometry;
  window_ : handle
}.

(** [GLFWContext::GLFWContext(Geometry win_size, bool core)];
    [DEBUG] is the preprocessor symbol of the build. *)
Definition GLFWContext_ctor (DEBUG : bool) (env : GLFWEnv)
    (win_size : Geometry) (core : bool) : M GLFWContext :=
  emit glfwInit ;;
  (if core then
     emit (glfwWindowHint GLFW_CONTEXT_VERSION_MAJOR 3) ;;
     emit (glfwWindowHint GLFW_CONTEXT_VERSION_MINOR 3) ;;
     emit (glfwWindowHint GLFW_OPENGL_PROFILE GLFW_OPENGL_CORE_PROFILE) ;;
     emit (glfwWindowHint GLFW_OPENGL_FORWARD_COMPAT GL_TRUE) ;;
     (if DEBUG then emit (glfwWindowHint GLFW_OPENGL_DEBUG_CONTEXT 1) else ret tt)
   else ret tt) ;;
  emit (glfwWindowHint GLFW_RESIZABLE GL_FALSE) ;;
  emit (glfwCreateWindow (w win_size) (h win_size) "GLFW") ;;
  let window := glfw_create_window env (w win_size) (h win_size) in
  (if window =? NULL then error_exit "Failed to create GLFW window!" else ret tt) ;;
  emit (glfwMakeContextCurrent window) ;;
  GLContext_init win_size ;;
  ret (mkGLFWContext win_size window).

(** [GLFWContext::~GLFWContext()] *)
Definition GLFWContext_dtor (self : GLFWContext) : M unit :=
  emit glfwTerminate.

(** ** EGLContext: the device-direct backend *)

(** Answers of the EGL implementation and of the file system.  Each of
    the calls that the constructor checks answers with its result and
    with the error code it leaves behind for [eglGetError]. *)
Record EGLEnv : Type := mkEGLEnv {
  egl_proc_address : string -> bool;          (* eglGetProcAddress(name) != NULL *)
  egl_devices : list handle;                  (* the devices EGL can enumerate *)
  open_rdonly : string -> Z;                  (* open(path, O_RDONLY): a descriptor, or -1 *)
  egl_platform_display : handle -> handle;
  egl_initialize : handle -> bool * Z;
  egl_choose_config : handle -> (bool * handle * Z) * Z;   (* succ, config, numConfigs; error *)
  egl_bind_api : bool * Z;
  egl_create_context : handle -> handle -> handle * Z;
  egl_make_current : handle -> handle -> bool * Z
}.

Record EGLContext : Type := mkEGLContext {
  egl_win_size_ : Geometry;
  eglDpy_ : handle;
  eglCtx_ : handle
}.

(** [ssprintf("/dev/nvidia%d", device)] *)
Definition device_path (device : Z) : string := ("/dev/nvidia" ++ dec device)%string.

(** [bool check_nvidia_readable(int device)] *)
Definition check_nvidia_readable (env : EGLEnv) (device : Z) : M bool :=
  let dev := device_path device in
  emit (sys_open dev) ;;
  let r := open_rdonly env dev in
  if r =? -1 then ret false
  else emit (sys_close r) ;; ret true.

(** [EGLint eglGetError()]: reads the pending code and clears it. *)
Definition call_eglGetError : M Z :=
  emit eglGetError ;;
  fun s => (mkWorld (NUM_EGLCONTEXT_ALIVE s) (trace s) (cerr s) EGL_SUCCESS, Ok (egl_error s)).

(** [ssprintf("EGL error: %d\n", err)] and the text ["EGL failed!\n"]. *)
Definition msg_egl_error (err : Z) : string := ("EGL error: " ++ dec err ++ endl)%string.
Definition msg_egl_failed : string := ("EGL failed!" ++ endl)%string.

(** The lambda [checkError] of the constructor. *)
Definition checkError (succ : bool) : M unit :=
  err <- call_eglGetError ;;
  (if negb (err =? EGL_SUCCESS) then error_exit (msg_egl_error err) else ret tt) ;;
  if negb succ then error_exit msg_egl_failed else ret tt.

(** The loop [for (int i = 0; i < numDevices; ++i)]: [n] iterations are
    left, [i] is the loop variable. *)
Fixpoint probe_devices (env : EGLEnv) (n : nat) (i : Z) (visible_devices : list Z)
    : M (list Z) :=
  match n with
  | O => ret visible_devices
  | S n' =>
      readable <- check_nvidia_readable env i ;;
      probe_devices env n' (i + 1)
        (if readable then visible_devices ++ [i] else visible_devices)
  end.

Definition msg_no_devices : string :=
  "[EGL] eglQueryDevicesEXT() cannot find any EGL devices!".

Definition msg_out_of_range (device : Z) (found : nat) : string :=
  ("[EGL] Request device " ++ dec device ++ " but only found "
     ++ dec (Z.of_nat found) ++ " devices")%string.

(** The two reports written to [cerr] by lines 177 and 179-180. *)
Definition text_detected (numDevices device : Z) : string :=
  ("[EGL] Detected " ++ dec numDevices ++ " devices. Using device "
     ++ dec device ++ endl)%string.

Definition text_remapped (found : nat) (numDevices device physical : Z) : string :=
  ("[EGL] " ++ dec (Z.of_nat found) ++ " out of " ++ dec numDevices
     ++ " devices are accessible. Using device " ++ dec device
     ++ " whose physical id is " ++ dec physical ++ "." ++ endl)%string.

(** The operands of line 179-180 that are streamed before
    [visible_devices[device]] is read, and those streamed after. *)
Definition text_remapped_head (found : nat) (numDevices device : Z) : string :=
  ("[EGL] " ++ dec (Z.of_nat found) ++ " out of " ++ dec numDevices
     ++ " devices are accessible. Using device " ++ dec device
     ++ " whose physical id is ")%string.

Definition text_remapped_tail (physical : Z) : string :=
  (dec physical ++ "." ++ endl)%string.

(** Lines 157-182: from the enumerated count and the requested (logical)
    index to the final value of [device], the physical index. *)
Definition resolve_device (env : EGLEnv) (numDevices : Z) (device : Z) : M Z :=
  visible_devices <-
    (if 1 <? numDevices then probe_devices env (Z.to_nat numDevices) 0 []
     else if numDevices =? 1 then ret [0]
     else error_exit msg_no_devices) ;;
  (if device >=? Z.of_nat (List.length visible_devices)
   then error_exit (msg_out_of_range device (List.length visible_devices))
   else ret tt) ;;
  if Z.of_nat (List.length visible_devices) =? numDevices then
    cerr_write (text_detected numDevices device) ;;
    ret device
  else
    cerr_write (text_remapped_head (List.length visible_devices) numDevices device) ;;
    physical <- index visible_devices device ;;
    cerr_write (text_remapped_tail physical) ;;
    device <- index visible_devices device ;;
    ret device.

Definition msg_no_extension : string :=
  "Failed to get function pointer of eglQueryDevicesEXT/eglGetPlatformDisplayEXT! Maybe EGL extensions are unsupported.".

(** [eglQueryDevicesEXT(MAX_DEVICES, eglDevs, &numDevices)]: at most
    [MAX_DEVICES] devices are written, [numDevices] is their number. *)
Definition call_eglQueryDevicesEXT (env : EGLEnv) (max_devices : Z) : M (list handle) :=
  emit (eglQueryDevicesEXT max_devices) ;;
  ret (firstn (Z.to_nat max_devices) (egl_devices env)).

(** The block "1. Initialize EGL" (lines 143-184): the value stored in
    [eglDpy_]. *)
Definition select_display (env : EGLEnv) (device : Z) : M handle :=
  emit (eglGetProcAddress "eglQueryDevicesEXT") ;;
  emit (eglGetProcAddress "eglGetPlatformDisplayEXT") ;;
  (if negb (egl_proc_address env "eglQueryDevicesEXT")
      || negb (egl_proc_address env "eglGetPlatformDisplayEXT")
   then error_exit msg_no_extension else ret tt) ;;
  eglDevs <- call_eglQueryDevicesEXT env MAX_DEVICES ;;
  device <- resolve_device env (Z.of_nat (List.length eglDevs)) device ;;
  dev <- index eglDevs device ;;
  emit (eglGetPlatformDisplayEXT dev) ;;
  ret (egl_platform_display env dev).

Definition msg_config : string :=
  "Cannot create configs for EGL! You driver may not support EGL.".

(** "2. Select an appropriate configuration" (lines 195-202); one
    configuration slot is requested. *)
Definition choose_config (env : EGLEnv) (dpy : handle) : M handle :=
  emit (eglChooseConfig dpy 1) ;;
  let '(succ, eglCfg, numConfigs, err) := egl_choose_config env dpy in
  set_egl_error err ;;
  checkError succ ;;
  if negb (numConfigs =? 1) then error_exit msg_config else ret eglCfg.

(** Lines 186-192: [eglInitialize] and its two checks. *)
Definition msg_initialize : string := "Failed to initialize EGL display!".
Definition msg_make_current : string := "Failed to make EGL context current!".

Definition initialize_display (env : EGLEnv) (eglDpy : handle) : M unit :=
  emit (eglInitialize eglDpy) ;;
  let '(succ, err) := egl_initialize env eglDpy in
  set_egl_error err ;;
  (if negb succ then error_exit msg_initialize else ret tt) ;;
  checkError succ.

(** "4. Bind the API" (lines 211-213); the value left in [succ]. *)
Definition bind_api (env : EGLEnv) : M bool :=
  emit eglBindAPI ;;
  let '(succ, err) := egl_bind_api env in
  set_egl_error err ;;
  checkError succ ;;
  ret succ.

(** Lines 216-217: [eglCreateContext]; the check that follows receives
    [succ], still the answer of [eglBindAPI]. *)
Definition create_context (env : EGLEnv) (eglDpy eglCfg : handle) (succ : bool)
    : M handle :=
  emit (eglCreateContext eglDpy eglCfg EGL_NO_CONTEXT) ;;
  let '(eglCtx, err) := egl_create_context env eglDpy eglCfg in
  set_egl_error err ;;
  checkError succ ;;
  ret eglCtx.

(** Lines 218-221: [eglMakeCurrent] and its two checks. *)
Definition make_current (env : EGLEnv) (eglDpy eglSurf eglCtx : handle) : M unit :=
  emit (eglMakeCurrent eglDpy eglSurf eglSurf eglCtx) ;;
  let '(succ, err) := egl_make_current env eglDpy eglCtx in
  set_egl_error err ;;
  (if negb succ then error_exit msg_make_current else ret tt) ;;
  checkError succ.

(** [EGLContext::EGLContext(Geometry win_size, int device)] *)
Definition EGLContext_ctor (env : EGLEnv) (win_size : Geometry) (device : Z)
    : M EGLContext :=
  fetch_add 1 ;;
  (* 1. Initialize EGL *)
  eglDpy <- select_display env device ;;
  initialize_display env eglDpy ;;
  (* 2. Select an appropriate configuration *)
  eglCfg <- choose_config env eglDpy ;;
  (* 3. Create a surface *)
  let eglSurf := EGL_NO_SURFACE in
  (* 4. Bind the API *)
  succ <- bind_api env ;;
  (* 5. Create a context and make it current *)
  eglCtx <- create_context env eglDpy eglCfg succ ;;
  make_current env eglDpy eglSurf eglCtx ;;
  GLContext_init win_size ;;
  ret (mkEGLContext win_size eglDpy eglCtx).

(** [EGLContext::~EGLContext()]: the decrement of the counter is
    commented out in the source. *)
Definition EGLContext_dtor (self : EGLContext) : M unit :=
  emit (eglDestroyContext (eglDpy_ self) (eglCtx_ self)) ;;
  emit (eglTerminate (eglDpy_ self)).

(** ** GLXHeadlessContext: the display-backed backend *)

Record GLXEnv : Type := mkGLXEnv {
  x_open_display : handle;                        (* XOpenDisplay(NULL) *)
  glx_fb_configs : handle -> list handle;         (* the array of glXChooseFBConfig; [] for NULL *)
  glx_proc_address : string -> bool;              (* glXGetProcAddressARB(name) != NULL *)
  glx_create_context : handle -> handle -> handle;
  glx_create_pbuffer : handle -> handle -> handle;
  glx_make_current : handle -> handle -> handle -> bool
}.

Record GLXHeadlessContext : Type := mkGLXHeadlessContext {
  glx_win_size_ : Geometry;
  dpy_ : handle;
  context_ : handle;
  pbuffer_ : handle
}.

(** [GLXHeadlessContext::GLXHeadlessContext(Geometry win_size)] *)
Definition GLXHeadlessContext_ctor (env : GLXEnv) (win_size : Geometry)
    : M GLXHeadlessContext :=
  emit XOpenDisplay ;;
  let dpy := x_open_display env in
  (if dpy =? NULL then error_exit "Cannot connect to DISPLAY!" else ret tt) ;;
  emit (glXChooseFBConfig dpy) ;;
  let fbc := glx_fb_configs env dpy in
  emit (glXGetProcAddressARB "glXCreateContextAttribsARB") ;;
  fbc0 <- index fbc 0 ;;
  (if glx_proc_address env "glXCreateContextAttribsARB" then ret tt
   else undefined_behaviour) ;;
  emit (glXCreateContextAttribsARB dpy fbc0 NULL) ;;
  let context := glx_create_context env dpy fbc0 in
  fbc0 <- index fbc 0 ;;
  emit (glXCreatePbuffer dpy fbc0) ;;
  let pbuffer := glx_create_pbuffer env dpy fbc0 in
  emit XFree ;;
  emit (XSync dpy) ;;
  emit (glXMakeContextCurrent dpy pbuffer pbuffer context) ;;
  (if negb (glx_make_current env dpy pbuffer context)
   then error_exit "Cannot create GLX context!" else ret tt) ;;
  GLContext_init win_size ;;
  ret (mkGLXHeadlessContext win_size dpy context pbuffer).

(** [GLXHeadlessContext::~GLXHeadlessContext()] *)
Definition GLXHeadlessContext_dtor (self : GLXHeadlessContext) : M unit :=
  emit (glXMakeContextCurrent (dpy_ self) NULL NULL NULL) ;;
  emit (glXDestroyContext (dpy_ self) (context_ self)) ;;
  emit (glXDestroyPbuffer (dpy_ self) (pbuffer_ self)) ;;
  emit (XCloseDisplay (dpy_ self)).

(** ** CGLHeadlessContext: the native macOS backend *)

Record CGLEnv : Type := mkCGLEnv {
  cgl_choose_pixel_format : Z * handle;           (* CGLError, pixel format *)
  cgl_create_context : handle -> Z * handle;      (* CGLError, context *)
  cgl_set_current_context : handle -> Z           (* CGLError *)
}.

Record CGLHeadlessContext : Type := mkCGLHeadlessContext {
  cgl_win_size_ : Geometry;
  cgl_context_ : handle
}.

Definition kCGLNoError : Z := 0.

(** The lambda [checkError] of the CGL constructor. *)
Definition cgl_checkError (err : Z) : M unit :=
  if err =? kCGLNoError then ret tt
  else error_exit ("Error " ++ dec err ++ " when creating CGL Context")%string.

(** [CGLHeadlessContext::CGLHeadlessContext(Geometry win_size)] *)
Definition CGLHeadlessContext_ctor (env : CGLEnv) (win_size : Geometry)
    : M CGLHeadlessContext :=
  emit CGLChoosePixelFormat ;;
  let '(err, pix) := cgl_choose_pixel_format env in
  cgl_checkError err ;;
  emit (CGLCreateContext pix NULL) ;;
  let '(err, context) := cgl_create_context env pix in
  cgl_checkError err ;;
  emit (CGLDestroyPixelFormat pix) ;;
  emit (CGLSetCurrentContext context) ;;
  cgl_checkError (cgl_set_current_context env context) ;;
  GLContext_init win_size ;;
  ret (mkCGLHeadlessContext win_size context).

(** [CGLHeadlessContext::~CGLHeadlessContext()] *)
Definition CGLHeadlessContext_dtor (self : CGLHeadlessContext) : M unit :=
  emit (CGLSetCurrentContext NULL) ;;
  emit (CGLDestroyContext (cgl_context_ self)).

(** ** Running a computation *)

Definition final {A} (r : world * outcome A) : world := fst r.
Definition result {A} (r : world * outcome A) : outcome A := snd r.

Definition aborted {A} (r : world * outcome A) : Prop :=
  exists msg, result r = Abort msg.

Definition succeeded {A} (r : world * outcome A) : Prop :=
  exists a, result r = Ok a.

(** ** Sample environments *)

(** A host whose files under /dev cannot be opened. *)
Definition no_file : string -> Z := fun _ => -1.

(** Only /dev/nvidia0 and /dev/nvidia2 can be opened. *)
Definition files_0_2 : string -> Z := fun path =>
  if (path =? "/dev/nvidia0")%string then 3
  else if (path =? "/dev/nvidia2")%string then 3
  else -1.

(** Only /dev/nvidia1 can be opened. *)
Definition files_1 : string -> Z := fun path =>
  if (path =? "/dev/nvidia1")%string then 3 else -1.

(** An EGL implementation on which every call succeeds: [devices] are
    the enumerated device handles, [files] answers [open]. *)
Definition healthy_egl (devices : list handle) (files : string -> Z) : EGLEnv :=
  {| egl_proc_address := fun _ => true;
     egl_devices := devices;
     open_rdonly := files;
     egl_platform_display := fun dev => dev + 1000;
     egl_initialize := fun _ => (true, EGL_SUCCESS);
     egl_choose_config := fun _ => (true, 7, 1, EGL_SUCCESS);
     egl_bind_api := (true, EGL_SUCCESS);
     egl_create_context := fun _ _ => (42, EGL_SUCCESS);
     egl_make_current := fun _ _ => (true, EGL_SUCCESS) |}.

Definition geometry_640x480 : Geometry := mkGeometry 640 480.

(** ** The accessibility set *)

(** The indices [i, i+1, ..., i+n-1]. *)
Fixpoint upto (i : Z) (n : nat) : list Z :=
  match n with
  | O => []
  | S n' => i :: upto (i + 1) n'
  end.

(** Device [i] is accessible when its device file opens. *)
Definition readable (env : EGLEnv) (i : Z) : bool :=
  negb (open_rdonly env (device_path i) =? -1).

(** The accessibility subset S of {0..N-1}, in ascending order. *)
Definition accessible (env : EGLEnv) (N : nat) : list Z :=
  filter (readable env) (upto 0 N).

(** [p] is the [i]-th smallest element (counting from 0) of the set
    listed without repetition by [S]: it belongs to [S] and exactly [i]
    elements of [S] are smaller. *)
Definition ith_smallest (S : list Z) (i : Z) (p : Z) : Prop :=
  In p S /\ Z.of_nat (List.length (filter (fun d => d <? p) S)) = i.

(** The calls of the probing loop. *)
Fixpoint probe_events (env : EGLEnv) (n : nat) (i : Z) : list event :=
  match n with
  | O => []
  | S n' =>
      let dev := device_path i in
      (sys_open dev ::
         if open_rdonly env dev =? -1 then [] else [sys_close (open_rdonly env dev)])
        ++ probe_events env n' (i + 1)
  end.

Definition add_events (s : world) (evs : list event) : world :=
  mkWorld (NUM_EGLCONTEXT_ALIVE s) (trace s ++ evs) (cerr s) (egl_error s).

Definition add_cerr (s : world) (text : string) : world :=
  mkWorld (NUM_EGLCONTEXT_ALIVE s) (trace s) (cerr s ++ text) (egl_error s).

Definition file_event (e : event) : bool :=
  match e with
  | sys_open _ | sys_close _ => true
  | _ => false
  end.

(** ** Notions used by the statements *)

(** What [eglQueryDevicesEXT(MAX_DEVICES, ...)] stores in [eglDevs], and
    the count it stores in [numDevices]. *)
Definition enumerated (env : EGLEnv) : list handle :=
  firstn (Z.to_nat MAX_DEVICES) (egl_devices env).

Definition numDevices (env : EGLEnv) : Z := Z.of_nat (List.length (enumerated env)).

(** Both extension entry points were found by [eglGetProcAddress]. *)
Definition extensions_available (env : EGLEnv) : Prop :=
  egl_proc_address env "eglQueryDevicesEXT" = true /\
  egl_proc_address env "eglGetPlatformDisplayEXT" = true.

(** The calls issued by a computation started in state [s]. *)
Definition calls_of {A} (s : world) (r : world * outcome A) : list event :=
  skipn (List.length (trace s)) (trace (final r)).

(** A computation is quiet for [P] when it leaves the counter alone and
    issues only calls accepted by [P]. *)
Definition quiet {A} (P : event -> bool) (m : M A) : Prop :=
  forall s,
    NUM_EGLCONTEXT_ALIVE (final (m s)) = NUM_EGLCONTEXT_ALIVE s /\
    exists evs, trace (final (m s)) = trace s ++ evs /\ forallb P evs = true.

(** The resolver property in the words of the specification: for every
    count N >= 1 and accessibility subset S, a logical index below |S|
    yields the i-th smallest element of S (the index itself when
    |S| = N), and any other index is rejected. *)
Definition resolver_claim (env : EGLEnv) (N i : Z) (s : world) : Prop :=
  1 <= N -> 0 <= i ->
  let S := accessible env (Z.to_nat N) in
  (i < Z.of_nat (List.length S) ->
   exists p, result (resolve_device env N i s) = Ok p /\ ith_smallest S i p /\
             (Z.of_nat (List.length S) = N -> p = i)) /\
  (Z.of_nat (List.length S) <= i -> aborted (resolve_device env N i s)).

(** Classes of calls. *)
Definition selection_event (e : event) : bool :=
  match e with
  | eglGetProcAddress _ | eglQueryDevicesEXT _ | eglGetPlatformDisplayEXT _ => true
  | _ => false
  end.

Definition setup_event (e : event) : bool :=
  match e with
  | eglInitialize _ | eglGetError | eglChooseConfig _ _ | eglBindAPI
  | eglCreateContext _ _ _ | eglMakeCurrent _ _ _ _ | glViewport _ _ _ _ => true
  | _ => false
  end.

Definition is_increment (e : event) : bool :=
  match e with
  | fetch_add_NUM_EGLCONTEXT_ALIVE _ => true
  | _ => false
  end.

Definition is_make_current (e : event) : bool :=
  match e with
  | eglMakeCurrent _ _ _ _ => true
  | _ => false
  end.

Definition is_viewport (e : event) : bool :=
  match e with
  | glViewport _ _ _ _ => true
  | _ => false
  end.

(** The vector [visible_devices] built by the resolver when at least one
    device is enumerated. *)
Definition visibility_set (env : EGLEnv) (N : Z) : list Z :=
  if 1 <? N then accessible env (Z.to_nat N) else [0].

(** Every message a computation can hand to [error_exit] satisfies [Q]. *)
Definition fatal_only {A} (Q : string -> Prop) (m : M A) : Prop :=
  forall s msg, result (m s) = Abort msg -> Q msg.

(** Lines 186-223 of the constructor: what follows the selection of the
    display. *)
Definition after_display (env : EGLEnv) (win_size : Geometry) (eglDpy : handle)
    : M EGLContext :=
  initialize_display env eglDpy ;;
  eglCfg <- choose_config env eglDpy ;;
  succ <- bind_api env ;;
  eglCtx <- create_context env eglDpy eglCfg succ ;;
  make_current env eglDpy EGL_NO_SURFACE eglCtx ;;
  GLContext_init win_size ;;
  ret (mkEGLContext win_size eglDpy eglCtx).

(** The state after the calls [evs], with [err] pending for [eglGetError]. *)
Definition called (s : world) (evs : list event) (err : Z) : world :=
  mkWorld (NUM_EGLCONTEXT_ALIVE s) (trace s ++ evs) (cerr s) err.

(** The calls of lines 186-223 when every check passes. *)
Definition setup_calls (ws : Geometry) (dpy cfg ctx : handle) : list event :=
  [eglInitialize dpy; eglGetError;
   eglChooseConfig dpy 1; eglGetError;
   eglBindAPI; eglGetError;
   eglCreateContext dpy cfg EGL_NO_CONTEXT; eglGetError;
   eglMakeCurrent dpy EGL_NO_SURFACE EGL_NO_SURFACE ctx; eglGetError;
   glViewport 0 0 (w ws) (h ws)].

(** The count stored in [numConfigs] by [eglChooseConfig] on display [dpy]. *)
Definition numConfigs (env : EGLEnv) (dpy : handle) : Z :=
  snd (fst (egl_choose_config env dpy)).

(** Every call of the constructor other than the count of configurations
    reports success: the display [dpy] is selected for index [dev], and
    [eglInitialize], [eglChooseConfig], [eglBindAPI], [eglCreateContext]
    and [eglMakeCurrent] succeed and leave no error code. *)
Definition other_calls_succeed (env : EGLEnv) (dev : Z) (dpy : handle) : Prop :=
  (forall s, result (select_display env dev s) = Ok dpy) /\
  egl_initialize env dpy = (true, EGL_SUCCESS) /\
  egl_bind_api env = (true, EGL_SUCCESS) /\
  exists cfg ctx,
    egl_choose_config env dpy = (true, cfg, numConfigs env dpy, EGL_SUCCESS) /\
    egl_create_context env dpy cfg = (ctx, EGL_SUCCESS) /\
    egl_make_current env dpy ctx = (true, EGL_SUCCESS).

(** An EGL implementation that answers the query for one configuration
    with a count of two. *)
Definition two_configs_egl : EGLEnv :=
  {| egl_proc_address := fun _ => true;
     egl_devices := [100];
     open_rdonly := no_file;
     egl_platform_display := fun dev => dev + 1000;
     egl_initialize := fun _ => (true, EGL_SUCCESS);
     egl_choose_config := fun _ => (true, 7, 2, EGL_SUCCESS);
     egl_bind_api := (true, EGL_SUCCESS);
     egl_create_context := fun _ _ => (42, EGL_SUCCESS);
     egl_make_current := fun _ _ => (true, EGL_SUCCESS) |}.

(** Position of the first call accepted by [p]. *)
Fixpoint first_index (p : event -> bool) (l : list event) : option nat :=
  match l with
  | [] => None
  | e :: l' => if p e then Some O else option_map S (first_index p l')
  end.

(** The increment of the counter as step 8 of the protocol: after the
    context is made current, before the viewport is applied. *)
Definition increment_is_step_8 (calls : list event) : Prop :=
  match first_index is_make_current calls,
        first_index is_increment calls,
        first_index is_viewport calls with
  | Some m, Some c, Some v => (m < c < v)%nat
  | _, _, _ => False
  end.

(** The placement of the increment in the words of the specification:
    it is step 8, reached only once the preceding steps have succeeded. *)
Definition counter_increment_claim (env : EGLEnv) (ws : Geometry) (dev : Z) (s : world)
    : Prop :=
  let r := EGLContext_ctor env ws dev s in
  (succeeded r -> increment_is_step_8 (calls_of s r)) /\
  (aborted r -> NUM_EGLCONTEXT_ALIVE (final r) = NUM_EGLCONTEXT_ALIVE s).

(** One context constructed and destroyed at once. *)
Definition construct_then_destroy (env : EGLEnv) (ws : Geometry) (dev : Z) : M unit :=
  obj <- EGLContext_ctor env ws dev ;; EGLContext_dtor obj.

(** Lines of text: the number of newline characters. *)
Fixpoint count_lines (text : string) : nat :=
  match text with
  | EmptyString => 0
  | String c rest => (if Ascii.eqb c (ascii_of_nat 10) then 1 else 0) + count_lines rest
  end.

Definition lines_written {A} (s : world) (r : world * outcome A) : Z :=
  Z.of_nat (count_lines (cerr (final r))) - Z.of_nat (count_lines (cerr s)).

(** The diagnostics output in the words of the specification. *)
Definition printInfo_five_lines (gl : GLEnv) (s : world) : Prop :=
  lines_written s (GLContext_printInfo gl s) = 5.

(** The text [printInfo] is expected to write for the four strings. *)
Definition printInfo_text (version glsl vendor renderer : string) : string :=
  ("----------- OpenGL Context Info --------------" ++ endl
   ++ "GL Version: " ++ version ++ endl
   ++ "GLSL Version: " ++ glsl ++ endl
   ++ "Vendor: " ++ vendor ++ endl
   ++ "Renderer: " ++ renderer ++ endl
   ++ "----------------------------------------------" ++ endl)%string.

(** A context is current: the four strings are available. *)
Definition current_gl (version glsl vendor renderer : string) : GLEnv :=
  mkGLEnv (fun name =>
    match name with
    | GL_VERSION => Some version
    | GL_SHADING_LANGUAGE_VERSION => Some glsl
    | GL_VENDOR => Some vendor
    | GL_RENDERER => Some renderer
    end).

(** ** Resources held by a backend *)

(** What the native calls of the four backends acquire and release. *)
Inductive resource : Type :=
| WindowingLibrary    (* glfwInit / glfwTerminate *)
| Window              (* glfwCreateWindow *)
| Display             (* eglInitialize / eglTerminate, XOpenDisplay / XCloseDisplay *)
| ConfigList          (* glXChooseFBConfig / XFree *)
| PixelFormat         (* CGLChoosePixelFormat / CGLDestroyPixelFormat *)
| Context             (* context creation / context destruction *)
| Drawable            (* glXCreatePbuffer / glXDestroyPbuffer *)
| CurrentBinding.     (* a context made current / the binding cleared *)

Definition resource_eqb (a b : resource) : bool :=
  match a, b with
  | WindowingLibrary, WindowingLibrary | Window, Window | Display, Display
  | ConfigList, ConfigList | PixelFormat, PixelFormat | Context, Context
  | Drawable, Drawable | CurrentBinding, CurrentBinding => true
  | _, _ => false
  end.

(** The resource a construction call acquires.  Making a null context
    current acquires nothing: it is the call that clears the binding. *)
Definition acquires (e : event) : option resource :=
  match e with
  | glfwInit => Some WindowingLibrary
  | glfwCreateWindow _ _ _ => Some Window
  | glfwMakeContextCurrent window => if window =? NULL then None else Some CurrentBinding
  | eglInitialize _ => Some Display
  | eglCreateContext _ _ _ => Some Context
  | eglMakeCurrent _ _ _ ctx => if ctx =? EGL_NO_CONTEXT then None else Some CurrentBinding
  | XOpenDisplay => Some Display
  | glXChooseFBConfig _ => Some ConfigList
  | glXCreateContextAttribsARB _ _ _ => Some Context
  | glXCreatePbuffer _ _ => Some Drawable
  | glXMakeContextCurrent _ _ _ ctx => if ctx =? NULL then None else Some CurrentBinding
  | CGLChoosePixelFormat => Some PixelFormat
  | CGLCreateContext _ _ => Some Context
  | CGLSetCurrentContext ctx => if ctx =? NULL then None else Some CurrentBinding
  | _ => None
  end.

(** The resource a teardown call releases. *)
Definition releases (e : event) : option resource :=
  match e with
  | glfwTerminate => Some WindowingLibrary
  | glfwMakeContextCurrent window => if window =? NULL then Some CurrentBinding else None
  | eglMakeCurrent _ _ _ ctx => if ctx =? EGL_NO_CONTEXT then Some CurrentBinding else None
  | eglDestroyContext _ _ => Some Context
  | eglTerminate _ => Some Display
  | XFree => Some ConfigList
  | glXMakeContextCurrent _ _ _ ctx => if ctx =? NULL then Some CurrentBinding else None
  | glXDestroyContext _ _ => Some Context
  | glXDestroyPbuffer _ _ => Some Drawable
  | XCloseDisplay _ => Some Display
  | CGLDestroyPixelFormat _ => Some PixelFormat
  | CGLSetCurrentContext ctx => if ctx =? NULL then Some CurrentBinding else None
  | CGLDestroyContext _ => Some Context
  | _ => None
  end.

Fixpoint remove_first (r : resource) (stack : list resource) : list resource :=
  match stack with
  | [] => []
  | x :: rest => if resource_eqb r x then rest else x :: remove_first r rest
  end.

Definition track (stack : list resource) (e : event) : list resource :=
  match acquires e with
  | Some r => r :: stack
  | None =>
      match releases e with
      | Some r => remove_first r stack
      | None => stack
      end
  end.

(** The resources still held after the calls, most recent first. *)
Definition held (calls : list event) : list resource := fold_left track calls [].

(** The resources released by the calls, in the order of the calls. *)
Fixpoint released (calls : list event) : list resource :=
  match calls with
  | [] => []
  | e :: rest =>
      match releases e with
      | Some r => r :: released rest
      | None => released rest
      end
  end.

(** [a] is obtained from [b] by dropping elements. *)
Fixpoint subsequence (a b : list resource) : bool :=
  match a, b with
  | [], _ => true
  | _ :: _, [] => false
  | x :: a', y :: b' => if resource_eqb x y then subsequence a' b' else subsequence a b'
  end.

(** Teardown in reverse order of construction: the resources are
    released most recent first.  The strict form releases all of them. *)
Definition teardown_reverses (construction teardown : list event) : Prop :=
  released teardown = held construction.

Definition teardown_in_reverse_order (construction teardown : list event) : Prop :=
  subsequence (released teardown) (held construction) = true.

(** The hints set by the windowed backend. *)
Definition glfw_hints (DEBUG core : bool) : list event :=
  (if core then
     [glfwWindowHint GLFW_CONTEXT_VERSION_MAJOR 3;
      glfwWindowHint GLFW_CONTEXT_VERSION_MINOR 3;
      glfwWindowHint GLFW_OPENGL_PROFILE GLFW_OPENGL_CORE_PROFILE;
      glfwWindowHint GLFW_OPENGL_FORWARD_COMPAT GL_TRUE]
       ++ (if DEBUG then [glfwWindowHint GLFW_OPENGL_DEBUG_CONTEXT 1] else [])
   else [])
    ++ [glfwWindowHint GLFW_RESIZABLE GL_FALSE].

(** An X server and GLX implementation on which every call succeeds. *)
Definition healthy_glx : GLXEnv :=
  {| x_open_display := 5;
     glx_fb_configs := fun _ => [9; 10];
     glx_proc_address := fun _ => true;
     glx_create_context := fun _ _ => 21;
     glx_create_pbuffer := fun _ _ => 22;
     glx_make_current := fun _ _ _ => true |}.

(** A GLX implementation that cannot create the context: the call
    returns NULL, and making the null context current on the drawable
    fails. *)
Definition no_context_glx : GLXEnv :=
  {| x_open_display := 5;
     glx_fb_configs := fun _ => [9; 10];
     glx_proc_address := fun _ => true;
     glx_create_context := fun _ _ => NULL;
     glx_create_pbuffer := fun _ _ => 22;
     glx_make_current := fun _ _ ctx => negb (ctx =? NULL) |}.

Definition healthy_cgl : CGLEnv :=
  {| cgl_choose_pixel_format := (kCGLNoError, 31);
     cgl_create_context := fun _ => (kCGLNoError, 32);
     cgl_set_current_context := fun _ => kCGLNoError |}.

Definition healthy_glfw : GLFWEnv := {| glfw_create_window := fun _ _ => 51 |}.

(** A call that neither acquires nor releases a tracked resource. *)
Definition untracked (e : event) : bool :=
  match acquires e, releases e with
  | None, None => true
  | _, _ => false
  end.

(** The destruction-order property in the words of the specification,
    for the display-backed backend: the teardown calls of a context just
    constructed come in the reverse order of the construction calls. *)
Definition glx_teardown_claim (env : GLXEnv) (ws : Geometry) (s : world) : Prop :=
  forall s1 self,
    GLXHeadlessContext_ctor env ws s = (s1, Ok self) ->
    teardown_in_reverse_order
      (calls_of s (GLXHeadlessContext_ctor env ws s))
      (calls_of s1 (GLXHeadlessContext_dtor self s1)).

(** ** Validation of native calls *)

Definition error_query (e : event) : bool :=
  match e with
  | eglGetError => true
  | _ => false
  end.

(** The calls issued after the first call accepted by [p]. *)
Fixpoint calls_after (p : event -> bool) (l : list event) : option (list event) :=
  match l with
  | [] => None
  | e :: l' => if p e then Some l' else calls_after p l'
  end.

(** The failure of a call is caught by a check placed immediately after
    it: the computation ended through [error_exit], and after the first
    call that reported failure nothing was called but the error query
    of the check itself. *)
Definition validated_at_once {A} (failed : event -> bool) (s : world)
    (r : world * outcome A) : Prop :=
  aborted r /\
  match calls_after failed (calls_of s r) with
  | Some rest => forallb error_query rest = true
  | None => False
  end.

(** Which calls report failure, by backend.  For [eglCreateContext] the
    report is the pending error code: the constructor does not look at
    the handle. *)
Definition glfw_call_failed (env : GLFWEnv) (e : event) : bool :=
  match e with
  | glfwCreateWindow width height _ => glfw_create_window env width height =? NULL
  | _ => false
  end.

Definition egl_call_failed (env : EGLEnv) (e : event) : bool :=
  match e with
  | eglInitialize dpy =>
      let '(succ, err) := egl_initialize env dpy in
      negb succ || negb (err =? EGL_SUCCESS)
  | eglChooseConfig dpy _ =>
      let '(succ, _, n, err) := egl_choose_config env dpy in
      negb succ || negb (err =? EGL_SUCCESS) || negb (n =? 1)
  | eglBindAPI =>
      let '(succ, err) := egl_bind_api env in
      negb succ || negb (err =? EGL_SUCCESS)
  | eglCreateContext dpy cfg _ =>
      negb (snd (egl_create_context env dpy cfg) =? EGL_SUCCESS)
  | eglMakeCurrent dpy _ _ ctx =>
      let '(succ, err) := egl_make_current env dpy ctx in
      negb succ || negb (err =? EGL_SUCCESS)
  | _ => false
  end.

(** Which calls of the whole device-direct constructor report failure:
    a lookup that returns a null pointer, an enumeration that stores a
    count below one, and the calls of lines 186-223 as above. *)
Definition egl_ctor_call_failed (env : EGLEnv) (e : event) : bool :=
  match e with
  | eglGetProcAddress name => negb (egl_proc_address env name)
  | eglQueryDevicesEXT max_devices =>
      Z.of_nat (List.length (firstn (Z.to_nat max_devices) (egl_devices env))) <? 1
  | _ => egl_call_failed env e
  end.

(** None of the calls reported failure. *)
Definition no_call_failed (failed : event -> bool) (calls : list event) : bool :=
  forallb (fun e => negb (failed e)) calls.

(** The calls of lines 155-183 that follow the enumeration. *)
Definition probe_or_display_event (e : event) : bool :=
  match e with
  | sys_open _ | sys_close _ | eglGetPlatformDisplayEXT _ => true
  | _ => false
  end.

Definition glx_call_failed (env : GLXEnv) (e : event) : bool :=
  match e with
  | XOpenDisplay => x_open_display env =? NULL
  | glXMakeContextCurrent dpy draw _ ctx => negb (glx_make_current env dpy draw ctx)
  | _ => false
  end.

Definition cgl_call_failed (env : CGLEnv) (e : event) : bool :=
  match e with
  | CGLChoosePixelFormat => negb (fst (cgl_choose_pixel_format env) =? kCGLNoError)
  | CGLCreateContext pix _ => negb (fst (cgl_create_context env pix) =? kCGLNoError)
  | CGLSetCurrentContext ctx => negb (cgl_set_current_context env ctx =? kCGLNoError)
  | _ => false
  end.

Definition is_glx_context_creation (e : event) : bool :=
  match e with
  | glXCreateContextAttribsARB _ _ _ => true
  | _ => false
  end.

(** The propagation policy in the words of the specification, for the
    context creation of the display-backed backend: when the call
    returns a null context, a check placed immediately after it ends
    the construction. *)
Definition glx_context_creation_checked (env : GLXEnv) (ws : Geometry) (s : world)
    : Prop :=
  (exists dpy cfg,
     In (glXCreateContextAttribsARB dpy cfg NULL)
        (calls_of s (GLXHeadlessContext_ctor env ws s)) /\
     glx_create_context env dpy cfg = NULL) ->
  validated_at_once is_glx_context_creation s (GLXHeadlessContext_ctor env ws s).

(** The no-devices message is raised only with the extension entry
    points available and an empty enumeration. *)
Definition only_without_devices (env : EGLEnv) (msg : string) : Prop :=
  msg = msg_no_devices -> extensions_available env /\ numDevices env = 0.

(** ** Notions used by the further properties *)

(** A computation only appends to the list of calls. *)
Definition monotone {A} (m : M A) : Prop :=
  forall s, trace (final (m s)) = trace s ++ calls_of s (m s).

(** The paths handed to [open], in the order of the calls. *)
Fixpoint opened_paths (calls : list event) : list string :=
  match calls with
  | [] => []
  | sys_open path :: rest => path :: opened_paths rest
  | _ :: rest => opened_paths rest
  end.

Fixpoint remove_descriptor (fd : Z) (open : list Z) : list Z :=
  match open with
  | [] => []
  | x :: rest => if x =? fd then rest else x :: remove_descriptor fd rest
  end.

(** The file descriptors obtained from [open] and not yet handed to
    [close], most recent first. *)
Fixpoint descriptors_open (env : EGLEnv) (calls : list event) (open : list Z) : list Z :=
  match calls with
  | [] => open
  | sys_open path :: rest =>
      descriptors_open env rest
        (if open_rdonly env path =? -1 then open else open_rdonly env path :: open)
  | sys_close fd :: rest => descriptors_open env rest (remove_descriptor fd open)
  | _ :: rest => descriptors_open env rest open
  end.

(** The file calls among the calls. *)
Definition file_calls (calls : list event) : list event := filter file_event calls.

(** The messages of the device-direct constructor. *)
Definition egl_fatal_message (msg : string) : Prop :=
  msg = msg_no_extension \/ msg = msg_no_devices \/
  (exists device found, msg = msg_out_of_range device found) \/
  msg = msg_initialize \/ (exists err, err <> EGL_SUCCESS /\ msg = msg_egl_error err) \/
  msg = msg_egl_failed \/ msg = msg_config \/ msg = msg_make_current.

Definition not_viewport (e : event) : bool := negb (is_viewport e).

(** The viewport call is the last call, and the only one of its kind. *)
Definition viewport_last (ws : Geometry) (calls : list event) : Prop :=
  exists before,
    calls = before ++ [glViewport 0 0 (w ws) (h ws)] /\
    forallb not_viewport before = true.

Definition is_glfw_hint (e : event) : bool :=
  match e with
  | glfwWindowHint _ _ => true
  | _ => false
  end.

(** The line the resolver writes to [cerr] for its outcome: the count
    and the index when every enumerated device is visible, the remapping
    otherwise, nothing when no device is chosen. *)
Definition resolver_report (env : EGLEnv) (N dev : Z) (o : outcome Z) : string :=
  match o with
  | Ok p =>
      let found := List.length (visibility_set env N) in
      if Z.of_nat found =? N then text_detected N dev
      else text_remapped found N dev p
  | _ => ""%string
  end.

(** * Properties *)

(** ** Lemmas on lists of indices *)

Section Indices.

Lemma in_upto (n : nat) : forall i d, In d (upto i n) <-> i <= d < i + Z.of_nat n.
Proof.
  induction n as [|n IH]; intros i d; simpl upto.
  - simpl. lia.
  - simpl In. rewrite IH. lia.
Qed.

Lemma length_upto (n : nat) : forall i, List.length (upto i n) = n.
Proof. induction n; intros; simpl; auto. Qed.

Lemma upto_sorted (n : nat) : forall i, StronglySorted Z.lt (upto i n).
Proof.
  induction n as [|n IH]; intros i; simpl; constructor; auto.
  apply Forall_forall. intros d Hd. apply in_upto in Hd. lia.
Qed.

Lemma filter_sorted (f : Z -> bool) (l : list Z) :
  StronglySorted Z.lt l -> StronglySorted Z.lt (filter f l).
Proof.
  induction 1 as [|a l Hl IH Ha]; simpl; [constructor|].
  destruct (f a); auto. constructor; auto.
  rewrite Forall_forall in *. intros d Hd. apply filter_In in Hd. apply Ha, Hd.
Qed.

Lemma nth_upto (n : nat) : forall i k, (k < n)%nat ->
  nth_error (upto i n) k = Some (i + Z.of_nat k).
Proof.
  induction n as [|n IH]; intros i k Hk; [lia|].
  destruct k as [|k]; simpl.
  - f_equal. lia.
  - rewrite IH by lia. f_equal. lia.
Qed.

Lemma filter_length_le (f : Z -> bool) (l : list Z) :
  (List.length (filter f l) <= List.length l)%nat.
Proof. induction l as [|a l IH]; simpl; [lia|]. destruct (f a); simpl; lia. Qed.

(** A filter that keeps the length keeps the list. *)
Lemma filter_full (f : Z -> bool) (l : list Z) :
  List.length (filter f l) = List.length l -> filter f l = l.
Proof.
  induction l as [|a l IH]; simpl; auto.
  destruct (f a); simpl; intros H.
  - f_equal. apply IH. lia.
  - pose proof (filter_length_le f l). lia.
Qed.

(** In a strictly ascending list the element at position [k] has
    exactly [k] smaller elements. *)
Lemma sorted_rank (l : list Z) : StronglySorted Z.lt l ->
  forall k p, nth_error l k = Some p ->
  List.length (filter (fun d => d <? p) l) = k.
Proof.
  induction 1 as [|a l Hl IH Ha]; intros k p Hk.
  - destruct k; discriminate.
  - destruct k as [|k]; simpl in Hk.
    + injection Hk as ->. simpl. rewrite Z.ltb_irrefl.
      rewrite Forall_forall in Ha.
      assert (E : filter (fun d => d <? p) l = []).
      { clear -Ha. induction l as [|b l IH]; simpl; auto.
        assert (p < b) by (apply Ha; left; auto).
        destruct (b <? p) eqn:E; [apply Z.ltb_lt in E; lia|].
        apply IH. intros d Hd. apply Ha. right; auto. }
      now rewrite E.
    + simpl. rewrite Forall_forall in Ha.
      assert (a < p) by (apply Ha; eapply nth_error_In; eauto).
      destruct (a <? p) eqn:E; [|apply Z.ltb_ge in E; lia].
      simpl. f_equal. eauto.
Qed.

Lemma nth_is_ith_smallest (l : list Z) (k : nat) (p : Z) :
  StronglySorted Z.lt l -> nth_error l k = Some p ->
  ith_smallest l (Z.of_nat k) p.
Proof.
  intros Hs Hk. split.
  - eapply nth_error_In; eauto.
  - f_equal. eapply sorted_rank; eauto.
Qed.

End Indices.

(** ** Lemmas on the monad *)

Lemma bind_ok {A B} (m : M A) (k : A -> M B) s s' a :
  m s = (s', Ok a) -> bind m k s = k a s'.
Proof. unfold bind. now intros ->. Qed.

Lemma bind_abort {A B} (m : M A) (k : A -> M B) s s' msg :
  m s = (s', Abort msg) -> bind m k s = (s', Abort msg).
Proof. unfold bind. now intros ->. Qed.

Lemma bind_undefined {A B} (m : M A) (k : A -> M B) s s' :
  m s = (s', Undefined) -> bind m k s = (s', Undefined).
Proof. unfold bind. now intros ->. Qed.

Lemma add_events_nil s : add_events s [] = s.
Proof. destruct s. unfold add_events. simpl. now rewrite app_nil_r. Qed.

Lemma add_events_app s e1 e2 :
  add_events (add_events s e1) e2 = add_events s (e1 ++ e2).
Proof. unfold add_events. simpl. now rewrite app_assoc. Qed.

Lemma emit_eq e s : emit e s = (add_events s [e], Ok tt).
Proof. reflexivity. Qed.

(** ** Lemmas on text *)

Lemma string_append_assoc (a b c : string) :
  ((a ++ b) ++ c)%string = (a ++ (b ++ c))%string.
Proof. induction a as [|x a IH]; cbn [append]; [reflexivity|]. now rewrite IH. Qed.

Lemma text_remapped_split (found : nat) (N device physical : Z) :
  (text_remapped_head found N device ++ text_remapped_tail physical)%string
  = text_remapped found N device physical.
Proof.
  unfold text_remapped_head, text_remapped_tail, text_remapped.
  repeat rewrite string_append_assoc. reflexivity.
Qed.

(** ** The probing loop *)

Lemma check_nvidia_readable_eq env i s :
  check_nvidia_readable env i s =
  (add_events s (probe_events env 1 i), Ok (readable env i)).
Proof.
  unfold check_nvidia_readable, readable, bind. cbn [probe_events].
  rewrite emit_eq, app_nil_r. cbv zeta.
  destruct (open_rdonly env (device_path i) =? -1).
  - reflexivity.
  - rewrite emit_eq, add_events_app. reflexivity.
Qed.

Lemma probe_devices_eq env n : forall i visible s,
  probe_devices env n i visible s =
  (add_events s (probe_events env n i),
   Ok (visible ++ filter (readable env) (upto i n))).
Proof.
  induction n as [|n IH]; intros i visible s.
  - simpl. now rewrite add_events_nil, app_nil_r.
  - cbn [probe_devices]. erewrite bind_ok by apply check_nvidia_readable_eq.
    rewrite IH, add_events_app. cbn [probe_events upto filter]. rewrite app_nil_r.
    f_equal. f_equal. destruct (readable env i); [|reflexivity].
    now rewrite <- app_assoc.
Qed.

Lemma probe_events_file env n : forall i, forallb file_event (probe_events env n i) = true.
Proof.
  induction n as [|n IH]; intros i; cbn [probe_events]; auto.
  rewrite forallb_app, IH. destruct (_ =? -1); reflexivity.
Qed.

(** ** The resolver, case by case *)

Section Resolver.

Variable env : EGLEnv.

(** More than one enumerated device: the loop probes every index. *)
Lemma resolve_device_many (N i : Z) (s : world) : 1 < N ->
  resolve_device env N i s =
  let V := accessible env (Z.to_nat N) in
  let s1 := add_events s (probe_events env (Z.to_nat N) 0) in
  if i >=? Z.of_nat (List.length V) then (s1, Abort (msg_out_of_range i (List.length V)))
  else if Z.of_nat (List.length V) =? N then (add_cerr s1 (text_detected N i), Ok i)
  else if i <? 0 then (add_cerr s1 (text_remapped_head (List.length V) N i), Undefined)
  else match nth_error V (Z.to_nat i) with
       | Some p => (add_cerr s1 (text_remapped (List.length V) N i p), Ok p)
       | None => (add_cerr s1 (text_remapped_head (List.length V) N i), Undefined)
       end.
Proof.
  intros HN. unfold resolve_device.
  apply Z.ltb_lt in HN. rewrite HN.
  erewrite bind_ok by apply probe_devices_eq.
  cbn [app]. fold (accessible env (Z.to_nat N)). cbv zeta.
  set (V := accessible env (Z.to_nat N)).
  destruct (i >=? Z.of_nat (List.length V)); [reflexivity|].
  erewrite bind_ok by reflexivity.
  destruct (Z.of_nat (List.length V) =? N); [reflexivity|].
  erewrite bind_ok by reflexivity.
  unfold index. destruct (i <? 0); [reflexivity|].
  destruct (nth_error V (Z.to_nat i)) as [p|] eqn:Ep; [|reflexivity].
  unfold bind, cerr_write, ret, add_cerr.
  cbn [NUM_EGLCONTEXT_ALIVE trace cerr egl_error].
  now rewrite string_append_assoc, text_remapped_split.
Qed.

(** Exactly one enumerated device: nothing is probed. *)
Lemma resolve_device_one (i : Z) (s : world) :
  resolve_device env 1 i s =
  if i >=? 1 then (s, Abort (msg_out_of_range i 1))
  else (add_cerr s (text_detected 1 i), Ok i).
Proof.
  unfold resolve_device. cbn [Z.ltb Z.compare Z.eqb Pos.compare Pos.eqb].
  erewrite bind_ok by reflexivity. cbn [List.length Z.of_nat Pos.of_succ_nat].
  destruct (i >=? 1); reflexivity.
Qed.

(** No enumerated device. *)
Lemma resolve_device_none (N i : Z) (s : world) : N <= 0 ->
  resolve_device env N i s = (s, Abort msg_no_devices).
Proof.
  intros HN. unfold resolve_device.
  destruct (1 <? N) eqn:E1; [apply Z.ltb_lt in E1; lia|].
  destruct (N =? 1) eqn:E2; [apply Z.eqb_eq in E2; lia|].
  reflexivity.
Qed.

Lemma accessible_sorted (n : nat) : StronglySorted Z.lt (accessible env n).
Proof. apply filter_sorted, upto_sorted. Qed.

Lemma accessible_length (n : nat) : (List.length (accessible env n) <= n)%nat.
Proof.
  unfold accessible. etransitivity; [apply filter_length_le|].
  now rewrite length_upto.
Qed.

Lemma in_accessible (n : nat) (d : Z) :
  In d (accessible env n) <-> 0 <= d < Z.of_nat n /\ readable env d = true.
Proof. unfold accessible. rewrite filter_In, in_upto. tauto. Qed.

Lemma accessible_full (n : nat) (k : nat) :
  List.length (accessible env n) = n -> (k < n)%nat ->
  nth_error (accessible env n) k = Some (Z.of_nat k).
Proof.
  intros Hlen Hk. unfold accessible in *.
  rewrite filter_full by now rewrite length_upto.
  now rewrite nth_upto.
Qed.

End Resolver.

(** ** Quiet computations *)

Section Quiet.

Context {P : event -> bool}.

Lemma quiet_ret {A} (a : A) : quiet P (ret a).
Proof. intros s. split; [reflexivity|]. exists []. simpl. now rewrite app_nil_r. Qed.

Lemma quiet_error_exit {A} msg : quiet P (@error_exit A msg).
Proof. intros s. split; [reflexivity|]. exists []. simpl. now rewrite app_nil_r. Qed.

Lemma quiet_undefined {A} : quiet P (@undefined_behaviour A).
Proof. intros s. split; [reflexivity|]. exists []. simpl. now rewrite app_nil_r. Qed.

Lemma quiet_cerr_write text : quiet P (cerr_write text).
Proof. intros s. split; [reflexivity|]. exists []. simpl. now rewrite app_nil_r. Qed.

Lemma quiet_set_egl_error code : quiet P (set_egl_error code).
Proof. intros s. split; [reflexivity|]. exists []. simpl. now rewrite app_nil_r. Qed.

Lemma quiet_emit e : P e = true -> quiet P (emit e).
Proof. intros He s. split; [reflexivity|]. exists [e]. simpl. now rewrite He. Qed.

Lemma quiet_bind {A B} (m : M A) (k : A -> M B) :
  quiet P m -> (forall a, quiet P (k a)) -> quiet P (bind m k).
Proof.
  intros Hm Hk s. unfold bind. destruct (Hm s) as [Hc [evs [Ht Hp]]].
  destruct (m s) as [s1 [a|msg|]]; simpl in *.
  - destruct (Hk a s1) as [Hc' [evs' [Ht' Hp']]]. split; [congruence|].
    exists (evs ++ evs'). rewrite Ht', Ht, app_assoc, forallb_app, Hp, Hp'. auto.
  - split; [assumption|]. now exists evs.
  - split; [assumption|]. now exists evs.
Qed.

Lemma quiet_index {A} (a : list A) i : quiet P (index a i).
Proof.
  unfold index. destruct (i <? 0); [apply quiet_undefined|].
  destruct (nth_error a (Z.to_nat i)); [apply quiet_ret|apply quiet_undefined].
Qed.

End Quiet.

Lemma quiet_weaken {A} (P Q : event -> bool) (m : M A) :
  (forall e, P e = true -> Q e = true) -> quiet P m -> quiet Q m.
Proof.
  intros HPQ Hm s. destruct (Hm s) as [Hc [evs [Ht Hp]]]. split; [assumption|].
  exists evs. split; [assumption|]. rewrite forallb_forall in *. auto.
Qed.

(** Splits a computation into its statements and discharges the calls
    accepted by the predicate. *)
Ltac quiet_steps :=
  repeat first
    [ apply quiet_ret | apply quiet_error_exit | apply quiet_undefined
    | apply quiet_cerr_write | apply quiet_set_egl_error | apply quiet_index
    | apply quiet_emit; reflexivity
    | apply quiet_bind; [|intros]
    | match goal with
      | |- quiet _ (if ?b then _ else _) => destruct b
      | |- quiet _ (match ?x with (_, _) => _ end) => destruct x
      | |- quiet _ (match ?x with Some _ => _ | None => _ end) => destruct x
      end ].

Lemma calls_of_app {A} (s : world) (r : world * outcome A) evs :
  trace (final r) = trace s ++ evs -> calls_of s r = evs.
Proof.
  unfold calls_of. intros ->. rewrite skipn_app, skipn_all, Nat.sub_diag. reflexivity.
Qed.

(** ** The device visibility resolver *)

(** C1 (as amended): for an enumerated count N >= 2 and the
    accessibility subset S of {0..N-1}, a logical index i with
    0 <= i < |S| resolves to the i-th smallest element of S, which is i
    itself when |S| = N, and an index i >= |S| is rejected through
    [error_exit]; for N = 1 nothing is probed and the visibility set is
    {0} whatever the accessibility of the device: index 0 resolves to 0
    and every index i >= 1 is rejected. *)
Theorem resolve_device_ith_accessible (env : EGLEnv) (N i : Z) (s : world) :
  0 <= i ->
  (2 <= N ->
   let S := accessible env (Z.to_nat N) in
   (i < Z.of_nat (List.length S) ->
    exists p, result (resolve_device env N i s) = Ok p /\ ith_smallest S i p /\
              (Z.of_nat (List.length S) = N -> p = i)) /\
   (Z.of_nat (List.length S) <= i ->
    result (resolve_device env N i s) = Abort (msg_out_of_range i (List.length S)))) /\
  (N = 1 ->
   (i = 0 -> result (resolve_device env N i s) = Ok 0) /\
   (1 <= i -> result (resolve_device env N i s) = Abort (msg_out_of_range i 1))).
Proof.
  intros Hi. split.
  - intros HN S. rewrite resolve_device_many by lia. fold S. cbv zeta.
    split.
    + intros Hlt.
      destruct (i >=? Z.of_nat (List.length S)) eqn:E; [apply Z.geb_le in E; lia|].
      assert (Hnth : exists p, nth_error S (Z.to_nat i) = Some p).
      { destruct (nth_error S (Z.to_nat i)) eqn:En; [eauto|].
        apply nth_error_None in En. exfalso. lia. }
      destruct Hnth as [p Hp].
      assert (Hrank : ith_smallest S i p).
      { rewrite <- (Z2Nat.id i) by lia.
        apply nth_is_ith_smallest; [apply accessible_sorted|exact Hp]. }
      destruct (Z.of_nat (List.length S) =? N) eqn:EN.
      * apply Z.eqb_eq in EN. exists i.
        assert (Hpi : p = i).
        { unfold S in *. rewrite accessible_full in Hp by lia.
          injection Hp as <-. lia. }
        subst p. auto.
      * apply Z.eqb_neq in EN.
        destruct (i <? 0) eqn:E0; [apply Z.ltb_lt in E0; lia|].
        rewrite Hp. exists p. split; [reflexivity|]. split; [exact Hrank|].
        intros HSN. contradiction.
    + intros Hge.
      destruct (i >=? Z.of_nat (List.length S)) eqn:E; [reflexivity|].
      rewrite Z.geb_leb in E. apply Z.leb_gt in E. lia.
  - intros ->. rewrite resolve_device_one. split.
    + intros ->. reflexivity.
    + intros H1. destruct (i >=? 1) eqn:E; [reflexivity|].
      rewrite Z.geb_leb in E. apply Z.leb_gt in E. lia.
Qed.

(** Scenario B of the specification: three devices of which 0 and 2 are
    accessible; logical index 1 is physical device 2 and logical index 2
    is rejected.  On a host with a single device index 0 is device 0. *)
Lemma resolve_device_ith_accessible_witness :
  let env := healthy_egl [100; 101; 102] files_0_2 in
  (exists p, result (resolve_device env 3 1 world0) = Ok p /\
             ith_smallest (accessible env 3) 1 p /\
             (Z.of_nat (List.length (accessible env 3)) = 3 -> p = 1)) /\
  result (resolve_device env 3 2 world0) = Abort (msg_out_of_range 2 2) /\
  result (resolve_device (healthy_egl [100] no_file) 1 0 world0) = Ok 0.
Proof.
  intros env. split; [|split].
  - apply (resolve_device_ith_accessible env 3 1 world0); [lia|lia|].
    vm_compute. reflexivity.
  - apply (resolve_device_ith_accessible env 3 2 world0); [lia|lia|].
    vm_compute. discriminate.
  - apply (resolve_device_ith_accessible (healthy_egl [100] no_file) 1 0 world0);
      [lia|reflexivity|reflexivity].
Defined.

(** C1 as stated fails for a single enumerated device whose device file
    cannot be opened: S is empty, so index 0 should be rejected, yet the
    resolver accepts it and answers physical device 0. *)
Lemma resolver_claim_fails_single_hidden :
  ~ resolver_claim (healthy_egl [100] no_file) 1 0 world0.
Proof.
  intros H. destruct H as [_ H]; [lia|lia|].
  destruct H as [msg H]; [vm_compute; discriminate|].
  vm_compute in H. discriminate H.
Qed.

(** ** The calls of the device-direct constructor *)

Section EGLCalls.

Variable env : EGLEnv.

Lemma quiet_probe_devices (P : event -> bool) n :
  (forall e, file_event e = true -> P e = true) ->
  forall i visible, quiet P (probe_devices env n i visible).
Proof.
  intros HP i visible s. rewrite probe_devices_eq. split; [reflexivity|].
  exists (probe_events env n i). split; [reflexivity|].
  pose proof (probe_events_file env n i) as H.
  rewrite forallb_forall in *. auto.
Qed.

Lemma quiet_checkError (P : event -> bool) succ :
  P eglGetError = true -> quiet P (checkError succ).
Proof.
  intros HP. unfold checkError, call_eglGetError.
  apply quiet_bind; [|intros; quiet_steps].
  apply quiet_bind; [now apply quiet_emit|intros _].
  intros s. split; [reflexivity|]. exists []. simpl. now rewrite app_nil_r.
Qed.

(** With at most one enumerated device the resolver issues no call. *)
Lemma quiet_resolve_device_few (P : event -> bool) N dev :
  N <= 1 -> quiet P (resolve_device env N dev).
Proof.
  intros HN. unfold resolve_device.
  destruct (1 <? N) eqn:E; [apply Z.ltb_lt in E; lia|].
  quiet_steps.
Qed.

Lemma quiet_resolve_device (P : event -> bool) N dev :
  (forall e, file_event e = true -> P e = true) ->
  quiet P (resolve_device env N dev).
Proof.
  intros HP. unfold resolve_device.
  apply quiet_bind; [|intros; quiet_steps].
  destruct (1 <? N); [now apply quiet_probe_devices|quiet_steps].
Qed.

(** The block "1. Initialize EGL" once the enumeration is known. *)
Lemma select_display_eq dev s :
  select_display env dev s =
  let s1 := add_events s [eglGetProcAddress "eglQueryDevicesEXT";
                          eglGetProcAddress "eglGetPlatformDisplayEXT"] in
  if negb (egl_proc_address env "eglQueryDevicesEXT")
     || negb (egl_proc_address env "eglGetPlatformDisplayEXT")
  then (s1, Abort msg_no_extension)
  else
    (device <- resolve_device env (numDevices env) dev ;;
     d <- index (enumerated env) device ;;
     emit (eglGetPlatformDisplayEXT d) ;;
     ret (egl_platform_display env d))
      (add_events s1 [eglQueryDevicesEXT MAX_DEVICES]).
Proof.
  unfold select_display.
  erewrite bind_ok by apply emit_eq. erewrite bind_ok by apply emit_eq.
  rewrite add_events_app. cbn [app]. cbv zeta.
  destruct (negb (egl_proc_address env "eglQueryDevicesEXT")
            || negb (egl_proc_address env "eglGetPlatformDisplayEXT")).
  - reflexivity.
  - erewrite bind_ok by reflexivity.
    unfold call_eglQueryDevicesEXT.
    erewrite bind_ok; [reflexivity|].
    erewrite bind_ok by apply emit_eq. reflexivity.
Qed.

Lemma quiet_select_display (P : event -> bool) dev :
  (forall e, selection_event e = true -> P e = true) ->
  quiet P (resolve_device env (numDevices env) dev) ->
  quiet P (select_display env dev).
Proof.
  intros HP Hr s. rewrite select_display_eq. cbv zeta.
  destruct (negb (egl_proc_address env "eglQueryDevicesEXT")
            || negb (egl_proc_address env "eglGetPlatformDisplayEXT")).
  - split; [reflexivity|]. eexists. split; [reflexivity|].
    cbn [forallb]. rewrite !HP by reflexivity. reflexivity.
  - match goal with |- context [final (?m ?s1)] =>
      assert (Hq : quiet P m);
      [|destruct (Hq s1) as [Hc [evs [Ht Hp]]]] end.
    { apply quiet_bind; [exact Hr|intros device].
      apply quiet_bind; [apply quiet_index|intros d].
      apply quiet_bind; [apply quiet_emit, HP; reflexivity|intros; apply quiet_ret]. }
    split; [exact Hc|]. eexists. split.
    + rewrite Ht. cbn [trace add_events]. rewrite <- !app_assoc. reflexivity.
    + cbn [app forallb]. rewrite !HP by reflexivity. exact Hp.
Qed.

Lemma quiet_after_display (P : event -> bool) ws dpy :
  (forall e, setup_event e = true -> P e = true) ->
  quiet P (initialize_display env dpy ;;
           eglCfg <- choose_config env dpy ;;
           succ <- bind_api env ;;
           eglCtx <- create_context env dpy eglCfg succ ;;
           make_current env dpy EGL_NO_SURFACE eglCtx ;;
           GLContext_init ws ;;
           ret (mkEGLContext ws dpy eglCtx)).
Proof.
  intros HP.
  assert (Hc : forall succ, quiet P (checkError succ))
    by (intros; apply quiet_checkError, HP; reflexivity).
  unfold initialize_display, choose_config, bind_api, create_context,
    make_current, GLContext_init.
  repeat first
    [ apply Hc | apply quiet_emit, HP; reflexivity
    | apply quiet_ret | apply quiet_error_exit | apply quiet_set_egl_error
    | apply quiet_bind; [|intros]
    | match goal with
      | |- quiet _ (if ?b then _ else _) => destruct b
      | |- quiet _ (match ?x with (_, _) => _ end) => destruct x
      end ].
Qed.

(** The constructor first updates the counter; everything that follows
    is quiet. *)
Lemma EGLContext_ctor_calls (P : event -> bool) ws dev s :
  quiet P (select_display env dev) ->
  (forall e, setup_event e = true -> P e = true) ->
  NUM_EGLCONTEXT_ALIVE (final (EGLContext_ctor env ws dev s))
    = wrap_int (NUM_EGLCONTEXT_ALIVE s + 1) /\
  exists evs,
    calls_of s (EGLContext_ctor env ws dev s) = fetch_add_NUM_EGLCONTEXT_ALIVE 1 :: evs /\
    forallb P evs = true.
Proof.
  intros Hsel HP.
  assert (Hq : quiet P (eglDpy <- select_display env dev ;;
                        initialize_display env eglDpy ;;
                        eglCfg <- choose_config env eglDpy ;;
                        succ <- bind_api env ;;
                        eglCtx <- create_context env eglDpy eglCfg succ ;;
                        make_current env eglDpy EGL_NO_SURFACE eglCtx ;;
                        GLContext_init ws ;;
                        ret (mkEGLContext ws eglDpy eglCtx))).
  { apply quiet_bind; [exact Hsel|intros dpy]. now apply quiet_after_display. }
  destruct (Hq (final (fetch_add 1 s))) as [Hc [evs [Ht Hp]]].
  change (EGLContext_ctor env ws dev s) with
    ((eglDpy <- select_display env dev ;;
      initialize_display env eglDpy ;;
      eglCfg <- choose_config env eglDpy ;;
      succ <- bind_api env ;;
      eglCtx <- create_context env eglDpy eglCfg succ ;;
      make_current env eglDpy EGL_NO_SURFACE eglCtx ;;
      GLContext_init ws ;;
      ret (mkEGLContext ws eglDpy eglCtx)) (final (fetch_add 1 s))).
  split; [exact Hc|].
  exists evs. split; [|exact Hp].
  apply calls_of_app. rewrite Ht. cbn [trace final fetch_add fst].
  now rewrite <- app_assoc.
Qed.

End EGLCalls.

(** ** Results of sequenced computations *)

Lemma result_bind_abort {A B} (m : M A) (k : A -> M B) s msg :
  result (m s) = Abort msg -> result (bind m k s) = Abort msg.
Proof. unfold bind, result. destruct (m s) as [s' [a|m'|]]; simpl; congruence. Qed.

Lemma result_bind_undefined {A B} (m : M A) (k : A -> M B) s :
  result (m s) = Undefined -> result (bind m k s) = Undefined.
Proof. unfold bind, result. destruct (m s) as [s' [a|m'|]]; simpl; congruence. Qed.

Lemma result_bind_ok {A B} (m : M A) (k : A -> M B) s a :
  result (m s) = Ok a -> result (bind m k s) = result (k a (final (m s))).
Proof. unfold bind, result, final. destruct (m s) as [s' [a'|m'|]]; simpl; congruence. Qed.

Section FatalOnly.

Context {Q : string -> Prop}.

Lemma fatal_only_ret {A} (a : A) : fatal_only Q (ret a).
Proof. intros s msg H. discriminate H. Qed.

Lemma fatal_only_undefined {A} : fatal_only Q (@undefined_behaviour A).
Proof. intros s msg H. discriminate H. Qed.

Lemma fatal_only_emit e : fatal_only Q (emit e).
Proof. intros s msg H. discriminate H. Qed.

Lemma fatal_only_cerr_write text : fatal_only Q (cerr_write text).
Proof. intros s msg H. discriminate H. Qed.

Lemma fatal_only_set_egl_error code : fatal_only Q (set_egl_error code).
Proof. intros s msg H. discriminate H. Qed.

Lemma fatal_only_fetch_add delta : fatal_only Q (fetch_add delta).
Proof. intros s msg H. discriminate H. Qed.

Lemma fatal_only_error_exit {A} msg : Q msg -> fatal_only Q (@error_exit A msg).
Proof. intros HQ s msg' H. injection H as <-. exact HQ. Qed.

Lemma fatal_only_bind {A B} (m : M A) (k : A -> M B) :
  fatal_only Q m -> (forall a, fatal_only Q (k a)) -> fatal_only Q (bind m k).
Proof.
  intros Hm Hk s msg. unfold bind. specialize (Hm s).
  destruct (m s) as [s1 [a|msg'|]]; unfold result in *; simpl in *.
  - apply Hk.
  - intros H. apply Hm. injection H as <-. reflexivity.
  - discriminate.
Qed.

Lemma fatal_only_index {A} (a : list A) i : fatal_only Q (index a i).
Proof.
  unfold index. destruct (i <? 0); [apply fatal_only_undefined|].
  destruct (nth_error a (Z.to_nat i)); [apply fatal_only_ret|apply fatal_only_undefined].
Qed.

Lemma fatal_only_probe_devices env n i visible :
  fatal_only Q (probe_devices env n i visible).
Proof. intros s msg. rewrite probe_devices_eq. discriminate. Qed.

Lemma fatal_only_call_eglGetError : fatal_only Q call_eglGetError.
Proof. intros s msg H. discriminate H. Qed.

End FatalOnly.

(** Splits a computation into its statements, keeping the outcome of
    each test; what is left are the [error_exit] sites. *)
Ltac fatal_steps :=
  repeat first
    [ apply fatal_only_ret | apply fatal_only_undefined | apply fatal_only_emit
    | apply fatal_only_cerr_write | apply fatal_only_set_egl_error
    | apply fatal_only_index | apply fatal_only_probe_devices
    | apply fatal_only_call_eglGetError | apply fatal_only_fetch_add
    | apply fatal_only_bind; [|intros]
    | match goal with
      | |- fatal_only _ (if ?b then _ else _) => destruct b eqn:?
      | |- fatal_only _ (match ?x with (_, _) => _ end) => destruct x eqn:?
      | |- fatal_only _ (error_exit _) => apply fatal_only_error_exit
      end ].

(** ** Outcomes of the display selection *)

Section Selection.

Variable env : EGLEnv.

Lemma numDevices_nonneg : 0 <= numDevices env.
Proof. unfold numDevices. lia. Qed.

Lemma extensions_test :
  extensions_available env ->
  negb (egl_proc_address env "eglQueryDevicesEXT")
  || negb (egl_proc_address env "eglGetPlatformDisplayEXT") = false.
Proof. intros [-> ->]. reflexivity. Qed.

Lemma select_display_no_extension dev s :
  ~ extensions_available env ->
  result (select_display env dev s) = Abort msg_no_extension.
Proof.
  intros H. rewrite select_display_eq. cbv zeta. unfold extensions_available in H.
  destruct (egl_proc_address env "eglQueryDevicesEXT");
    destruct (egl_proc_address env "eglGetPlatformDisplayEXT");
    try reflexivity.
  exfalso. apply H. auto.
Qed.

Lemma select_display_abort dev msg :
  extensions_available env ->
  (forall s, result (resolve_device env (numDevices env) dev s) = Abort msg) ->
  forall s, result (select_display env dev s) = Abort msg.
Proof.
  intros Hext H s. rewrite select_display_eq. cbv zeta.
  rewrite extensions_test by assumption.
  apply result_bind_abort, H.
Qed.

Lemma select_display_undefined dev :
  extensions_available env ->
  (forall s, result (resolve_device env (numDevices env) dev s) = Undefined) ->
  forall s, result (select_display env dev s) = Undefined.
Proof.
  intros Hext H s. rewrite select_display_eq. cbv zeta.
  rewrite extensions_test by assumption.
  apply result_bind_undefined, H.
Qed.

Lemma select_display_physical dev p :
  extensions_available env ->
  (forall s, result (resolve_device env (numDevices env) dev s) = Ok p) ->
  forall s, result (select_display env dev s) =
            if p <? 0 then Undefined
            else match nth_error (enumerated env) (Z.to_nat p) with
                 | Some d => Ok (egl_platform_display env d)
                 | None => Undefined
                 end.
Proof.
  intros Hext H s. rewrite select_display_eq. cbv zeta.
  rewrite extensions_test by assumption.
  erewrite result_bind_ok by apply H.
  unfold index. destruct (p <? 0); [reflexivity|].
  destruct (nth_error (enumerated env) (Z.to_nat p)); reflexivity.
Qed.

(** A failure of the display selection is the failure of the constructor. *)
Lemma EGLContext_ctor_select_abort ws dev msg :
  (forall s, result (select_display env dev s) = Abort msg) ->
  forall s, result (EGLContext_ctor env ws dev s) = Abort msg.
Proof.
  intros H s. unfold EGLContext_ctor.
  erewrite result_bind_ok by reflexivity.
  apply result_bind_abort, H.
Qed.

Lemma EGLContext_ctor_select_undefined ws dev :
  (forall s, result (select_display env dev s) = Undefined) ->
  forall s, result (EGLContext_ctor env ws dev s) = Undefined.
Proof.
  intros H s. unfold EGLContext_ctor.
  erewrite result_bind_ok by reflexivity.
  apply result_bind_undefined, H.
Qed.

(** The resolver aborts exactly when the index is not below the size of
    the visibility set. *)
Lemma resolve_device_rejects N dev s :
  1 <= N ->
  result (resolve_device env N dev s) =
  if dev >=? Z.of_nat (List.length (visibility_set env N))
  then Abort (msg_out_of_range dev (List.length (visibility_set env N)))
  else result (resolve_device env N dev s).
Proof.
  intros HN. unfold visibility_set. destruct (1 <? N) eqn:E.
  - apply Z.ltb_lt in E. rewrite resolve_device_many by assumption. cbv zeta.
    destruct (dev >=? _); reflexivity.
  - apply Z.ltb_ge in E. assert (N = 1) as -> by lia.
    rewrite resolve_device_one. cbn [List.length Z.of_nat Pos.of_succ_nat].
    destruct (dev >=? 1); reflexivity.
Qed.

Lemma resolve_device_accepts N dev s :
  1 <= N -> dev < Z.of_nat (List.length (visibility_set env N)) ->
  ~ aborted (resolve_device env N dev s).
Proof.
  intros HN Hlt [msg H]. revert H. unfold visibility_set in Hlt.
  destruct (1 <? N) eqn:E.
  - apply Z.ltb_lt in E. rewrite resolve_device_many by assumption. cbv zeta.
    destruct (dev >=? _) eqn:Ege; [apply Z.geb_le in Ege; lia|].
    destruct (_ =? N); [discriminate|].
    destruct (dev <? 0); [discriminate|].
    destruct (nth_error _ _); discriminate.
  - apply Z.ltb_ge in E. assert (N = 1) as -> by lia.
    rewrite resolve_device_one.
    destruct (dev >=? 1) eqn:Ege; [apply Z.geb_le in Ege; simpl in Hlt; lia|].
    discriminate.
Qed.

(** A negative index passes the range check and is used as an array
    index. *)
Lemma resolve_device_negative N dev s :
  1 <= N -> dev < 0 ->
  result (resolve_device env N dev s) = Ok dev \/
  result (resolve_device env N dev s) = Undefined.
Proof.
  intros HN Hneg. destruct (Z.eq_dec N 1) as [->|Hne].
  - rewrite resolve_device_one.
    destruct (dev >=? 1) eqn:Ege; [apply Z.geb_le in Ege; lia|]. now left.
  - rewrite resolve_device_many by lia. cbv zeta.
    destruct (dev >=? _) eqn:Ege; [apply Z.geb_le in Ege; lia|].
    destruct (_ =? N); [now left|].
    destruct (dev <? 0) eqn:E0; [now right|].
    apply Z.ltb_ge in E0. lia.
Qed.

Lemma select_display_negative dev s :
  extensions_available env -> 1 <= numDevices env -> dev < 0 ->
  result (select_display env dev s) = Undefined.
Proof.
  intros Hext HN Hneg. rewrite select_display_eq. cbv zeta.
  rewrite extensions_test by assumption.
  match goal with |- result (bind _ _ ?s1) = _ =>
    destruct (resolve_device_negative (numDevices env) dev s1 HN Hneg) as [H|H] end.
  - erewrite result_bind_ok by exact H.
    unfold index. destruct (dev <? 0) eqn:E0; [reflexivity|].
    apply Z.ltb_ge in E0. lia.
  - now apply result_bind_undefined.
Qed.

End Selection.

Lemma index_defined {A} (a : list A) (i : Z) (s : world) :
  succeeded (index a i s) <-> 0 <= i < Z.of_nat (List.length a).
Proof.
  unfold succeeded, index. destruct (i <? 0) eqn:E0.
  - apply Z.ltb_lt in E0. split; [intros [x H]; discriminate H|lia].
  - apply Z.ltb_ge in E0. destruct (nth_error a (Z.to_nat i)) eqn:En.
    + split; [intros _|intros _; eexists; reflexivity].
      assert (Hlt : (Z.to_nat i < List.length a)%nat)
        by (apply nth_error_Some; congruence).
      lia.
    + apply nth_error_None in En. split; [intros [x H]; discriminate H|lia].
Qed.

(** Closes the goal [msg = msg' -> _] for two messages that differ. *)
Ltac distinct_message :=
  let Hm := fresh "Hm" in
  intro Hm;
  unfold msg_no_devices, msg_out_of_range, msg_no_extension, msg_config,
    msg_egl_error, msg_egl_failed, msg_initialize, msg_make_current in Hm;
  cbn [append] in Hm; discriminate Hm.

Section NoDevices.

Variable env : EGLEnv.

Lemma fatal_only_select_display dev :
  fatal_only (only_without_devices env) (select_display env dev).
Proof.
  intros s msg. rewrite select_display_eq. cbv zeta.
  destruct (egl_proc_address env "eglQueryDevicesEXT") eqn:E1;
    [destruct (egl_proc_address env "eglGetPlatformDisplayEXT") eqn:E2|];
    cbn [negb orb];
    try (intros H; injection H as <-; distinct_message).
  match goal with |- result (bind ?m ?k ?s1) = _ -> _ =>
    apply (@fatal_only_bind (only_without_devices env) _ _ m k) end.
  - pose proof numDevices_nonneg env as Hn.
    unfold resolve_device. fatal_steps; try distinct_message.
    intros _. split; [split; assumption|].
    match goal with
    | Ha : (1 <? _) = false, Hb : (_ =? 1) = false |- _ =>
        apply Z.ltb_ge in Ha; apply Z.eqb_neq in Hb; lia
    end.
  - intros; fatal_steps.
Qed.

Lemma fatal_only_EGLContext_ctor ws dev :
  fatal_only (only_without_devices env) (EGLContext_ctor env ws dev).
Proof.
  unfold EGLContext_ctor.
  apply fatal_only_bind; [apply fatal_only_fetch_add|intros _].
  apply fatal_only_bind; [apply fatal_only_select_display|intros dpy].
  unfold initialize_display, choose_config, bind_api, create_context,
    make_current, checkError, GLContext_init.
  fatal_steps; distinct_message.
Qed.

Lemma no_devices_message_origin ws dev s :
  result (EGLContext_ctor env ws dev s) = Abort msg_no_devices ->
  extensions_available env /\ numDevices env = 0.
Proof. intros H. now apply (fatal_only_EGLContext_ctor ws dev s _ H). Qed.

End NoDevices.

(** ** Classification by the enumerated count *)

(** C7: with the enumeration entry points available, zero enumerated
    devices end the construction through [error_exit] with the
    no-devices message; with exactly one enumerated device no device
    file is opened, whatever index is requested, the visibility set is
    {0}: logical index 0 selects the display of the single device
    (physical index 0), and logical index 1 (any index >= 1) ends the
    construction with the out-of-range message reporting one device. *)
Theorem single_device_not_probed (env : EGLEnv) (ws : Geometry) (s : world) :
  extensions_available env ->
  (numDevices env = 0 ->
   forall i, result (EGLContext_ctor env ws i s) = Abort msg_no_devices) /\
  (numDevices env = 1 ->
   (forall i, forallb (fun e => negb (file_event e))
                (calls_of s (EGLContext_ctor env ws i s)) = true) /\
   visibility_set env (numDevices env) = [0] /\
   result (resolve_device env (numDevices env) 0 s) = Ok 0 /\
   (exists d, enumerated env = [d] /\
              result (select_display env 0 s) = Ok (egl_platform_display env d)) /\
   result (EGLContext_ctor env ws 1 s) = Abort (msg_out_of_range 1 1) /\
   (forall i, 1 <= i ->
              result (EGLContext_ctor env ws i s) = Abort (msg_out_of_range i 1))).
Proof.
  intros Hext. split.
  - intros H0 i. apply EGLContext_ctor_select_abort.
    apply select_display_abort; [assumption|]. intros s'.
    rewrite resolve_device_none by lia. reflexivity.
  - intros H1.
    assert (Hreject : forall i, 1 <= i ->
              result (EGLContext_ctor env ws i s) = Abort (msg_out_of_range i 1)).
    { intros i Hi. apply EGLContext_ctor_select_abort.
      apply select_display_abort; [assumption|]. intros s'.
      rewrite H1, resolve_device_one.
      destruct (i >=? 1) eqn:E; [reflexivity|].
      rewrite Z.geb_leb in E. apply Z.leb_gt in E. lia. }
    repeat split.
    + intros i.
      destruct (EGLContext_ctor_calls env (fun e => negb (file_event e)) ws i s)
        as [_ [evs [Hcalls Hevs]]].
      * apply quiet_select_display.
        -- intros e He. destruct e; try discriminate He; reflexivity.
        -- apply quiet_resolve_device_few. lia.
      * intros e He. destruct e; try discriminate He; reflexivity.
      * rewrite Hcalls. cbn [forallb file_event negb andb]. exact Hevs.
    + rewrite H1. reflexivity.
    + rewrite H1, resolve_device_one. reflexivity.
    + unfold numDevices in H1.
      destruct (enumerated env) as [|d [|d' l]] eqn:El; simpl in H1; try lia.
      exists d. split; [reflexivity|].
      erewrite select_display_physical with (p := 0); [|assumption|].
      * rewrite El. reflexivity.
      * intros s'. unfold numDevices. rewrite El. cbn [List.length Z.of_nat Pos.of_succ_nat].
        rewrite resolve_device_one. reflexivity.
    + apply Hreject. lia.
    + exact Hreject.
Qed.

(** Scenario A of the specification on a host with one device, and a
    host without any. *)
Lemma single_device_not_probed_witness :
  let env := healthy_egl [100] files_0_2 in
  (forall i, result (EGLContext_ctor (healthy_egl [] no_file) geometry_640x480 i world0)
             = Abort msg_no_devices) /\
  ((forall i, forallb (fun e => negb (file_event e))
                (calls_of world0 (EGLContext_ctor env geometry_640x480 i world0)) = true) /\
   visibility_set env (numDevices env) = [0] /\
   result (resolve_device env (numDevices env) 0 world0) = Ok 0 /\
   (exists d, enumerated env = [d] /\
              result (select_display env 0 world0) = Ok (egl_platform_display env d)) /\
   result (EGLContext_ctor env geometry_640x480 1 world0) = Abort (msg_out_of_range 1 1) /\
   (forall i, 1 <= i ->
              result (EGLContext_ctor env geometry_640x480 i world0)
              = Abort (msg_out_of_range i 1))).
Proof.
  intros env. split.
  - apply (single_device_not_probed (healthy_egl [] no_file) geometry_640x480 world0);
      [split; reflexivity|reflexivity].
  - apply (single_device_not_probed env geometry_640x480 world0);
      [split; reflexivity|reflexivity].
Defined.

(** C9: the range check of the resolver fires if and only if the
    requested index is at least the size of the visibility set; a
    negative index is therefore never rejected: it goes on to be used as
    an array index, a read that is defined only for indices inside the
    bounds, so that the construction has no defined outcome. *)
Theorem negative_index_not_rejected (env : EGLEnv) (ws : Geometry) (dev : Z) (s : world) :
  extensions_available env -> 1 <= numDevices env ->
  (aborted (resolve_device env (numDevices env) dev s) <->
   Z.of_nat (List.length (visibility_set env (numDevices env))) <= dev) /\
  (dev < 0 ->
   ~ aborted (resolve_device env (numDevices env) dev s) /\
   result (select_display env dev s) = Undefined /\
   result (EGLContext_ctor env ws dev s) = Undefined) /\
  (forall (a : list handle) (i : Z),
     succeeded (index a i s) <-> 0 <= i < Z.of_nat (List.length a)).
Proof.
  intros Hext HN. split; [|split].
  - split.
    + intros Hab.
      destruct (Z_le_gt_dec (Z.of_nat (List.length (visibility_set env (numDevices env)))) dev)
        as [Hle|Hgt]; [exact Hle|].
      exfalso. eapply resolve_device_accepts; [exact HN| |exact Hab]. lia.
    + intros Hle. unfold aborted. rewrite resolve_device_rejects by assumption.
      destruct (dev >=? _) eqn:E.
      * eexists. reflexivity.
      * rewrite Z.geb_leb in E. apply Z.leb_gt in E. lia.
  - intros Hneg. split; [|split].
    + apply resolve_device_accepts; [assumption|lia].
    + now apply select_display_negative.
    + apply EGLContext_ctor_select_undefined. intros s'.
      now apply select_display_negative.
  - intros a i. apply index_defined.
Qed.

Lemma negative_index_not_rejected_witness :
  let env := healthy_egl [100; 101; 102] files_0_2 in
  (aborted (resolve_device env (numDevices env) (-1) world0) <->
   Z.of_nat (List.length (visibility_set env (numDevices env))) <= -1) /\
  (~ aborted (resolve_device env (numDevices env) (-1) world0) /\
   result (select_display env (-1) world0) = Undefined /\
   result (EGLContext_ctor env geometry_640x480 (-1) world0) = Undefined) /\
  (forall (a : list handle) (i : Z),
     succeeded (index a i world0) <-> 0 <= i < Z.of_nat (List.length a)).
Proof.
  intros env.
  destruct (negative_index_not_rejected env geometry_640x480 (-1) world0)
    as (Hiff & Hneg & Hindex).
  - split; reflexivity.
  - vm_compute. discriminate.
  - split; [exact Hiff|]. split; [apply Hneg; lia|exact Hindex].
Defined.

(** C10: when more than one device is enumerated and none of the device
    files opens, the constructor ends through [error_exit] with the
    out-of-range message reporting 0 found devices, for every requested
    index i >= 0; the no-devices message is handed to [error_exit] only
    when the enumeration itself returned zero devices. *)
Theorem no_accessible_device_out_of_range (env : EGLEnv) (ws : Geometry) (i : Z) (s : world) :
  (extensions_available env -> 1 < numDevices env ->
   accessible env (Z.to_nat (numDevices env)) = [] -> 0 <= i ->
   result (EGLContext_ctor env ws i s) = Abort (msg_out_of_range i 0) /\
   msg_out_of_range i 0
   = ("[EGL] Request device " ++ dec i ++ " but only found 0 devices")%string) /\
  (result (EGLContext_ctor env ws i s) = Abort msg_no_devices -> numDevices env = 0).
Proof.
  split.
  - intros Hext HN Hacc Hi. split; [|reflexivity].
    apply EGLContext_ctor_select_abort.
    apply select_display_abort; [assumption|]. intros s'.
    rewrite resolve_device_many by assumption. cbv zeta. rewrite Hacc.
    cbn [List.length Z.of_nat].
    destruct (i >=? 0) eqn:E; [reflexivity|].
    rewrite Z.geb_leb in E. apply Z.leb_gt in E. lia.
  - intros H. now apply no_devices_message_origin in H.
Qed.

Lemma no_accessible_device_out_of_range_witness :
  (let env := healthy_egl [100; 101] no_file in
   result (EGLContext_ctor env geometry_640x480 0 world0) = Abort (msg_out_of_range 0 0) /\
   msg_out_of_range 0 0
   = ("[EGL] Request device " ++ dec 0 ++ " but only found 0 devices")%string) /\
  numDevices (healthy_egl [] no_file) = 0.
Proof.
  split.
  - intros env.
    apply (no_accessible_device_out_of_range env geometry_640x480 0 world0).
    + split; reflexivity.
    + vm_compute. reflexivity.
    + reflexivity.
    + lia.
  - apply (no_accessible_device_out_of_range (healthy_egl [] no_file)
             geometry_640x480 0 world0).
    reflexivity.
Defined.

(** ** A successful device-direct construction *)

Section EGLSuccess.

Variable env : EGLEnv.

Lemma called_called s e1 x e2 y : called (called s e1 x) e2 y = called s (e1 ++ e2) y.
Proof. unfold called. cbn. now rewrite app_assoc. Qed.

Lemma checkError_eq succ s :
  checkError succ s =
  (called s [eglGetError] EGL_SUCCESS,
   if negb (egl_error s =? EGL_SUCCESS) then Abort (msg_egl_error (egl_error s))
   else if negb succ then Abort msg_egl_failed
   else Ok tt).
Proof.
  unfold checkError, call_eglGetError, bind, emit, error_exit, ret, called. cbn.
  destruct (egl_error s =? EGL_SUCCESS); cbn; [|reflexivity].
  destruct succ; reflexivity.
Qed.

Lemma initialize_display_eq dpy succ err s :
  egl_initialize env dpy = (succ, err) ->
  initialize_display env dpy s =
  if negb succ then (called s [eglInitialize dpy] err, Abort msg_initialize)
  else (called s [eglInitialize dpy; eglGetError] EGL_SUCCESS,
        if negb (err =? EGL_SUCCESS) then Abort (msg_egl_error err) else Ok tt).
Proof.
  intros E. unfold initialize_display. rewrite E.
  unfold bind at 1. rewrite emit_eq. unfold bind at 1. cbn [set_egl_error].
  unfold bind at 1. destruct succ; cbn [negb error_exit ret]; [|reflexivity].
  rewrite checkError_eq. unfold called. cbn. rewrite <- app_assoc. reflexivity.
Qed.

Lemma choose_config_eq dpy succ cfg n err s :
  egl_choose_config env dpy = (succ, cfg, n, err) ->
  choose_config env dpy s =
  (called s [eglChooseConfig dpy 1; eglGetError] EGL_SUCCESS,
   if negb (err =? EGL_SUCCESS) then Abort (msg_egl_error err)
   else if negb succ then Abort msg_egl_failed
   else if negb (n =? 1) then Abort msg_config
   else Ok cfg).
Proof.
  intros E. unfold choose_config. rewrite E.
  unfold bind at 1. rewrite emit_eq. unfold bind at 1. cbn [set_egl_error].
  unfold bind at 1. rewrite checkError_eq. unfold called. cbn.
  rewrite <- app_assoc.
  destruct (err =? EGL_SUCCESS); cbn; [|reflexivity].
  destruct succ; cbn; [|reflexivity].
  destruct (n =? 1); reflexivity.
Qed.

Lemma bind_api_eq succ err s :
  egl_bind_api env = (succ, err) ->
  bind_api env s =
  (called s [eglBindAPI; eglGetError] EGL_SUCCESS,
   if negb (err =? EGL_SUCCESS) then Abort (msg_egl_error err)
   else if negb succ then Abort msg_egl_failed
   else Ok succ).
Proof.
  intros E. unfold bind_api. rewrite E.
  unfold bind at 1. rewrite emit_eq. unfold bind at 1. cbn [set_egl_error].
  unfold bind at 1. rewrite checkError_eq. unfold called. cbn.
  rewrite <- app_assoc.
  destruct (err =? EGL_SUCCESS); cbn; [|reflexivity].
  destruct succ; reflexivity.
Qed.

Lemma create_context_eq dpy cfg succ ctx err s :
  egl_create_context env dpy cfg = (ctx, err) ->
  create_context env dpy cfg succ s =
  (called s [eglCreateContext dpy cfg EGL_NO_CONTEXT; eglGetError] EGL_SUCCESS,
   if negb (err =? EGL_SUCCESS) then Abort (msg_egl_error err)
   else if negb succ then Abort msg_egl_failed
   else Ok ctx).
Proof.
  intros E. unfold create_context. rewrite E.
  unfold bind at 1. rewrite emit_eq. unfold bind at 1. cbn [set_egl_error].
  unfold bind at 1. rewrite checkError_eq. unfold called. cbn.
  rewrite <- app_assoc.
  destruct (err =? EGL_SUCCESS); cbn; [|reflexivity].
  destruct succ; reflexivity.
Qed.

Lemma make_current_eq dpy surf ctx succ err s :
  egl_make_current env dpy ctx = (succ, err) ->
  make_current env dpy surf ctx s =
  if negb succ then (called s [eglMakeCurrent dpy surf surf ctx] err, Abort msg_make_current)
  else (called s [eglMakeCurrent dpy surf surf ctx; eglGetError] EGL_SUCCESS,
        if negb (err =? EGL_SUCCESS) then Abort (msg_egl_error err) else Ok tt).
Proof.
  intros E. unfold make_current. rewrite E.
  unfold bind at 1. rewrite emit_eq. unfold bind at 1. cbn [set_egl_error].
  unfold bind at 1. destruct succ; cbn [negb error_exit ret]; [|reflexivity].
  rewrite checkError_eq. unfold called. cbn. rewrite <- app_assoc. reflexivity.
Qed.

Lemma EGLContext_ctor_eq ws dev s :
  EGLContext_ctor env ws dev s =
  (eglDpy <- select_display env dev ;; after_display env ws eglDpy) (final (fetch_add 1 s)).
Proof. reflexivity. Qed.

(** The decision list of lines 186-223: which check ends the
    construction, after which calls, and with which message. *)
Lemma after_display_eq ws dpy s si ei sc cfg n ec sb eb ctx ecc sm em :
  egl_initialize env dpy = (si, ei) ->
  egl_choose_config env dpy = (sc, cfg, n, ec) ->
  egl_bind_api env = (sb, eb) ->
  egl_create_context env dpy cfg = (ctx, ecc) ->
  egl_make_current env dpy ctx = (sm, em) ->
  let L := setup_calls ws dpy cfg ctx in
  after_display env ws dpy s =
  if negb si then (called s (firstn 1 L) ei, Abort msg_initialize)
  else if negb (ei =? EGL_SUCCESS)
       then (called s (firstn 2 L) EGL_SUCCESS, Abort (msg_egl_error ei))
  else if negb (ec =? EGL_SUCCESS)
       then (called s (firstn 4 L) EGL_SUCCESS, Abort (msg_egl_error ec))
  else if negb sc then (called s (firstn 4 L) EGL_SUCCESS, Abort msg_egl_failed)
  else if negb (n =? 1) then (called s (firstn 4 L) EGL_SUCCESS, Abort msg_config)
  else if negb (eb =? EGL_SUCCESS)
       then (called s (firstn 6 L) EGL_SUCCESS, Abort (msg_egl_error eb))
  else if negb sb then (called s (firstn 6 L) EGL_SUCCESS, Abort msg_egl_failed)
  else if negb (ecc =? EGL_SUCCESS)
       then (called s (firstn 8 L) EGL_SUCCESS, Abort (msg_egl_error ecc))
  else if negb sm then (called s (firstn 9 L) em, Abort msg_make_current)
  else if negb (em =? EGL_SUCCESS)
       then (called s (firstn 10 L) EGL_SUCCESS, Abort (msg_egl_error em))
  else (called s L EGL_SUCCESS, Ok (mkEGLContext ws dpy ctx)).
Proof.
  intros Ei Ec Eb Ecc Em L. unfold after_display.
  unfold bind at 1. rewrite (initialize_display_eq _ _ _ _ Ei).
  destruct si; cbn [negb]; [|reflexivity].
  destruct (ei =? EGL_SUCCESS); cbn [negb]; [|reflexivity].
  unfold bind at 1. rewrite (choose_config_eq _ _ _ _ _ _ Ec), called_called.
  destruct (ec =? EGL_SUCCESS); cbn [negb]; [|reflexivity].
  destruct sc; cbn [negb]; [|reflexivity].
  destruct (n =? 1); cbn [negb]; [|reflexivity].
  unfold bind at 1. rewrite (bind_api_eq _ _ _ Eb), called_called.
  destruct (eb =? EGL_SUCCESS); cbn [negb]; [|reflexivity].
  destruct sb; cbn [negb]; [|reflexivity].
  unfold bind at 1. rewrite (create_context_eq _ _ _ _ _ _ Ecc), called_called.
  destruct (ecc =? EGL_SUCCESS); cbn [negb]; [|reflexivity].
  unfold bind at 1. rewrite (make_current_eq _ _ _ _ _ _ Em).
  destruct sm; cbn [negb]; [|rewrite called_called; reflexivity].
  rewrite called_called.
  destruct (em =? EGL_SUCCESS); cbn [negb]; [|reflexivity].
  unfold bind at 1. unfold GLContext_init. rewrite emit_eq.
  unfold ret, add_events, called. cbn. rewrite <- app_assoc. reflexivity.
Qed.

(** A construction that succeeds has passed every check. *)
Lemma after_display_success ws dpy s s' obj :
  after_display env ws dpy s = (s', Ok obj) ->
  exists cfg ctx,
    obj = mkEGLContext ws dpy ctx /\
    s' = called s (setup_calls ws dpy cfg ctx) EGL_SUCCESS /\
    egl_initialize env dpy = (true, EGL_SUCCESS) /\
    egl_choose_config env dpy = (true, cfg, 1, EGL_SUCCESS) /\
    egl_bind_api env = (true, EGL_SUCCESS) /\
    egl_create_context env dpy cfg = (ctx, EGL_SUCCESS) /\
    egl_make_current env dpy ctx = (true, EGL_SUCCESS).
Proof.
  destruct (egl_initialize env dpy) as [si ei] eqn:Ei.
  destruct (egl_choose_config env dpy) as [[[sc cfg] n] ec] eqn:Ec.
  destruct (egl_bind_api env) as [sb eb] eqn:Eb.
  destruct (egl_create_context env dpy cfg) as [ctx ecc] eqn:Ecc.
  destruct (egl_make_current env dpy ctx) as [sm em] eqn:Em.
  rewrite (after_display_eq ws dpy s _ _ _ _ _ _ _ _ _ _ _ _ Ei Ec Eb Ecc Em).
  cbv zeta.
  destruct si; cbn [negb]; [|discriminate].
  destruct (ei =? EGL_SUCCESS) eqn:Hei; cbn [negb]; [|discriminate].
  destruct (ec =? EGL_SUCCESS) eqn:Hec; cbn [negb]; [|discriminate].
  destruct sc; cbn [negb]; [|discriminate].
  destruct (n =? 1) eqn:Hn; cbn [negb]; [|discriminate].
  destruct (eb =? EGL_SUCCESS) eqn:Heb; cbn [negb]; [|discriminate].
  destruct sb; cbn [negb]; [|discriminate].
  destruct (ecc =? EGL_SUCCESS) eqn:Hecc; cbn [negb]; [|discriminate].
  destruct sm; cbn [negb]; [|discriminate].
  destruct (em =? EGL_SUCCESS) eqn:Hem; cbn [negb]; [|discriminate].
  intros H. injection H as <- <-.
  apply Z.eqb_eq in Hei, Hec, Hn, Heb, Hecc, Hem. subst.
  exists cfg, ctx. rewrite Ecc, Em. repeat split; reflexivity.
Qed.

End EGLSuccess.

(** ** Configuration negotiation *)

Lemma EGLContext_ctor_after_display env ws dev dpy s :
  (forall s', result (select_display env dev s') = Ok dpy) ->
  exists s1, EGLContext_ctor env ws dev s = after_display env ws dpy s1.
Proof.
  intros H. rewrite EGLContext_ctor_eq. unfold bind.
  specialize (H (final (fetch_add 1 s))).
  destruct (select_display env dev (final (fetch_add 1 s))) as [s1 r].
  cbn in H. subst r. now exists s1.
Qed.

(** C4: when every other call of the constructor succeeds, the
    construction ends through [error_exit] if and only if the count
    returned for the single requested configuration slot is not 1, and
    it does so with the configuration message; a count of 2 aborts. *)
Theorem config_count_must_be_one (env : EGLEnv) (ws : Geometry) (dev : Z)
    (dpy : handle) (s : world) :
  other_calls_succeed env dev dpy ->
  (In (eglChooseConfig dpy 1) (calls_of s (EGLContext_ctor env ws dev s))) /\
  (aborted (EGLContext_ctor env ws dev s) <-> numConfigs env dpy <> 1) /\
  (numConfigs env dpy <> 1 ->
   result (EGLContext_ctor env ws dev s) = Abort msg_config) /\
  (numConfigs env dpy = 2 ->
   result (EGLContext_ctor env ws dev s) = Abort msg_config) /\
  (numConfigs env dpy = 1 -> succeeded (EGLContext_ctor env ws dev s)).
Proof.
  intros (Hsel & Ei & Eb & cfg & ctx & Ec & Ecc & Em).
  assert (Hcalls : In (eglChooseConfig dpy 1) (calls_of s (EGLContext_ctor env ws dev s))).
  { rewrite EGLContext_ctor_eq. unfold bind.
    pose proof (Hsel (final (fetch_add 1 s))) as Hr.
    destruct (@quiet_select_display env (fun _ => true) dev (fun _ _ => eq_refl)
                (@quiet_resolve_device env (fun _ => true) _ _ (fun _ _ => eq_refl))
                (final (fetch_add 1 s))) as [_ [evs [Ht _]]].
    destruct (select_display env dev (final (fetch_add 1 s))) as [s1 r].
    cbn in Hr. subst r. cbn [final fst] in Ht.
    rewrite (after_display_eq env ws dpy s1 _ _ _ _ _ _ _ _ _ _ _ _ Ei Ec Eb Ecc Em).
    cbv zeta. cbn [negb Z.eqb EGL_SUCCESS Pos.eqb].
    assert (Hin : forall r err (o : outcome EGLContext),
               In (eglChooseConfig dpy 1) r ->
               In (eglChooseConfig dpy 1) (calls_of s (called s1 r err, o))).
    { intros r err o Hr. unfold calls_of, called, final. cbn [fst trace].
      rewrite Ht. cbn [trace fetch_add fst final]. rewrite <- !app_assoc.
      rewrite skipn_app, skipn_all, Nat.sub_diag. cbn [skipn app].
      right. apply in_or_app. right. exact Hr. }
    destruct (numConfigs env dpy =? 1); cbn [negb]; apply Hin; cbn; auto. }
  split; [exact Hcalls|]. clear Hcalls.
  destruct (EGLContext_ctor_after_display env ws dev dpy s Hsel) as [s1 ->].
  rewrite (after_display_eq env ws dpy s1 _ _ _ _ _ _ _ _ _ _ _ _ Ei Ec Eb Ecc Em).
  cbv zeta. cbn [negb Z.eqb EGL_SUCCESS Pos.eqb].
  destruct (numConfigs env dpy =? 1) eqn:En; cbn [negb].
  - apply Z.eqb_eq in En. repeat split.
    + intros [msg H]. discriminate H.
    + intros H. contradiction.
    + intros H. contradiction.
    + intros H. lia.
    + intros _. eexists. reflexivity.
  - apply Z.eqb_neq in En. repeat split.
    + intros _. exact En.
    + intros _. eexists. reflexivity.
    + intros H. contradiction.
Qed.

(** Scenario C of the specification: the query answers with two
    configurations. *)
Lemma config_count_must_be_one_witness :
  In (eglChooseConfig 1100 1)
     (calls_of world0 (EGLContext_ctor two_configs_egl geometry_640x480 0 world0)) /\
  aborted (EGLContext_ctor two_configs_egl geometry_640x480 0 world0) /\
  result (EGLContext_ctor two_configs_egl geometry_640x480 0 world0) = Abort msg_config /\
  succeeded (EGLContext_ctor (healthy_egl [100] no_file) geometry_640x480 0 world0).
Proof.
  assert (Htwo : other_calls_succeed two_configs_egl 0 1100).
  { split; [intros s; reflexivity|].
    split; [reflexivity|]. split; [reflexivity|].
    exists 7, 42. repeat split; reflexivity. }
  assert (Hone : other_calls_succeed (healthy_egl [100] no_file) 0 1100).
  { split; [intros s; reflexivity|].
    split; [reflexivity|]. split; [reflexivity|].
    exists 7, 42. repeat split; reflexivity. }
  destruct (config_count_must_be_one two_configs_egl geometry_640x480 0 1100 world0 Htwo)
    as (Hcall & Hiff & _ & Habort & _).
  destruct (config_count_must_be_one (healthy_egl [100] no_file) geometry_640x480 0 1100
              world0 Hone) as (_ & _ & _ & _ & Hok).
  split; [exact Hcall|]. split; [apply Hiff; vm_compute; discriminate|].
  split; [apply Habort; reflexivity|apply Hok; reflexivity].
Defined.

(** ** The live-context counter *)

Lemma first_index_skip (p : event -> bool) (evs l : list event) :
  forallb (fun e => negb (p e)) evs = true ->
  first_index p (evs ++ l) = option_map (Nat.add (List.length evs)) (first_index p l).
Proof.
  induction evs as [|e evs IH]; intros H; cbn [app first_index List.length].
  - destruct (first_index p l); reflexivity.
  - cbn [forallb] in H. apply andb_true_iff in H as [He H].
    destruct (p e); [discriminate|]. rewrite IH by assumption.
    destruct (first_index p l); reflexivity.
Qed.

(** A successful construction: the counter update, the selection of the
    display, then the eleven calls of the protocol. *)
Lemma EGLContext_ctor_success env ws dev s obj :
  result (EGLContext_ctor env ws dev s) = Ok obj ->
  exists evs cfg,
    calls_of s (EGLContext_ctor env ws dev s)
    = fetch_add_NUM_EGLCONTEXT_ALIVE 1
        :: evs ++ setup_calls ws (eglDpy_ obj) cfg (eglCtx_ obj) /\
    forallb (fun e => selection_event e || file_event e) evs = true /\
    egl_win_size_ obj = ws.
Proof.
  rewrite EGLContext_ctor_eq. unfold bind.
  destruct (@quiet_select_display env (fun e => selection_event e || file_event e) dev)
    with (s := final (fetch_add 1 s)) as [_ [evs [Ht Hevs]]].
  { intros e He. now rewrite He. }
  { apply quiet_resolve_device. intros e He. rewrite He. apply orb_true_r. }
  destruct (select_display env dev (final (fetch_add 1 s))) as [s1 [dpy|msg|]];
    try discriminate.
  cbn [final fst] in Ht.
  destruct (after_display env ws dpy s1) as [s2 r] eqn:E. cbn [result snd].
  intros ->. apply after_display_success in E.
  destruct E as (cfg & ctx & -> & -> & _).
  exists evs, cfg. split; [|split; [exact Hevs|reflexivity]].
  apply calls_of_app. cbn [final fst called trace eglDpy_ eglCtx_].
  rewrite Ht. cbn [fetch_add final fst trace]. rewrite <- !app_assoc. reflexivity.
Qed.

(** C2 (defect of the code): the destructor leaves the counter alone,
    so a construction followed by the destruction leaves the counter
    one above its value before; after one successful construction and
    one destruction in a fresh process the counter is 1, where the
    number of live contexts is 0. *)
Theorem counter_not_decremented :
  (forall self s,
     NUM_EGLCONTEXT_ALIVE (final (EGLContext_dtor self s)) = NUM_EGLCONTEXT_ALIVE s) /\
  (forall env ws dev s,
     NUM_EGLCONTEXT_ALIVE (final (construct_then_destroy env ws dev s))
     = wrap_int (NUM_EGLCONTEXT_ALIVE s + 1)) /\
  result (construct_then_destroy (healthy_egl [100] no_file) geometry_640x480 0 world0)
  = Ok tt /\
  NUM_EGLCONTEXT_ALIVE
    (final (construct_then_destroy (healthy_egl [100] no_file) geometry_640x480 0 world0))
  = 1.
Proof.
  split; [intros self s; reflexivity|]. split; [|split; reflexivity].
  intros env ws dev s.
  destruct (EGLContext_ctor_calls env (fun _ => true) ws dev s) as [Hc _].
  { apply quiet_select_display; [reflexivity|].
    apply quiet_resolve_device. reflexivity. }
  { reflexivity. }
  unfold construct_then_destroy, bind.
  destruct (EGLContext_ctor env ws dev s) as [s1 [self|msg|]]; exact Hc.
Qed.

(** C6 as stated fails on a host where every call succeeds: the update
    of the counter is the first call of the construction, not one that
    follows [eglMakeCurrent]. *)
Lemma counter_increment_claim_fails :
  ~ counter_increment_claim (healthy_egl [100] no_file) geometry_640x480 0 world0.
Proof.
  intros [H _].
  assert (Hs : succeeded (EGLContext_ctor (healthy_egl [100] no_file) geometry_640x480 0 world0))
    by (eexists; reflexivity).
  specialize (H Hs). vm_compute in H. destruct H as [H _].
  apply Nat.leb_le in H. discriminate H.
Qed.

(** C6 (as amended): the increment of the live-context counter is the
    first action of the construction: it precedes every native call, the
    counter is one more than before whatever the outcome of the
    construction, and no later step touches it; in a successful
    construction it therefore precedes the call that makes the context
    current, which precedes the viewport call. *)
Theorem counter_incremented_first (env : EGLEnv) (ws : Geometry) (dev : Z) (s : world) :
  let r := EGLContext_ctor env ws dev s in
  NUM_EGLCONTEXT_ALIVE (final r) = wrap_int (NUM_EGLCONTEXT_ALIVE s + 1) /\
  (exists rest,
     calls_of s r = fetch_add_NUM_EGLCONTEXT_ALIVE 1 :: rest /\
     forallb (fun e => negb (is_increment e)) rest = true) /\
  (succeeded r ->
   exists m v,
     first_index is_increment (calls_of s r) = Some O /\
     first_index is_make_current (calls_of s r) = Some m /\
     first_index is_viewport (calls_of s r) = Some v /\
     (0 < m < v)%nat).
Proof.
  cbv zeta.
  destruct (EGLContext_ctor_calls env (fun e => negb (is_increment e)) ws dev s)
    as [Hc [rest [Hcalls Hrest]]].
  { apply quiet_select_display.
    - intros e He. destruct e; try discriminate He; reflexivity.
    - apply quiet_resolve_device. intros e He. destruct e; try discriminate He; reflexivity. }
  { intros e He. destruct e; try discriminate He; reflexivity. }
  split; [exact Hc|]. split; [exists rest; auto|].
  intros [obj Hobj]. apply EGLContext_ctor_success in Hobj.
  destruct Hobj as (evs & cfg & Hev & Hsel & _).
  rewrite Hev. cbn [first_index is_increment is_make_current is_viewport].
  rewrite !first_index_skip.
  - cbn. do 2 eexists. repeat split; lia.
  - rewrite forallb_forall in *. intros e He. specialize (Hsel e He).
    destruct e; try discriminate Hsel; reflexivity.
  - rewrite forallb_forall in *. intros e He. specialize (Hsel e He).
    destruct e; try discriminate Hsel; reflexivity.
Qed.

(** ** Diagnostics *)

Lemma count_lines_app (a b : string) :
  count_lines (a ++ b) = (count_lines a + count_lines b)%nat.
Proof.
  induction a as [|c a IH]; cbn [append count_lines]; [reflexivity|].
  rewrite IH. lia.
Qed.

Lemma printInfo_run (gl : GLEnv) (version glsl vendor renderer : string) (s : world) :
  gl_string gl GL_VERSION = Some version ->
  gl_string gl GL_SHADING_LANGUAGE_VERSION = Some glsl ->
  gl_string gl GL_VENDOR = Some vendor ->
  gl_string gl GL_RENDERER = Some renderer ->
  GLContext_printInfo gl s =
  (mkWorld (NUM_EGLCONTEXT_ALIVE s)
     (trace s ++ [glGetString GL_VERSION; glGetString GL_VERSION;
                  glGetString GL_SHADING_LANGUAGE_VERSION;
                  glGetString GL_VENDOR; glGetString GL_RENDERER])
     (cerr s ++ printInfo_text version glsl vendor renderer)
     (egl_error s),
   Ok tt).
Proof.
  intros Hv Hg Hn Hr. unfold printInfo_text.
  cbv beta iota zeta delta [GLContext_printInfo call_glGetString bind emit ret].
  rewrite Hv, Hg, Hn, Hr.
  cbv beta iota zeta delta
    [cerr_write_cstr cerr_write m_assert ret NUM_EGLCONTEXT_ALIVE trace cerr egl_error].
  repeat rewrite <- app_assoc. cbn [app].
  repeat rewrite string_append_assoc. reflexivity.
Qed.

(** C8 as stated fails: with a context current the text has six lines. *)
Lemma printInfo_five_lines_fails :
  ~ printInfo_five_lines (current_gl "3.3.0" "3.30" "NVIDIA Corporation" "GeForce") world0.
Proof. unfold printInfo_five_lines. vm_compute. discriminate. Qed.

(** C8 (as amended): called with a context current, whose four strings
    hold no line break, [printInfo] writes exactly six lines to the
    diagnostic stream: a banner, the API version, the shading-language
    version, the vendor, the renderer, and a closing banner. *)
Theorem printInfo_six_lines (gl : GLEnv) (version glsl vendor renderer : string)
    (s : world) :
  gl_string gl GL_VERSION = Some version ->
  gl_string gl GL_SHADING_LANGUAGE_VERSION = Some glsl ->
  gl_string gl GL_VENDOR = Some vendor ->
  gl_string gl GL_RENDERER = Some renderer ->
  count_lines version = O -> count_lines glsl = O ->
  count_lines vendor = O -> count_lines renderer = O ->
  let r := GLContext_printInfo gl s in
  result r = Ok tt /\
  cerr (final r) = (cerr s ++ printInfo_text version glsl vendor renderer)%string /\
  lines_written s r = 6.
Proof.
  intros Ev Eg En Er Hv Hg Hn Hr. cbv zeta.
  rewrite (printInfo_run gl version glsl vendor renderer s Ev Eg En Er).
  split; [reflexivity|]. split; [reflexivity|].
  unfold lines_written. cbn [final fst cerr]. rewrite count_lines_app.
  unfold printInfo_text. repeat rewrite count_lines_app.
  rewrite Hv, Hg, Hn, Hr. cbn. lia.
Qed.

Lemma printInfo_six_lines_witness :
  let r := GLContext_printInfo
             (current_gl "3.3.0" "3.30" "NVIDIA Corporation" "GeForce") world0 in
  result r = Ok tt /\
  cerr (final r)
  = (cerr world0 ++ printInfo_text "3.3.0" "3.30" "NVIDIA Corporation" "GeForce")%string /\
  lines_written world0 r = 6.
Proof.
  apply (printInfo_six_lines
           (current_gl "3.3.0" "3.30" "NVIDIA Corporation" "GeForce")
           "3.3.0" "3.30" "NVIDIA Corporation" "GeForce" world0);
    reflexivity.
Defined.

(** ** The other constructors, as decision lists *)

Lemma add_events_trace s evs : trace (add_events s evs) = trace s ++ evs.
Proof. reflexivity. Qed.

Lemma GLFWContext_ctor_eq DEBUG env ws core s :
  GLFWContext_ctor DEBUG env ws core s =
  let window := glfw_create_window env (w ws) (h ws) in
  let opening := glfwInit :: glfw_hints DEBUG core
                   ++ [glfwCreateWindow (w ws) (h ws) "GLFW"] in
  if window =? NULL
  then (add_events s opening, Abort "Failed to create GLFW window!")
  else (add_events s (opening ++ [glfwMakeContextCurrent window;
                                  glViewport 0 0 (w ws) (h ws)]),
        Ok (mkGLFWContext ws window)).
Proof.
  unfold GLFWContext_ctor, glfw_hints, GLContext_init, bind, emit, error_exit, ret, add_events.
  cbv zeta.
  destruct core, DEBUG, (glfw_create_window env (w ws) (h ws) =? NULL);
    cbn [NUM_EGLCONTEXT_ALIVE trace cerr egl_error];
    repeat rewrite <- app_assoc; reflexivity.
Qed.

Lemma GLXHeadlessContext_ctor_eq env ws s :
  GLXHeadlessContext_ctor env ws s =
  let dpy := x_open_display env in
  let name := "glXCreateContextAttribsARB"%string in
  let lookup := [XOpenDisplay; glXChooseFBConfig dpy; glXGetProcAddressARB name] in
  if dpy =? NULL then (add_events s [XOpenDisplay], Abort "Cannot connect to DISPLAY!")
  else match glx_fb_configs env dpy with
       | [] => (add_events s lookup, Undefined)
       | fbc0 :: _ =>
           if glx_proc_address env name then
             let context := glx_create_context env dpy fbc0 in
             let pbuffer := glx_create_pbuffer env dpy fbc0 in
             let creation := lookup ++ [glXCreateContextAttribsARB dpy fbc0 NULL;
                                        glXCreatePbuffer dpy fbc0; XFree; XSync dpy;
                                        glXMakeContextCurrent dpy pbuffer pbuffer context] in
             if negb (glx_make_current env dpy pbuffer context)
             then (add_events s creation, Abort "Cannot create GLX context!")
             else (add_events s (creation ++ [glViewport 0 0 (w ws) (h ws)]),
                   Ok (mkGLXHeadlessContext ws dpy context pbuffer))
           else (add_events s lookup, Undefined)
       end.
Proof.
  destruct (x_open_display env =? NULL) eqn:Ed;
    [|destruct (glx_fb_configs env (x_open_display env)) as [|fbc0 fbc] eqn:Ef;
      [|destruct (glx_proc_address env "glXCreateContextAttribsARB") eqn:Ep;
        [destruct (glx_make_current env (x_open_display env)
                     (glx_create_pbuffer env (x_open_display env) fbc0)
                     (glx_create_context env (x_open_display env) fbc0)) eqn:Em|]]];
    cbv beta iota zeta delta
      [GLXHeadlessContext_ctor GLContext_init bind emit error_exit ret
       undefined_behaviour add_events index];
    rewrite ?Ed, ?Ef; cbn [Z.ltb Z.compare Z.to_nat nth_error];
    cbv beta iota zeta delta [ret]; rewrite ?Ep, ?Em;
    cbn [negb NUM_EGLCONTEXT_ALIVE trace cerr egl_error];
    repeat rewrite <- app_assoc; reflexivity.
Qed.

Lemma CGLHeadlessContext_ctor_eq env ws s :
  CGLHeadlessContext_ctor env ws s =
  let err1 := fst (cgl_choose_pixel_format env) in
  let pix := snd (cgl_choose_pixel_format env) in
  let err2 := fst (cgl_create_context env pix) in
  let context := snd (cgl_create_context env pix) in
  let err3 := cgl_set_current_context env context in
  let failure err := Abort ("Error " ++ dec err ++ " when creating CGL Context")%string in
  let creation := [CGLChoosePixelFormat; CGLCreateContext pix NULL] in
  let activation := creation ++ [CGLDestroyPixelFormat pix; CGLSetCurrentContext context] in
  if negb (err1 =? kCGLNoError) then (add_events s [CGLChoosePixelFormat], failure err1)
  else if negb (err2 =? kCGLNoError) then (add_events s creation, failure err2)
  else if negb (err3 =? kCGLNoError) then (add_events s activation, failure err3)
  else (add_events s (activation ++ [glViewport 0 0 (w ws) (h ws)]),
        Ok (mkCGLHeadlessContext ws context)).
Proof.
  unfold CGLHeadlessContext_ctor, cgl_checkError, GLContext_init, bind, emit,
    error_exit, ret, add_events.
  cbv zeta.
  destruct (cgl_choose_pixel_format env) as [err1 pix]. cbn [fst snd].
  destruct (err1 =? kCGLNoError);
    cbn [negb NUM_EGLCONTEXT_ALIVE trace cerr egl_error]; [|reflexivity].
  destruct (cgl_create_context env pix) as [err2 context]. cbn [fst snd].
  destruct (err2 =? kCGLNoError);
    cbn [negb NUM_EGLCONTEXT_ALIVE trace cerr egl_error];
    [|repeat rewrite <- app_assoc; reflexivity].
  destruct (cgl_set_current_context env context =? kCGLNoError);
    cbn [negb NUM_EGLCONTEXT_ALIVE trace cerr egl_error];
    repeat rewrite <- app_assoc; reflexivity.
Qed.

(** ** Order of the teardown calls *)

Lemma subsequence_refl (l : list resource) : subsequence l l = true.
Proof.
  induction l as [|x l IH]; [reflexivity|]. cbn [subsequence].
  destruct x; cbn [resource_eqb]; exact IH.
Qed.

(** The strict form of the reverse-order property implies the other. *)
Lemma teardown_reverses_in_order construction teardown :
  teardown_reverses construction teardown ->
  teardown_in_reverse_order construction teardown.
Proof.
  unfold teardown_reverses, teardown_in_reverse_order. intros ->.
  apply subsequence_refl.
Qed.

Lemma track_untracked (evs : list event) : forall stack,
  forallb untracked evs = true -> fold_left track evs stack = stack.
Proof.
  induction evs as [|e evs IH]; intros stack H; [reflexivity|].
  cbn [forallb] in H. apply andb_true_iff in H as [He H].
  cbn [fold_left]. rewrite <- (IH stack H) at 2. f_equal.
  unfold track, untracked in *.
  destruct (acquires e); [discriminate|]. destruct (releases e); [discriminate|].
  reflexivity.
Qed.

Lemma EGLContext_dtor_calls self s :
  calls_of s (EGLContext_dtor self s)
  = [eglDestroyContext (eglDpy_ self) (eglCtx_ self); eglTerminate (eglDpy_ self)].
Proof. apply calls_of_app. cbn. now rewrite <- app_assoc. Qed.

Lemma GLXHeadlessContext_dtor_calls self s :
  calls_of s (GLXHeadlessContext_dtor self s)
  = [glXMakeContextCurrent (dpy_ self) NULL NULL NULL;
     glXDestroyContext (dpy_ self) (context_ self);
     glXDestroyPbuffer (dpy_ self) (pbuffer_ self);
     XCloseDisplay (dpy_ self)].
Proof. apply calls_of_app. cbn. now rewrite <- !app_assoc. Qed.

Lemma CGLHeadlessContext_dtor_calls self s :
  calls_of s (CGLHeadlessContext_dtor self s)
  = [CGLSetCurrentContext NULL; CGLDestroyContext (cgl_context_ self)].
Proof. apply calls_of_app. cbn. now rewrite <- app_assoc. Qed.

Lemma GLFWContext_dtor_calls self s :
  calls_of s (GLFWContext_dtor self s) = [glfwTerminate].
Proof. apply calls_of_app. reflexivity. Qed.

(** C3 as stated fails for the display-backed backend: the context is
    created before the drawable and also destroyed before it. *)
Lemma glx_teardown_claim_fails :
  ~ glx_teardown_claim healthy_glx geometry_640x480 world0.
Proof.
  intros H. specialize (H _ _ eq_refl). vm_compute in H. discriminate H.
Qed.

Lemma held_EGL env ws dev s self :
  result (EGLContext_ctor env ws dev s) = Ok self ->
  held (calls_of s (EGLContext_ctor env ws dev s))
  = if eglCtx_ self =? EGL_NO_CONTEXT then [Context; Display]
    else [CurrentBinding; Context; Display].
Proof.
  intros H. apply EGLContext_ctor_success in H.
  destruct H as (evs & cfg & -> & Hevs & _).
  unfold held. cbn [fold_left]. rewrite fold_left_app.
  rewrite (track_untracked evs).
  - cbn [setup_calls fold_left]. unfold track. cbn [acquires releases].
    destruct (eglCtx_ self =? EGL_NO_CONTEXT); reflexivity.
  - rewrite forallb_forall in *. intros e He. specialize (Hevs e He).
    destruct e; try discriminate Hevs; reflexivity.
Qed.

Lemma held_GLFW DEBUG env ws core s self :
  result (GLFWContext_ctor DEBUG env ws core s) = Ok self ->
  held (calls_of s (GLFWContext_ctor DEBUG env ws core s))
  = [CurrentBinding; Window; WindowingLibrary].
Proof.
  rewrite GLFWContext_ctor_eq. cbv zeta.
  destruct (glfw_create_window env (w ws) (h ws) =? NULL) eqn:Ew; [discriminate|].
  intros _. erewrite calls_of_app by apply add_events_trace.
  unfold held, glfw_hints.
  destruct core, DEBUG; cbn [app fold_left]; unfold track; cbn [acquires releases];
    rewrite Ew; reflexivity.
Qed.

Lemma held_CGL env ws s self :
  result (CGLHeadlessContext_ctor env ws s) = Ok self ->
  cgl_context_ self <> NULL ->
  held (calls_of s (CGLHeadlessContext_ctor env ws s)) = [CurrentBinding; Context].
Proof.
  rewrite CGLHeadlessContext_ctor_eq. cbv zeta.
  destruct (negb (fst (cgl_choose_pixel_format env) =? kCGLNoError)); [discriminate|].
  destruct (negb (fst (cgl_create_context env _) =? kCGLNoError)); [discriminate|].
  destruct (negb (cgl_set_current_context env _ =? kCGLNoError)); [discriminate|].
  cbn [result snd]. intros H Hctx. injection H as <-. cbn [cgl_context_] in Hctx.
  erewrite calls_of_app by apply add_events_trace.
  unfold held. cbn [app fold_left]. unfold track. cbn [acquires releases].
  apply Z.eqb_neq in Hctx. rewrite Hctx. reflexivity.
Qed.

Lemma held_GLX env ws s self :
  result (GLXHeadlessContext_ctor env ws s) = Ok self ->
  context_ self <> NULL ->
  held (calls_of s (GLXHeadlessContext_ctor env ws s))
  = [CurrentBinding; Drawable; Context; Display].
Proof.
  rewrite GLXHeadlessContext_ctor_eq. cbv zeta.
  destruct (x_open_display env =? NULL); [discriminate|].
  destruct (glx_fb_configs env (x_open_display env)) as [|fbc0 fbc]; [discriminate|].
  destruct (glx_proc_address env _); [|discriminate].
  destruct (negb (glx_make_current env _ _ _)); [discriminate|].
  cbn [result snd]. intros H Hctx. injection H as <-. cbn [context_] in Hctx.
  erewrite calls_of_app by apply add_events_trace.
  unfold held. cbn [app fold_left]. unfold track. cbn [acquires releases].
  apply Z.eqb_neq in Hctx. rewrite Hctx. reflexivity.
Qed.

(** C3 (as amended): constructing then immediately destroying a backend
    invokes exactly these teardown calls: [glfwTerminate] for the
    windowed backend; [eglDestroyContext] then [eglTerminate] for the
    device-direct backend; [CGLSetCurrentContext] of the null context
    then [CGLDestroyContext] for the native backend; and for the
    display-backed backend: clear the current context and drawable,
    destroy the context, destroy the drawable, close the display
    connection.  For the windowed backend, and for the device-direct and
    the native backend when the constructed context handle is not null,
    what they release comes in the reverse order of its acquisition: the
    native backend releases all that the construction holds (the current
    binding, then the context), the windowed backend only the library
    initialisation out of binding, window and library, the device-direct
    backend the context and then the display but not the current
    binding.  The display-backed backend, when its context handle is not
    null, releases everything its construction holds, the binding first
    and the connection last, but the context before the drawable, in the
    order of their creation and not in reverse. *)
Theorem teardown_order_by_backend :
  (forall DEBUG env ws core s self,
     let r := GLFWContext_ctor DEBUG env ws core s in
     let teardown := calls_of (final r) (GLFWContext_dtor self (final r)) in
     result r = Ok self ->
     teardown = [glfwTerminate] /\
     held (calls_of s r) = [CurrentBinding; Window; WindowingLibrary] /\
     released teardown = [WindowingLibrary] /\
     teardown_in_reverse_order (calls_of s r) teardown) /\
  (forall env ws dev s self,
     let r := EGLContext_ctor env ws dev s in
     let teardown := calls_of (final r) (EGLContext_dtor self (final r)) in
     result r = Ok self -> eglCtx_ self <> EGL_NO_CONTEXT ->
     teardown = [eglDestroyContext (eglDpy_ self) (eglCtx_ self);
                 eglTerminate (eglDpy_ self)] /\
     held (calls_of s r) = [CurrentBinding; Context; Display] /\
     released teardown = [Context; Display] /\
     teardown_in_reverse_order (calls_of s r) teardown) /\
  (forall env ws s self,
     let r := CGLHeadlessContext_ctor env ws s in
     let teardown := calls_of (final r) (CGLHeadlessContext_dtor self (final r)) in
     result r = Ok self -> cgl_context_ self <> NULL ->
     teardown = [CGLSetCurrentContext NULL; CGLDestroyContext (cgl_context_ self)] /\
     held (calls_of s r) = [CurrentBinding; Context] /\
     released teardown = [CurrentBinding; Context] /\
     teardown_reverses (calls_of s r) teardown) /\
  (forall env ws s self,
     let r := GLXHeadlessContext_ctor env ws s in
     let teardown := calls_of (final r) (GLXHeadlessContext_dtor self (final r)) in
     result r = Ok self -> context_ self <> NULL ->
     teardown = [glXMakeContextCurrent (dpy_ self) NULL NULL NULL;
                 glXDestroyContext (dpy_ self) (context_ self);
                 glXDestroyPbuffer (dpy_ self) (pbuffer_ self);
                 XCloseDisplay (dpy_ self)] /\
     held (calls_of s r) = [CurrentBinding; Drawable; Context; Display] /\
     released teardown = [CurrentBinding; Context; Drawable; Display] /\
     ~ teardown_in_reverse_order (calls_of s r) teardown).
Proof.
  split; [|split; [|split]].
  - intros DEBUG env ws core s self r teardown Hr.
    unfold teardown_in_reverse_order. subst teardown r.
    rewrite (held_GLFW _ _ _ _ _ _ Hr), GLFWContext_dtor_calls.
    split; [|split; [|split]]; reflexivity.
  - intros env ws dev s self r teardown Hr Hctx.
    unfold teardown_in_reverse_order. subst teardown r.
    rewrite (held_EGL _ _ _ _ _ Hr), EGLContext_dtor_calls.
    apply Z.eqb_neq in Hctx. rewrite Hctx.
    split; [|split; [|split]]; reflexivity.
  - intros env ws s self r teardown Hr Hctx.
    unfold teardown_reverses. subst teardown r.
    rewrite (held_CGL _ _ _ _ Hr Hctx), CGLHeadlessContext_dtor_calls.
    split; [|split; [|split]]; reflexivity.
  - intros env ws s self r teardown Hr Hctx.
    unfold teardown_in_reverse_order. subst teardown r.
    rewrite (held_GLX _ _ _ _ Hr Hctx), GLXHeadlessContext_dtor_calls.
    split; [|split; [|split]]; try reflexivity.
    cbn. discriminate.
Qed.

Lemma teardown_order_by_backend_witness :
  (let r := GLFWContext_ctor true healthy_glfw geometry_640x480 true world0 in
   let teardown :=
     calls_of (final r) (GLFWContext_dtor (mkGLFWContext geometry_640x480 51) (final r)) in
   teardown = [glfwTerminate] /\
   held (calls_of world0 r) = [CurrentBinding; Window; WindowingLibrary] /\
   released teardown = [WindowingLibrary] /\
   teardown_in_reverse_order (calls_of world0 r) teardown) /\
  (let r := EGLContext_ctor (healthy_egl [100] no_file) geometry_640x480 0 world0 in
   let teardown :=
     calls_of (final r) (EGLContext_dtor (mkEGLContext geometry_640x480 1100 42) (final r)) in
   teardown = [eglDestroyContext 1100 42; eglTerminate 1100] /\
   held (calls_of world0 r) = [CurrentBinding; Context; Display] /\
   released teardown = [Context; Display] /\
   teardown_in_reverse_order (calls_of world0 r) teardown) /\
  (let r := CGLHeadlessContext_ctor healthy_cgl geometry_640x480 world0 in
   let teardown :=
     calls_of (final r)
       (CGLHeadlessContext_dtor (mkCGLHeadlessContext geometry_640x480 32) (final r)) in
   teardown = [CGLSetCurrentContext NULL; CGLDestroyContext 32] /\
   held (calls_of world0 r) = [CurrentBinding; Context] /\
   released teardown = [CurrentBinding; Context] /\
   teardown_reverses (calls_of world0 r) teardown) /\
  (let r := GLXHeadlessContext_ctor healthy_glx geometry_640x480 world0 in
   let teardown :=
     calls_of (final r)
       (GLXHeadlessContext_dtor (mkGLXHeadlessContext geometry_640x480 5 21 22) (final r)) in
   teardown = [glXMakeContextCurrent 5 NULL NULL NULL; glXDestroyContext 5 21;
               glXDestroyPbuffer 5 22; XCloseDisplay 5] /\
   held (calls_of world0 r) = [CurrentBinding; Drawable; Context; Display] /\
   released teardown = [CurrentBinding; Context; Drawable; Display] /\
   ~ teardown_in_reverse_order (calls_of world0 r) teardown).
Proof.
  destruct teardown_order_by_backend as (Hglfw & Hegl & Hcgl & Hglx).
  split; [|split; [|split]].
  - apply (Hglfw true healthy_glfw geometry_640x480 true world0). reflexivity.
  - apply (Hegl (healthy_egl [100] no_file) geometry_640x480 0 world0
             (mkEGLContext geometry_640x480 1100 42)); [reflexivity|discriminate].
  - apply (Hcgl healthy_cgl geometry_640x480 world0
             (mkCGLHeadlessContext geometry_640x480 32)); [reflexivity|discriminate].
  - apply (Hglx healthy_glx geometry_640x480 world0
             (mkGLXHeadlessContext geometry_640x480 5 21 22));
      [reflexivity|discriminate].
Defined.

(** ** Checks after native calls *)

(** C5 as stated fails for the display-backed backend: when
    [glXCreateContextAttribsARB] returns a null context the constructor
    goes on to create the pbuffer, free the configurations, synchronise
    and try to make the null context current before it aborts. *)
Lemma glx_context_creation_checked_fails :
  ~ glx_context_creation_checked no_context_glx geometry_640x480 world0.
Proof.
  intros H.
  assert (Hpre : exists dpy cfg,
             In (glXCreateContextAttribsARB dpy cfg NULL)
                (calls_of world0 (GLXHeadlessContext_ctor no_context_glx geometry_640x480 world0)) /\
             glx_create_context no_context_glx dpy cfg = NULL).
  { exists 5, 9. split; [|reflexivity]. vm_compute. tauto. }
  destruct (H Hpre) as [_ Hafter]. vm_compute in Hafter. discriminate Hafter.
Qed.

Lemma validated_GLFW DEBUG env ws core s :
  aborted (GLFWContext_ctor DEBUG env ws core s) ->
  validated_at_once (glfw_call_failed env) s (GLFWContext_ctor DEBUG env ws core s).
Proof.
  intros Hab. split; [exact Hab|]. revert Hab.
  rewrite GLFWContext_ctor_eq. cbv zeta.
  destruct (glfw_create_window env (w ws) (h ws) =? NULL) eqn:Ew;
    [intros _|intros [msg H]; discriminate H].
  erewrite calls_of_app by apply add_events_trace.
  unfold glfw_hints.
  destruct core, DEBUG; cbn [app calls_after glfw_call_failed]; rewrite Ew; reflexivity.
Qed.

Lemma validated_CGL env ws s :
  aborted (CGLHeadlessContext_ctor env ws s) ->
  validated_at_once (cgl_call_failed env) s (CGLHeadlessContext_ctor env ws s).
Proof.
  intros Hab. split; [exact Hab|]. revert Hab.
  rewrite CGLHeadlessContext_ctor_eq. cbv zeta.
  destruct (negb (fst (cgl_choose_pixel_format env) =? kCGLNoError)) eqn:E1;
    [|destruct (negb (fst (cgl_create_context env (snd (cgl_choose_pixel_format env)))
                      =? kCGLNoError)) eqn:E2;
      [|destruct (negb (cgl_set_current_context env
                          (snd (cgl_create_context env (snd (cgl_choose_pixel_format env))))
                        =? kCGLNoError)) eqn:E3]];
    try (intros [msg H]; discriminate H); intros _;
    erewrite calls_of_app by apply add_events_trace;
    cbn [app calls_after cgl_call_failed]; rewrite ?E1, ?E2, ?E3; reflexivity.
Qed.

Lemma validated_GLX env ws s :
  aborted (GLXHeadlessContext_ctor env ws s) ->
  validated_at_once (glx_call_failed env) s (GLXHeadlessContext_ctor env ws s).
Proof.
  intros Hab. split; [exact Hab|]. revert Hab.
  rewrite GLXHeadlessContext_ctor_eq. cbv zeta.
  destruct (x_open_display env =? NULL) eqn:Ed.
  - intros _. erewrite calls_of_app by apply add_events_trace.
    cbn [calls_after glx_call_failed]. rewrite Ed. reflexivity.
  - destruct (glx_fb_configs env (x_open_display env)) as [|fbc0 fbc];
      [intros [msg H]; discriminate H|].
    destruct (glx_proc_address env _); [|intros [msg H]; discriminate H].
    destruct (negb (glx_make_current env _ _ _)) eqn:Em;
      [intros _|intros [msg H]; discriminate H].
    erewrite calls_of_app by apply add_events_trace.
    cbn [app calls_after glx_call_failed]. rewrite Ed, Em. reflexivity.
Qed.

Lemma called_trace s evs err : trace (called s evs err) = trace s ++ evs.
Proof. reflexivity. Qed.

Section EGLChecks.

Variables (env : EGLEnv) (ws : Geometry) (dpy : handle) (s : world).

(** The three facts about lines 186-223 that the statements below need:
    an abort comes right after the call that reported failure, a
    success has seen no such report, and [eglMakeCurrent] is only
    reached with a context whose creation left no error code. *)
Lemma after_display_checks :
  let r := after_display env ws dpy s in
  (aborted r -> validated_at_once (egl_call_failed env) s r) /\
  (succeeded r ->
   forallb (fun e => negb (egl_call_failed env e)) (calls_of s r) = true) /\
  (forall dpy' draw read ctx,
     In (eglMakeCurrent dpy' draw read ctx) (calls_of s r) ->
     dpy' = dpy /\
     exists cfg,
       egl_create_context env dpy cfg = (ctx, EGL_SUCCESS) /\
       In (eglCreateContext dpy cfg EGL_NO_CONTEXT) (calls_of s r)).
Proof.
  destruct (egl_initialize env dpy) as [si ei] eqn:Ei.
  destruct (egl_choose_config env dpy) as [[[sc cfg] n] ec] eqn:Ec.
  destruct (egl_bind_api env) as [sb eb] eqn:Eb.
  destruct (egl_create_context env dpy cfg) as [ctx ecc] eqn:Ecc.
  destruct (egl_make_current env dpy ctx) as [sm em] eqn:Em.
  cbv zeta.
  rewrite (after_display_eq env ws dpy s _ _ _ _ _ _ _ _ _ _ _ _ Ei Ec Eb Ecc Em).
  cbv zeta. unfold validated_at_once, aborted, succeeded.
  destruct si; cbn [negb];
    [destruct (ei =? EGL_SUCCESS) eqn:Hei; cbn [negb];
     [destruct (ec =? EGL_SUCCESS) eqn:Hec; cbn [negb];
      [destruct sc; cbn [negb];
       [destruct (n =? 1) eqn:Hn; cbn [negb];
        [destruct (eb =? EGL_SUCCESS) eqn:Heb; cbn [negb];
         [destruct sb; cbn [negb];
          [destruct (ecc =? EGL_SUCCESS) eqn:Hecc; cbn [negb];
           [destruct sm; cbn [negb];
            [destruct (em =? EGL_SUCCESS) eqn:Hem; cbn [negb]|]|]|]|]|]|]|]|]|];
    erewrite calls_of_app by apply called_trace;
    unfold setup_calls;
    cbn [result snd firstn forallb calls_after egl_call_failed];
    rewrite ?Ei, ?Ec, ?Eb, ?Ecc, ?Em; cbn [snd];
    rewrite ?Hei, ?Hec, ?Hn, ?Heb, ?Hecc, ?Hem;
    cbn [negb orb andb forallb error_query];
    rewrite ?orb_true_r; cbn [negb orb andb forallb error_query];
    (split; [|split]);
    try (intros _; split; [eexists; reflexivity|reflexivity]);
    try (intros [? Hok]; discriminate Hok);
    try (intros [? Hab]; discriminate Hab);
    try reflexivity;
    intros dpy' draw read ctx' Hin; cbn [In] in Hin;
    repeat match type of Hin with
           | _ \/ _ => destruct Hin as [Hin|Hin]
           | False => contradiction
           | _ = _ => discriminate Hin
           end;
    injection Hin as <- _ _ <-;
    (split; [reflexivity|]);
    exists cfg;
    (split; [apply Z.eqb_eq in Hecc; rewrite Ecc, Hecc; reflexivity|cbn [In]; tauto]).
Qed.

End EGLChecks.

(** The calls of the constructor: the counter update, the calls of the
    display selection and, when a display was selected, the calls of
    lines 186-223. *)
Lemma EGLContext_ctor_split env ws dev s :
  exists evs,
    forallb (fun e => selection_event e || file_event e) evs = true /\
    (calls_of s (EGLContext_ctor env ws dev s) = fetch_add_NUM_EGLCONTEXT_ALIVE 1 :: evs \/
     exists dpy s1,
       calls_of s (EGLContext_ctor env ws dev s)
       = fetch_add_NUM_EGLCONTEXT_ALIVE 1 :: evs ++ calls_of s1 (after_display env ws dpy s1)).
Proof.
  rewrite EGLContext_ctor_eq. unfold bind.
  destruct (@quiet_select_display env (fun e => selection_event e || file_event e) dev)
    with (s := final (fetch_add 1 s)) as [_ [evs [Ht Hevs]]].
  { intros e He. now rewrite He. }
  { apply quiet_resolve_device. intros e He. rewrite He. apply orb_true_r. }
  exists evs. split; [exact Hevs|].
  destruct (select_display env dev (final (fetch_add 1 s))) as [s1 [dpy|msg|]];
    cbn [final fst] in Ht.
  - right. exists dpy, s1.
    destruct (quiet_after_display env (fun _ => true) ws dpy (fun _ _ => eq_refl) s1)
      as [_ [evs2 [Ht2 _]]].
    change (trace (final (after_display env ws dpy s1)) = trace s1 ++ evs2) in Ht2.
    rewrite (calls_of_app s1 _ evs2 Ht2).
    apply calls_of_app. rewrite Ht2, Ht. cbn [fetch_add final fst trace].
    now rewrite <- !app_assoc.
  - left. apply calls_of_app. cbn [final fst]. rewrite Ht.
    cbn [fetch_add final fst trace]. now rewrite <- !app_assoc.
  - left. apply calls_of_app. cbn [final fst]. rewrite Ht.
    cbn [fetch_add final fst trace]. now rewrite <- !app_assoc.
Qed.

(** [eglMakeCurrent] is only called with a context whose creation left
    no error code. *)
Lemma make_current_after_creation env ws dev s dpy draw read ctx :
  let calls := calls_of s (EGLContext_ctor env ws dev s) in
  In (eglMakeCurrent dpy draw read ctx) calls ->
  exists cfg,
    In (eglCreateContext dpy cfg EGL_NO_CONTEXT) calls /\
    egl_create_context env dpy cfg = (ctx, EGL_SUCCESS).
Proof.
  intros calls Hin. subst calls.
  destruct (EGLContext_ctor_split env ws dev s) as (evs & Hevs & [Hc|(dpy0 & s1 & Hc)]);
    rewrite Hc in *.
  - exfalso. destruct Hin as [Hin|Hin]; [discriminate Hin|].
    rewrite forallb_forall in Hevs. specialize (Hevs _ Hin). discriminate Hevs.
  - destruct Hin as [Hin|Hin]; [discriminate Hin|].
    apply in_app_or in Hin. destruct Hin as [Hin|Hin].
    + exfalso. rewrite forallb_forall in Hevs. specialize (Hevs _ Hin).
      discriminate Hevs.
    + destruct (after_display_checks env ws dpy0 s1) as (_ & _ & Hmc).
      destruct (Hmc _ _ _ _ Hin) as (-> & cfg & Hcreate & Hin').
      exists cfg. split; [|exact Hcreate].
      right. apply in_or_app. now right.
Qed.

(** * Further properties of the constructors and destructors *)

(** ** Calls of sequenced computations *)

Lemma quiet_monotone {A} (P : event -> bool) (m : M A) : quiet P m -> monotone m.
Proof.
  intros Hq s. destruct (Hq s) as [_ [evs [Ht _]]].
  now rewrite (calls_of_app s _ evs Ht).
Qed.

Lemma quiet_calls {A} (P : event -> bool) (m : M A) s :
  quiet P m -> forallb P (calls_of s (m s)) = true.
Proof.
  intros Hq. destruct (Hq s) as [_ [evs [Ht Hp]]].
  now rewrite (calls_of_app s _ evs Ht).
Qed.

Lemma calls_of_bind {A B} (m : M A) (k : A -> M B) s :
  monotone m -> (forall a, monotone (k a)) ->
  calls_of s (bind m k s)
  = calls_of s (m s)
      ++ match result (m s) with
         | Ok a => calls_of (final (m s)) (k a (final (m s)))
         | _ => []
         end.
Proof.
  intros Hm Hk. specialize (Hm s). unfold bind.
  destruct (m s) as [s1 [a|msg|]]; cbn [result final fst snd] in *.
  - apply calls_of_app. rewrite (Hk a s1), Hm. now rewrite app_assoc.
  - now rewrite app_nil_r.
  - now rewrite app_nil_r.
Qed.

Lemma monotone_bind {A B} (m : M A) (k : A -> M B) :
  monotone m -> (forall a, monotone (k a)) -> monotone (bind m k).
Proof.
  intros Hm Hk s. rewrite calls_of_bind by assumption.
  pose proof (Hm s) as H1. unfold bind.
  destruct (m s) as [s1 [a|msg|]]; cbn [result final fst snd] in *.
  - rewrite (Hk a s1), H1. now rewrite app_assoc.
  - now rewrite app_nil_r.
  - now rewrite app_nil_r.
Qed.

(** ** Device files *)

Lemma dec_injective (a b : Z) : dec a = dec b -> a = b.
Proof.
  unfold dec. intros H. apply DecimalZ.to_int_inj.
  assert (Hnn : forall z, Z.to_int z <> Decimal.Pos Decimal.Nil /\
                          Z.to_int z <> Decimal.Neg Decimal.Nil).
  { intros [|p|p]; cbn; split; try discriminate;
      intros E; injection E as E; now apply Unsigned.to_uint_nonnil in E. }
  apply (f_equal NilZero.int_of_string) in H.
  rewrite !NilZero.isi in H by apply Hnn. now injection H.
Qed.

Lemma device_path_injective (a b : Z) : device_path a = device_path b -> a = b.
Proof.
  unfold device_path. cbn [append]. intros H. apply dec_injective.
  now injection H.
Qed.

Lemma NoDup_upto (n : nat) : forall i, NoDup (upto i n).
Proof.
  induction n as [|n IH]; intros i; cbn [upto]; constructor; auto.
  rewrite in_upto. lia.
Qed.

Lemma NoDup_device_paths (l : list Z) : NoDup l -> NoDup (map device_path l).
Proof.
  induction 1 as [|x l Hx Hl IH]; cbn [map]; constructor; auto.
  rewrite in_map_iff. intros [y [Hy Hin]].
  apply device_path_injective in Hy. now subst y.
Qed.

Lemma opened_paths_app (a b : list event) :
  opened_paths (a ++ b) = opened_paths a ++ opened_paths b.
Proof.
  induction a as [|e a IH]; [reflexivity|].
  destruct e; cbn [app opened_paths]; rewrite ?IH; reflexivity.
Qed.

Lemma opened_paths_file_calls (calls : list event) :
  opened_paths (file_calls calls) = opened_paths calls.
Proof.
  induction calls as [|e calls IH]; [reflexivity|].
  destruct e; cbn [file_calls filter file_event opened_paths]; fold (file_calls calls);
    rewrite ?IH; reflexivity.
Qed.

Lemma descriptors_open_file_calls env (calls : list event) : forall open,
  descriptors_open env (file_calls calls) open = descriptors_open env calls open.
Proof.
  induction calls as [|e calls IH]; intros open; [reflexivity|].
  destruct e; cbn [file_calls filter file_event descriptors_open]; fold (file_calls calls);
    rewrite ?IH; reflexivity.
Qed.

Lemma opened_paths_probe env n : forall i,
  opened_paths (probe_events env n i) = map device_path (upto i n).
Proof.
  induction n as [|n IH]; intros i; [reflexivity|].
  cbn [probe_events upto map]. cbv zeta. cbn [app opened_paths].
  destruct (open_rdonly env (device_path i) =? -1); cbn [app opened_paths];
    now rewrite IH.
Qed.

Lemma descriptors_open_probe env n : forall i open,
  descriptors_open env (probe_events env n i) open = open.
Proof.
  induction n as [|n IH]; intros i open; [reflexivity|].
  cbn [probe_events]. cbv zeta. cbn [app descriptors_open].
  destruct (open_rdonly env (device_path i) =? -1) eqn:E.
  - cbn [app]. apply IH.
  - cbn [app descriptors_open remove_descriptor]. rewrite Z.eqb_refl. apply IH.
Qed.

Lemma file_calls_probe env n i : file_calls (probe_events env n i) = probe_events env n i.
Proof.
  unfold file_calls. apply forallb_filter_id, probe_events_file.
Qed.

Lemma file_calls_none (P : event -> bool) (calls : list event) :
  (forall e, P e = true -> file_event e = false) ->
  forallb P calls = true -> file_calls calls = [].
Proof.
  intros HP H. induction calls as [|e calls IH]; [reflexivity|].
  cbn [forallb] in H. apply andb_true_iff in H as [He H].
  cbn [file_calls filter]. rewrite (HP e He). now apply IH.
Qed.

Lemma calls_of_same s s' {A} (o : outcome A) :
  trace s' = trace s -> calls_of s (s', o) = [].
Proof. intros H. apply calls_of_app. cbn [final fst]. now rewrite H, app_nil_r. Qed.

(** The calls of the resolver are the calls of the probing loop. *)
Lemma resolve_device_calls env N dev s :
  calls_of s (resolve_device env N dev s)
  = if 1 <? N then probe_events env (Z.to_nat N) 0 else [].
Proof.
  destruct (1 <? N) eqn:E.
  - apply Z.ltb_lt in E. rewrite resolve_device_many by assumption. cbv zeta.
    destruct (dev >=? _); [now apply calls_of_app|].
    destruct (_ =? N); [now apply calls_of_app|].
    destruct (dev <? 0); [now apply calls_of_app|].
    destruct (nth_error _ _); now apply calls_of_app.
  - apply Z.ltb_ge in E. destruct (Z.eq_dec N 1) as [->|Hne].
    + rewrite resolve_device_one. destruct (dev >=? 1); now apply calls_of_same.
    + rewrite resolve_device_none by lia. now apply calls_of_same.
Qed.

Lemma calls_of_prefix {A} s s2 (r : world * outcome A) pre :
  trace s2 = trace s ++ pre ->
  trace (final r) = trace s2 ++ calls_of s2 r ->
  calls_of s r = pre ++ calls_of s2 r.
Proof. intros H1 H2. apply calls_of_app. now rewrite H2, H1, app_assoc. Qed.

Lemma file_calls_app (a b : list event) : file_calls (a ++ b) = file_calls a ++ file_calls b.
Proof. apply filter_app. Qed.

Lemma monotone_select_tail env (devs : list handle) (p : Z) :
  quiet selection_event
    (d <- index devs p ;; emit (eglGetPlatformDisplayEXT d) ;;
     ret (egl_platform_display env d)).
Proof.
  apply quiet_bind; [apply quiet_index|intros d].
  apply quiet_bind; [now apply quiet_emit|intros; apply quiet_ret].
Qed.

Lemma select_display_file_calls env dev s :
  file_calls (calls_of s (select_display env dev s))
  = if egl_proc_address env "eglQueryDevicesEXT"
       && egl_proc_address env "eglGetPlatformDisplayEXT"
       && (1 <? numDevices env)
    then probe_events env (Z.to_nat (numDevices env)) 0
    else [].
Proof.
  rewrite select_display_eq. cbv zeta.
  destruct (egl_proc_address env "eglQueryDevicesEXT");
    [destruct (egl_proc_address env "eglGetPlatformDisplayEXT")|];
    cbn [negb orb andb];
    try (erewrite calls_of_app by apply add_events_trace; reflexivity).
  match goal with |- context [bind ?m ?k ?s2] =>
    assert (Hm : monotone m)
      by (apply (quiet_monotone (fun _ => true)), quiet_resolve_device; reflexivity);
    assert (Hk : forall a, monotone (k a))
      by (intros a; apply (quiet_monotone selection_event), monotone_select_tail);
    rewrite (calls_of_prefix s s2 (bind m k s2)
               [eglGetProcAddress "eglQueryDevicesEXT";
                eglGetProcAddress "eglGetPlatformDisplayEXT";
                eglQueryDevicesEXT MAX_DEVICES]);
    [|cbn [add_events trace]; now rewrite <- app_assoc
     |apply (monotone_bind m k Hm Hk)];
    rewrite (calls_of_bind m k s2 Hm Hk)
  end.
  rewrite !file_calls_app, resolve_device_calls. cbn [file_calls filter file_event app].
  match goal with |- _ ++ file_calls ?tail = _ =>
    assert (Ht : file_calls tail = []) end.
  { destruct (result _); try reflexivity.
    apply (file_calls_none selection_event).
    - intros e He. destruct e; try discriminate He; reflexivity.
    - apply quiet_calls, monotone_select_tail. }
  rewrite Ht, app_nil_r.
  destruct (1 <? numDevices env); [apply file_calls_probe|reflexivity].
Qed.

Lemma monotone_after_display env ws dpy : monotone (after_display env ws dpy).
Proof.
  apply (quiet_monotone (fun _ => true)).
  apply (quiet_after_display env (fun _ => true) ws dpy). reflexivity.
Qed.

Lemma monotone_select_display env dev : monotone (select_display env dev).
Proof.
  apply (quiet_monotone (fun _ => true)).
  apply quiet_select_display; [reflexivity|].
  apply quiet_resolve_device. reflexivity.
Qed.

(** The calls of the constructor: the counter update, the calls of the
    display selection, and the calls of lines 186-223 when a display was
    selected. *)
Lemma EGLContext_ctor_calls_eq env ws dev s :
  let s0 := final (fetch_add 1 s) in
  calls_of s (EGLContext_ctor env ws dev s)
  = fetch_add_NUM_EGLCONTEXT_ALIVE 1
      :: calls_of s0 (select_display env dev s0)
      ++ match result (select_display env dev s0) with
         | Ok dpy => calls_of (final (select_display env dev s0))
                       (after_display env ws dpy (final (select_display env dev s0)))
         | _ => []
         end.
Proof.
  cbv zeta. rewrite EGLContext_ctor_eq.
  rewrite <- (calls_of_bind _ _ _ (monotone_select_display env dev)
                (monotone_after_display env ws)).
  apply (calls_of_prefix s (final (fetch_add 1 s)) _ [fetch_add_NUM_EGLCONTEXT_ALIVE 1]).
  - reflexivity.
  - apply (monotone_bind _ _ (monotone_select_display env dev)
             (monotone_after_display env ws)).
Qed.

(** X1: the device-direct constructor opens files only to probe the
    devices: when the two extension entry points exist and more than one
    device is enumerated it opens /dev/nvidia0 ... /dev/nvidia(N-1),
    each once and in ascending order, and otherwise no file at all; the
    probed paths are pairwise distinct, and every descriptor obtained is
    closed again, whatever the outcome of the construction. *)
Theorem probing_opens_each_device_file_once (env : EGLEnv) (ws : Geometry) (dev : Z)
    (s : world) :
  let calls := calls_of s (EGLContext_ctor env ws dev s) in
  opened_paths calls
  = (if egl_proc_address env "eglQueryDevicesEXT"
        && egl_proc_address env "eglGetPlatformDisplayEXT"
        && (1 <? numDevices env)
     then map device_path (upto 0 (Z.to_nat (numDevices env)))
     else []) /\
  NoDup (opened_paths calls) /\
  descriptors_open env calls [] = [].
Proof.
  cbv zeta.
  assert (Hf : file_calls (calls_of s (EGLContext_ctor env ws dev s))
               = if egl_proc_address env "eglQueryDevicesEXT"
                    && egl_proc_address env "eglGetPlatformDisplayEXT"
                    && (1 <? numDevices env)
                 then probe_events env (Z.to_nat (numDevices env)) 0 else []).
  { rewrite EGLContext_ctor_calls_eq. cbv zeta.
    change (?x :: ?a ++ ?b) with ([x] ++ a ++ b).
    rewrite !file_calls_app, select_display_file_calls.
    cbn [file_calls filter file_event app].
    match goal with |- _ ++ file_calls ?tail = _ =>
      assert (Ht : file_calls tail = []) end.
    { destruct (result _); try reflexivity.
      apply (file_calls_none setup_event).
      - intros e He. destruct e; try discriminate He; reflexivity.
      - apply quiet_calls. apply (quiet_after_display env setup_event). auto. }
    now rewrite Ht, app_nil_r. }
  assert (Hp : opened_paths (calls_of s (EGLContext_ctor env ws dev s))
               = if egl_proc_address env "eglQueryDevicesEXT"
                    && egl_proc_address env "eglGetPlatformDisplayEXT"
                    && (1 <? numDevices env)
                 then map device_path (upto 0 (Z.to_nat (numDevices env))) else []).
  { rewrite <- opened_paths_file_calls, Hf.
    destruct (_ && _ && _); [apply opened_paths_probe|reflexivity]. }
  split; [exact Hp|]. split.
  - rewrite Hp. destruct (_ && _ && _); [|constructor].
    apply NoDup_device_paths, NoDup_upto.
  - rewrite <- descriptors_open_file_calls, Hf.
    destruct (_ && _ && _); [apply descriptors_open_probe|reflexivity].
Qed.

(** ** Outcomes of lines 186-223 *)

(** Whatever the EGL implementation answers, lines 186-223 issue a
    prefix of the eleven calls and end with the context or with one of
    the messages; they have no undefined outcome. *)
Lemma after_display_shape env ws dpy s :
  exists cfg ctx k err o,
    after_display env ws dpy s
    = (called s (firstn k (setup_calls ws dpy cfg ctx)) err, o) /\
    match o with
    | Ok self => k = 11%nat /\ self = mkEGLContext ws dpy ctx
    | Abort msg => (k <= 10)%nat /\ egl_fatal_message msg
    | Undefined => False
    end.
Proof.
  destruct (egl_initialize env dpy) as [si ei] eqn:Ei.
  destruct (egl_choose_config env dpy) as [[[sc cfg] n] ec] eqn:Ec.
  destruct (egl_bind_api env) as [sb eb] eqn:Eb.
  destruct (egl_create_context env dpy cfg) as [ctx ecc] eqn:Ecc.
  destruct (egl_make_current env dpy ctx) as [sm em] eqn:Em.
  rewrite (after_display_eq env ws dpy s _ _ _ _ _ _ _ _ _ _ _ _ Ei Ec Eb Ecc Em).
  cbv zeta. exists cfg, ctx. unfold egl_fatal_message.
  destruct si; cbn [negb];
    [destruct (ei =? EGL_SUCCESS) eqn:Hei; cbn [negb];
     [destruct (ec =? EGL_SUCCESS) eqn:Hec; cbn [negb];
      [destruct sc; cbn [negb];
       [destruct (n =? 1) eqn:Hn; cbn [negb];
        [destruct (eb =? EGL_SUCCESS) eqn:Heb; cbn [negb];
         [destruct sb; cbn [negb];
          [destruct (ecc =? EGL_SUCCESS) eqn:Hecc; cbn [negb];
           [destruct sm; cbn [negb];
            [destruct (em =? EGL_SUCCESS) eqn:Hem; cbn [negb]|]|]|]|]|]|]|]|]|];
    try apply Z.eqb_neq in Hei; try apply Z.eqb_neq in Hec;
    try apply Z.eqb_neq in Heb; try apply Z.eqb_neq in Hecc;
    try apply Z.eqb_neq in Hem.
  1: exists 11%nat; do 2 eexists; split; [reflexivity|]; split; reflexivity.
  all: do 3 eexists; (split; [reflexivity|]); (split; [lia|]); eauto 12.
Qed.

Lemma resolve_device_result_independent env N dev s s' :
  result (resolve_device env N dev s) = result (resolve_device env N dev s').
Proof.
  destruct (Z_lt_le_dec 1 N) as [H|H].
  - rewrite !resolve_device_many by assumption. cbv zeta.
    destruct (dev >=? _); [reflexivity|].
    destruct (_ =? N); [reflexivity|].
    destruct (dev <? 0); [reflexivity|].
    destruct (nth_error _ _); reflexivity.
  - destruct (Z.eq_dec N 1) as [->|Hne].
    + rewrite !resolve_device_one. destruct (dev >=? 1); reflexivity.
    + rewrite !resolve_device_none by lia. reflexivity.
Qed.

(** What the resolver answers is an index of the enumeration, and a
    device that was found accessible when devices were probed. *)
Lemma resolve_device_in_range env N dev s p :
  0 <= dev -> result (resolve_device env N dev s) = Ok p ->
  0 <= p < N /\ (1 < N -> readable env p = true).
Proof.
  intros Hdev. destruct (Z_lt_le_dec 1 N) as [H|H].
  - rewrite resolve_device_many by assumption. cbv zeta.
    set (V := accessible env (Z.to_nat N)).
    destruct (dev >=? Z.of_nat (List.length V)) eqn:Ege; [discriminate|].
    rewrite Z.geb_leb in Ege. apply Z.leb_gt in Ege.
    assert (Hin : forall q, nth_error V (Z.to_nat dev) = Some q ->
                            0 <= q < N /\ (1 < N -> readable env q = true)).
    { intros q Hq. apply nth_error_In in Hq. apply in_accessible in Hq.
      destruct Hq as [Hr Hq]. split; [lia|auto]. }
    destruct (Z.of_nat (List.length V) =? N) eqn:EN.
    + cbn [result snd]. intros E. injection E as <-. apply Hin.
      apply Z.eqb_eq in EN. unfold V in *. rewrite accessible_full by lia.
      f_equal. lia.
    + destruct (dev <? 0); [discriminate|].
      destruct (nth_error V (Z.to_nat dev)) as [q|] eqn:Eq; [|discriminate].
      cbn [result snd]. intros E. injection E as <-. now apply Hin.
  - destruct (Z.eq_dec N 1) as [->|Hne].
    + rewrite resolve_device_one.
      destruct (dev >=? 1) eqn:Ege; [discriminate|].
      rewrite Z.geb_leb in Ege. apply Z.leb_gt in Ege.
      cbn [result snd]. intros E. injection E as <-. split; lia.
    + rewrite resolve_device_none by lia. discriminate.
Qed.

Lemma resolve_device_defined env N dev s :
  0 <= dev -> result (resolve_device env N dev s) <> Undefined.
Proof.
  intros Hdev. destruct (Z_lt_le_dec 1 N) as [H|H].
  - rewrite resolve_device_many by assumption. cbv zeta.
    destruct (dev >=? _) eqn:Ege; [discriminate|].
    rewrite Z.geb_leb in Ege. apply Z.leb_gt in Ege.
    destruct (_ =? N); [discriminate|].
    destruct (dev <? 0) eqn:E0; [apply Z.ltb_lt in E0; lia|].
    destruct (nth_error _ _) eqn:En; [discriminate|].
    apply nth_error_None in En. lia.
  - destruct (Z.eq_dec N 1) as [->|Hne].
    + rewrite resolve_device_one. destruct (dev >=? 1); discriminate.
    + rewrite resolve_device_none by lia. discriminate.
Qed.

(** X2: for a requested index that is not negative, every array read of
    the constructor is inside its bounds: the construction ends with a
    context or through [error_exit], never with an undefined outcome,
    and the physical index chosen by the resolver is an index of the
    enumeration, of a device found accessible when devices were probed. *)
Theorem nonnegative_index_reads_in_bounds (env : EGLEnv) (ws : Geometry) (dev : Z)
    (s : world) :
  0 <= dev ->
  result (EGLContext_ctor env ws dev s) <> Undefined /\
  (forall p, result (resolve_device env (numDevices env) dev s) = Ok p ->
             0 <= p < numDevices env /\
             (1 < numDevices env -> readable env p = true) /\
             succeeded (index (enumerated env) p s)).
Proof.
  intros Hdev.
  assert (Hres : forall s' p,
             result (resolve_device env (numDevices env) dev s') = Ok p ->
             0 <= p < numDevices env /\
             (1 < numDevices env -> readable env p = true) /\
             forall s'', succeeded (index (enumerated env) p s'')).
  { intros s' p Hp. destruct (resolve_device_in_range _ _ _ _ _ Hdev Hp) as [Hr Ha].
    split; [exact Hr|]. split; [exact Ha|]. intros s''.
    apply index_defined. exact Hr. }
  split.
  - rewrite EGLContext_ctor_eq. unfold bind.
    set (s0 := final (fetch_add 1 s)).
    assert (Hsel : result (select_display env dev s0) <> Undefined).
    { rewrite select_display_eq. cbv zeta.
      destruct (negb _ || negb _); [discriminate|].
      unfold bind at 1.
      match goal with |- context [resolve_device env ?N dev ?s1] =>
        pose proof (Hres s1) as Hp;
        pose proof (resolve_device_defined env N dev s1 Hdev) as Hdef;
        destruct (resolve_device env N dev s1) as [s2 [p| |]] end;
        try discriminate.
      - destruct (Hp p eq_refl) as (_ & _ & Hidx). specialize (Hidx s2).
        destruct Hidx as [d Hd]. unfold bind at 1.
        destruct (index (enumerated env) p s2) as [s3 [d'| |]]; try discriminate Hd.
        discriminate.
      - exfalso. now apply Hdef. }
    destruct (select_display env dev s0) as [s1 [dpy|msg|]]; try discriminate.
    + destruct (after_display_shape env ws dpy s1) as (cfg & ctx & k & err & o & -> & Ho).
      destruct o; [discriminate|discriminate|contradiction].
    + exfalso. now apply Hsel.
  - intros p Hp. destruct (Hres s p Hp) as (Hr & Ha & Hidx). auto.
Qed.

Lemma nonnegative_index_reads_in_bounds_witness :
  let env := healthy_egl [100; 101; 102] files_0_2 in
  result (EGLContext_ctor env geometry_640x480 1 world0) <> Undefined /\
  (forall p, result (resolve_device env (numDevices env) 1 world0) = Ok p ->
             0 <= p < numDevices env /\
             (1 < numDevices env -> readable env p = true) /\
             succeeded (index (enumerated env) p world0)).
Proof.
  intros env.
  apply (nonnegative_index_reads_in_bounds env geometry_640x480 1 world0). lia.
Defined.

(** ** When the device-direct construction succeeds *)

Lemma extensions_dec env : {extensions_available env} + {~ extensions_available env}.
Proof.
  unfold extensions_available.
  destruct (egl_proc_address env "eglQueryDevicesEXT");
    destruct (egl_proc_address env "eglGetPlatformDisplayEXT");
    (left; split; reflexivity) || (right; intros [H1 H2]; discriminate).
Defined.

Lemma EGLContext_ctor_success_conditions (env : EGLEnv) (ws : Geometry) (dev : Z) (s : world)
    (self : EGLContext) :
  result (EGLContext_ctor env ws dev s) = Ok self ->
  egl_win_size_ self = ws /\
  extensions_available env /\
  exists p d cfg,
    result (resolve_device env (numDevices env) dev s) = Ok p /\
    0 <= p /\ nth_error (enumerated env) (Z.to_nat p) = Some d /\
    eglDpy_ self = egl_platform_display env d /\
    egl_initialize env (eglDpy_ self) = (true, EGL_SUCCESS) /\
    egl_choose_config env (eglDpy_ self) = (true, cfg, 1, EGL_SUCCESS) /\
    egl_bind_api env = (true, EGL_SUCCESS) /\
    egl_create_context env (eglDpy_ self) cfg = (eglCtx_ self, EGL_SUCCESS) /\
    egl_make_current env (eglDpy_ self) (eglCtx_ self) = (true, EGL_SUCCESS).
Proof.
  intros Hok.
  destruct (extensions_dec env) as [Hext|Hext].
  2:{ rewrite (EGLContext_ctor_select_abort env ws dev msg_no_extension) in Hok;
        [discriminate|].
      intros s'. now apply select_display_no_extension. }
  destruct (result (resolve_device env (numDevices env) dev s)) as [p|msg|] eqn:Er.
  2:{ rewrite (EGLContext_ctor_select_abort env ws dev msg) in Hok; [discriminate|].
      apply select_display_abort; [assumption|]. intros s'.
      now rewrite (resolve_device_result_independent env _ dev s' s). }
  2:{ rewrite (EGLContext_ctor_select_undefined env ws dev) in Hok; [discriminate|].
      apply select_display_undefined; [assumption|]. intros s'.
      now rewrite (resolve_device_result_independent env _ dev s' s). }
  assert (Hsel := select_display_physical env dev p Hext).
  assert (Hall : forall s', result (resolve_device env (numDevices env) dev s') = Ok p).
  { intros s'. now rewrite (resolve_device_result_independent env _ dev s' s). }
  specialize (Hsel Hall).
  destruct (p <? 0) eqn:Ep.
  { rewrite (EGLContext_ctor_select_undefined env ws dev) in Hok;
      [discriminate|exact Hsel]. }
  destruct (nth_error (enumerated env) (Z.to_nat p)) as [d|] eqn:Ed.
  2:{ rewrite (EGLContext_ctor_select_undefined env ws dev) in Hok;
        [discriminate|exact Hsel]. }
  destruct (EGLContext_ctor_after_display env ws dev _ s Hsel) as [s1 Hctor].
  rewrite Hctor in Hok.
  destruct (after_display env ws (egl_platform_display env d) s1) as [s2 o] eqn:Ea.
  cbn [result snd] in Hok. subst o. apply after_display_success in Ea.
  destruct Ea as (cfg & ctx & -> & _ & Ei & Ec & Eb & Ecc & Em).
  cbn [egl_win_size_ eglDpy_ eglCtx_].
  split; [reflexivity|]. split; [assumption|].
  exists p, d, cfg. apply Z.ltb_ge in Ep. repeat split; assumption.
Qed.

(** X3: the device-direct construction succeeds exactly when the two
    extension entry points exist, the resolver answers a physical index
    that is an index of the enumeration, and [eglInitialize],
    [eglChooseConfig] (with a count of one), [eglBindAPI],
    [eglCreateContext] and [eglMakeCurrent] all report success and leave
    no error code; the object then holds the requested geometry, the
    platform display of the device at the physical index, and the
    context that was created. *)
Theorem device_direct_success_iff (env : EGLEnv) (ws : Geometry) (dev : Z) (s : world)
    (self : EGLContext) :
  result (EGLContext_ctor env ws dev s) = Ok self <->
  egl_win_size_ self = ws /\
  extensions_available env /\
  exists p d cfg,
    result (resolve_device env (numDevices env) dev s) = Ok p /\
    0 <= p /\ nth_error (enumerated env) (Z.to_nat p) = Some d /\
    eglDpy_ self = egl_platform_display env d /\
    egl_initialize env (eglDpy_ self) = (true, EGL_SUCCESS) /\
    egl_choose_config env (eglDpy_ self) = (true, cfg, 1, EGL_SUCCESS) /\
    egl_bind_api env = (true, EGL_SUCCESS) /\
    egl_create_context env (eglDpy_ self) cfg = (eglCtx_ self, EGL_SUCCESS) /\
    egl_make_current env (eglDpy_ self) (eglCtx_ self) = (true, EGL_SUCCESS).
Proof.
  split.
  - apply EGLContext_ctor_success_conditions.
  - intros (Hws & Hext & p & d & cfg & Hp & Hp0 & Hd & Hdpy & Ei & Ec & Eb & Ecc & Em).
    assert (Hsel : forall s', result (select_display env dev s') = Ok (eglDpy_ self)).
    { intros s'. rewrite (select_display_physical env dev p Hext).
      - destruct (p <? 0) eqn:Ep; [apply Z.ltb_lt in Ep; lia|].
        now rewrite Hd, Hdpy.
      - intros s''. now rewrite (resolve_device_result_independent env _ dev s'' s). }
    destruct (EGLContext_ctor_after_display env ws dev _ s Hsel) as [s1 ->].
    rewrite (after_display_eq env ws _ s1 _ _ _ _ _ _ _ _ _ _ _ _ Ei Ec Eb Ecc Em).
    cbv zeta. cbn [negb Z.eqb EGL_SUCCESS Pos.eqb result snd].
    destruct self as [ws' dpy' ctx']. cbn in Hws. now subst ws'.
Qed.

(** ** The messages of the device-direct constructor *)

(** X4: whenever the device-direct constructor ends through
    [error_exit], the message is one of eight: extension lookup failed,
    no device, index out of range, display initialisation failed, an EGL
    error code (which then differs from EGL_SUCCESS), "EGL failed!",
    the configuration message, or make-current failed. *)
Theorem device_direct_messages (env : EGLEnv) (ws : Geometry) (dev : Z) (s : world)
    (msg : string) :
  result (EGLContext_ctor env ws dev s) = Abort msg -> egl_fatal_message msg.
Proof.
  revert s msg. change (fatal_only egl_fatal_message (EGLContext_ctor env ws dev)).
  unfold EGLContext_ctor, select_display, call_eglQueryDevicesEXT, resolve_device,
    initialize_display, choose_config, bind_api, create_context, make_current,
    checkError, GLContext_init.
  fatal_steps; unfold egl_fatal_message; eauto 12.
  all: repeat match goal with
         | H : negb (_ =? EGL_SUCCESS) = true |- _ =>
             apply negb_true_iff, Z.eqb_neq in H
         end;
       do 4 right; left; eauto.
Qed.

Lemma device_direct_messages_witness :
  egl_fatal_message msg_config.
Proof.
  apply (device_direct_messages two_configs_egl geometry_640x480 0 world0 msg_config).
  reflexivity.
Defined.

(** ** Success flags, error codes and the context handle *)

(** X5: in lines 186-223, a false answer of [eglInitialize] ends the
    construction with its own message before the error code is queried;
    the message "EGL failed!" can only follow [eglChooseConfig] or
    [eglBindAPI] returning false without an error code, and is never
    raised once [eglCreateContext] has been called; and the handle
    returned by [eglCreateContext] is not inspected: when the calls
    before it succeed and it leaves no error code, whatever handle it
    returned (the null context included) is passed to [eglMakeCurrent]. *)
Theorem context_handle_not_inspected (env : EGLEnv) (ws : Geometry) (dpy : handle)
    (s : world) si ei sc cfg n ec sb eb ctx ecc sm em :
  egl_initialize env dpy = (si, ei) ->
  egl_choose_config env dpy = (sc, cfg, n, ec) ->
  egl_bind_api env = (sb, eb) ->
  egl_create_context env dpy cfg = (ctx, ecc) ->
  egl_make_current env dpy ctx = (sm, em) ->
  let r := after_display env ws dpy s in
  (si = false ->
   result r = Abort msg_initialize /\ calls_of s r = [eglInitialize dpy] /\
   egl_error (final r) = ei) /\
  (result r = Abort msg_egl_failed ->
   si = true /\ ei = EGL_SUCCESS /\ ec = EGL_SUCCESS /\
   (sc = false \/ (n = 1 /\ eb = EGL_SUCCESS /\ sb = false)) /\
   forall d c share, ~ In (eglCreateContext d c share) (calls_of s r)) /\
  (si = true -> ei = EGL_SUCCESS -> sc = true -> ec = EGL_SUCCESS -> n = 1 ->
   sb = true -> eb = EGL_SUCCESS -> ecc = EGL_SUCCESS ->
   In (eglMakeCurrent dpy EGL_NO_SURFACE EGL_NO_SURFACE ctx) (calls_of s r)).
Proof.
  intros Ei Ec Eb Ecc Em. cbv zeta.
  rewrite (after_display_eq env ws dpy s _ _ _ _ _ _ _ _ _ _ _ _ Ei Ec Eb Ecc Em).
  cbv zeta.
  destruct si; cbn [negb];
    [destruct (ei =? EGL_SUCCESS) eqn:Hei; cbn [negb];
     [destruct (ec =? EGL_SUCCESS) eqn:Hec; cbn [negb];
      [destruct sc; cbn [negb];
       [destruct (n =? 1) eqn:Hn; cbn [negb];
        [destruct (eb =? EGL_SUCCESS) eqn:Heb; cbn [negb];
         [destruct sb; cbn [negb];
          [destruct (ecc =? EGL_SUCCESS) eqn:Hecc; cbn [negb];
           [destruct sm; cbn [negb];
            [destruct (em =? EGL_SUCCESS) eqn:Hem; cbn [negb]|]|]|]|]|]|]|]|]|];
    erewrite calls_of_app by apply called_trace;
    unfold setup_calls; cbn [result final fst snd firstn called egl_error];
    rewrite ?Z.eqb_eq in *; rewrite ?Z.eqb_neq in *;
    (split; [|split]);
    try (intros Hsi; discriminate Hsi);
    try (intros Hab; exfalso; injection Hab as Hab; revert Hab; distinct_message);
    try (intros Hab; discriminate Hab);
    try (intros; congruence);
    try (intros _; repeat split; reflexivity);
    try (intros _; repeat split; auto;
         intros d c share Hin; cbn [In] in Hin;
         repeat match type of Hin with
                | _ \/ _ => destruct Hin as [Hin|Hin]
                | False => contradiction
                | _ = _ => discriminate Hin
                end);
    try (intros; cbn [In]; tauto).
Qed.

(** A context creation that returns the null context without an error
    code: the null context is made current. *)
Lemma context_handle_not_inspected_witness :
  let env := {| egl_proc_address := fun _ => true;
                egl_devices := [100];
                open_rdonly := no_file;
                egl_platform_display := fun dev => dev + 1000;
                egl_initialize := fun _ => (true, EGL_SUCCESS);
                egl_choose_config := fun _ => (true, 7, 1, EGL_SUCCESS);
                egl_bind_api := (true, EGL_SUCCESS);
                egl_create_context := fun _ _ => (EGL_NO_CONTEXT, EGL_SUCCESS);
                egl_make_current := fun _ _ => (true, EGL_SUCCESS) |} in
  In (eglMakeCurrent 1100 EGL_NO_SURFACE EGL_NO_SURFACE EGL_NO_CONTEXT)
     (calls_of world0 (after_display env geometry_640x480 1100 world0)).
Proof.
  intros env.
  apply (context_handle_not_inspected env geometry_640x480 1100 world0
           true EGL_SUCCESS true 7 1 EGL_SUCCESS true EGL_SUCCESS
           EGL_NO_CONTEXT EGL_SUCCESS true EGL_SUCCESS);
    reflexivity.
Defined.

(** ** The viewport *)

Lemma setup_calls_before_viewport ws dpy cfg ctx k :
  (k <= 10)%nat -> forallb not_viewport (firstn k (setup_calls ws dpy cfg ctx)) = true.
Proof.
  intros Hk. unfold setup_calls.
  do 11 (destruct k as [|k]; [reflexivity|]). lia.
Qed.

Lemma forallb_weaken (P Q : event -> bool) (l : list event) :
  (forall e, P e = true -> Q e = true) -> forallb P l = true -> forallb Q l = true.
Proof. intros HPQ. rewrite !forallb_forall. auto. Qed.

Lemma calls_of_called {A} s evs err (o : outcome A) :
  calls_of s (called s evs err, o) = evs.
Proof. now apply calls_of_app. Qed.

Lemma viewport_EGL env ws dev s :
  let r := EGLContext_ctor env ws dev s in
  (forall self, result r = Ok self ->
                egl_win_size_ self = ws /\ viewport_last ws (calls_of s r)) /\
  (~ succeeded r -> forallb not_viewport (calls_of s r) = true).
Proof.
  cbv zeta. rewrite EGLContext_ctor_calls_eq. rewrite EGLContext_ctor_eq. cbv zeta.
  set (s0 := final (fetch_add 1 s)).
  assert (Hsel : forallb not_viewport (calls_of s0 (select_display env dev s0)) = true).
  { apply (forallb_weaken (fun e => selection_event e || file_event e)).
    - intros e He. destruct e; try discriminate He; reflexivity.
    - apply quiet_calls. apply quiet_select_display.
      + intros e He. now rewrite He.
      + apply quiet_resolve_device. intros e He. rewrite He. apply orb_true_r. }
  unfold bind.
  destruct (select_display env dev s0) as [s1 [dpy|msg|]];
    cbn [result final fst snd] in *.
  - destruct (after_display_shape env ws dpy s1) as (cfg & ctx & k & err & o & -> & Ho).
    rewrite calls_of_called. cbn [result snd].
    destruct o as [self|msg|]; [| |contradiction].
    + destruct Ho as [-> ->]. split; [|intros Hn; exfalso; apply Hn; eexists; reflexivity].
      intros self E. injection E as <-. split; [reflexivity|].
      exists (fetch_add_NUM_EGLCONTEXT_ALIVE 1
                :: calls_of s0 (s1, Ok dpy)
                ++ firstn 10 (setup_calls ws dpy cfg ctx)).
      split.
      * unfold setup_calls. cbn [firstn app]. rewrite <- app_assoc. reflexivity.
      * cbn [forallb]. rewrite forallb_app, Hsel. reflexivity.
    + destruct Ho as [Hk _].
      split; [intros self E; discriminate E|intros _].
      cbn [forallb]. rewrite forallb_app, Hsel. cbn [not_viewport is_viewport negb andb].
      now apply setup_calls_before_viewport.
  - split; [intros self E; discriminate E|intros _].
    cbn [forallb]. now rewrite app_nil_r, Hsel.
  - split; [intros self E; discriminate E|intros _].
    cbn [forallb]. now rewrite app_nil_r, Hsel.
Qed.

Lemma calls_of_add_events {A} s evs (o : outcome A) :
  calls_of s (add_events s evs, o) = evs.
Proof. now apply calls_of_app. Qed.

Lemma viewport_GLFW DEBUG env ws core s :
  let r := GLFWContext_ctor DEBUG env ws core s in
  (forall self, result r = Ok self ->
                glfw_win_size_ self = ws /\ viewport_last ws (calls_of s r)) /\
  (~ succeeded r -> forallb not_viewport (calls_of s r) = true).
Proof.
  cbv zeta. rewrite GLFWContext_ctor_eq. cbv zeta.
  destruct (glfw_create_window env (w ws) (h ws) =? NULL);
    rewrite calls_of_add_events; cbn [result snd].
  - split; [intros self E; discriminate E|intros _].
    unfold glfw_hints. destruct core, DEBUG; reflexivity.
  - split; [|intros Hn; exfalso; apply Hn; eexists; reflexivity].
    intros self E. injection E as <-. split; [reflexivity|].
    eexists. split.
    + change [glfwMakeContextCurrent (glfw_create_window env (w ws) (h ws));
              glViewport 0 0 (w ws) (h ws)]
        with ([glfwMakeContextCurrent (glfw_create_window env (w ws) (h ws))]
                ++ [glViewport 0 0 (w ws) (h ws)]).
      rewrite app_assoc. reflexivity.
    + unfold glfw_hints. destruct core, DEBUG; reflexivity.
Qed.

Lemma viewport_GLX env ws s :
  let r := GLXHeadlessContext_ctor env ws s in
  (forall self, result r = Ok self ->
                glx_win_size_ self = ws /\ viewport_last ws (calls_of s r)) /\
  (~ succeeded r -> forallb not_viewport (calls_of s r) = true).
Proof.
  cbv zeta. rewrite GLXHeadlessContext_ctor_eq. cbv zeta.
  destruct (x_open_display env =? NULL);
    [|destruct (glx_fb_configs env (x_open_display env)) as [|fbc0 fbc];
      [|destruct (glx_proc_address env "glXCreateContextAttribsARB");
        [destruct (negb (glx_make_current env _ _ _))|]]];
    rewrite calls_of_add_events; cbn [result snd];
    try (split; [intros self E; discriminate E|intros _; reflexivity]).
  split; [|intros Hn; exfalso; apply Hn; eexists; reflexivity].
  intros self E. injection E as <-. split; [reflexivity|].
  eexists. split; reflexivity.
Qed.

Lemma viewport_CGL env ws s :
  let r := CGLHeadlessContext_ctor env ws s in
  (forall self, result r = Ok self ->
                cgl_win_size_ self = ws /\ viewport_last ws (calls_of s r)) /\
  (~ succeeded r -> forallb not_viewport (calls_of s r) = true).
Proof.
  cbv zeta. rewrite CGLHeadlessContext_ctor_eq. cbv zeta.
  destruct (negb (fst (cgl_choose_pixel_format env) =? kCGLNoError));
    [|destruct (negb (fst (cgl_create_context env _) =? kCGLNoError));
      [|destruct (negb (cgl_set_current_context env _ =? kCGLNoError))]];
    rewrite calls_of_add_events; cbn [result snd];
    try (split; [intros self E; discriminate E|intros _; reflexivity]).
  split; [|intros Hn; exfalso; apply Hn; eexists; reflexivity].
  intros self E. injection E as <-. split; [reflexivity|].
  eexists. split; reflexivity.
Qed.

(** X6: in each of the four backends the viewport is applied exactly
    when the construction succeeds: a successful construction stores the
    requested geometry and its last native call, the only viewport call,
    is [glViewport(0, 0, w, h)] with that geometry; a construction that
    does not succeed issues no viewport call. *)
Theorem viewport_applied_on_success_only :
  (forall DEBUG env ws core s,
     let r := GLFWContext_ctor DEBUG env ws core s in
     (forall self, result r = Ok self ->
                   glfw_win_size_ self = ws /\ viewport_last ws (calls_of s r)) /\
     (~ succeeded r -> forallb not_viewport (calls_of s r) = true)) /\
  (forall env ws dev s,
     let r := EGLContext_ctor env ws dev s in
     (forall self, result r = Ok self ->
                   egl_win_size_ self = ws /\ viewport_last ws (calls_of s r)) /\
     (~ succeeded r -> forallb not_viewport (calls_of s r) = true)) /\
  (forall env ws s,
     let r := GLXHeadlessContext_ctor env ws s in
     (forall self, result r = Ok self ->
                   glx_win_size_ self = ws /\ viewport_last ws (calls_of s r)) /\
     (~ succeeded r -> forallb not_viewport (calls_of s r) = true)) /\
  (forall env ws s,
     let r := CGLHeadlessContext_ctor env ws s in
     (forall self, result r = Ok self ->
                   cgl_win_size_ self = ws /\ viewport_last ws (calls_of s r)) /\
     (~ succeeded r -> forallb not_viewport (calls_of s r) = true)).
Proof.
  split; [intros; apply viewport_GLFW|].
  split; [intros; apply viewport_EGL|].
  split; [intros; apply viewport_GLX|intros; apply viewport_CGL].
Qed.

Lemma viewport_applied_on_success_only_witness :
  viewport_last geometry_640x480
    (calls_of world0 (GLXHeadlessContext_ctor healthy_glx geometry_640x480 world0)) /\
  forallb not_viewport
    (calls_of world0 (GLXHeadlessContext_ctor no_context_glx geometry_640x480 world0)) = true.
Proof.
  destruct viewport_applied_on_success_only as (_ & _ & Hglx & _).
  split.
  - apply (proj1 (Hglx healthy_glx geometry_640x480 world0)
             (mkGLXHeadlessContext geometry_640x480 5 21 22)). reflexivity.
  - apply (proj2 (Hglx no_context_glx geometry_640x480 world0)).
    intros [self H]. discriminate H.
Defined.

(** ** Outcomes of the other constructors *)

(** X7: the display-backed constructor succeeds exactly when the display
    opens, at least one framebuffer configuration is returned, the
    extension function is found and make-current succeeds, and then the
    context and the pbuffer are both created from the first
    configuration; with the display open but no configuration returned,
    or the extension function missing, it has no defined outcome (it
    reads [fbc[0]] or calls through the null pointer) after three calls
    and issues no message; it ends through [error_exit] only for a
    display that does not open or a make-current that fails. *)
Theorem display_backed_outcomes (env : GLXEnv) (ws : Geometry) (s : world) :
  let r := GLXHeadlessContext_ctor env ws s in
  let dpy := x_open_display env in
  let name := "glXCreateContextAttribsARB"%string in
  (forall self,
     result r = Ok self <->
     dpy <> NULL /\
     exists fbc0 rest,
       glx_fb_configs env dpy = fbc0 :: rest /\
       glx_proc_address env name = true /\
       glx_make_current env dpy (glx_create_pbuffer env dpy fbc0)
         (glx_create_context env dpy fbc0) = true /\
       self = mkGLXHeadlessContext ws dpy (glx_create_context env dpy fbc0)
                (glx_create_pbuffer env dpy fbc0)) /\
  (result r = Undefined <->
   dpy <> NULL /\ (glx_fb_configs env dpy = [] \/ glx_proc_address env name = false)) /\
  (result r = Undefined ->
   calls_of s r = [XOpenDisplay; glXChooseFBConfig dpy; glXGetProcAddressARB name]) /\
  (forall msg, result r = Abort msg ->
     (dpy = NULL /\ msg = "Cannot connect to DISPLAY!"%string) \/
     (dpy <> NULL /\ msg = "Cannot create GLX context!"%string)).
Proof.
  cbv zeta. rewrite GLXHeadlessContext_ctor_eq. cbv zeta.
  destruct (x_open_display env =? NULL) eqn:Ed;
    [apply Z.eqb_eq in Ed|apply Z.eqb_neq in Ed].
  - cbn [result snd]. split; [|split; [|split]].
    + intros self. split; [discriminate|]. intros [H _]. contradiction.
    + split; [discriminate|]. intros [H _]. contradiction.
    + discriminate.
    + intros msg E. injection E as <-. left. auto.
  - destruct (glx_fb_configs env (x_open_display env)) as [|fbc0 fbc] eqn:Ef.
    { rewrite calls_of_add_events. cbn [result snd]. split; [|split; [|split]].
      - intros self. split; [discriminate|].
        intros (_ & f & rest & E & _). discriminate E.
      - split; auto.
      - reflexivity.
      - discriminate. }
    destruct (glx_proc_address env "glXCreateContextAttribsARB") eqn:Ep.
    2:{ rewrite calls_of_add_events. cbn [result snd]. split; [|split; [|split]].
        - intros self. split; [discriminate|].
          intros (_ & f & rest & _ & E & _). discriminate E.
        - split; auto.
        - reflexivity.
        - discriminate. }
    destruct (glx_make_current env _ _ _) eqn:Em; cbn [negb result snd];
      (split; [|split; [|split]]).
    + intros self. split.
      * intros E. injection E as <-. split; [exact Ed|].
        exists fbc0, fbc. auto.
      * intros (_ & f & rest & E & _ & _ & ->). injection E as <- <-. reflexivity.
    + split; [discriminate|]. intros (_ & [E|E]); discriminate E.
    + discriminate.
    + discriminate.
    + intros self. split; [discriminate|].
      intros (_ & f & rest & E & _ & Hm & _). injection E as <- <-. congruence.
    + split; [discriminate|]. intros (_ & [E|E]); discriminate E.
    + discriminate.
    + intros msg E. injection E as <-. right. auto.
Qed.

(** X8: the native constructor succeeds exactly when
    [CGLChoosePixelFormat], [CGLCreateContext] and
    [CGLSetCurrentContext] all return kCGLNoError; otherwise it ends
    through [error_exit] with the code of the first call that failed in
    its message, never with an undefined outcome; the pixel format is
    destroyed exactly when it was chosen and the context was created
    from it. *)
Theorem native_outcomes (env : CGLEnv) (ws : Geometry) (s : world) :
  let r := CGLHeadlessContext_ctor env ws s in
  let err1 := fst (cgl_choose_pixel_format env) in
  let pix := snd (cgl_choose_pixel_format env) in
  let err2 := fst (cgl_create_context env pix) in
  let context := snd (cgl_create_context env pix) in
  let err3 := cgl_set_current_context env context in
  let failure err := ("Error " ++ dec err ++ " when creating CGL Context")%string in
  (forall self,
     result r = Ok self <->
     err1 = kCGLNoError /\ err2 = kCGLNoError /\ err3 = kCGLNoError /\
     self = mkCGLHeadlessContext ws context) /\
  result r <> Undefined /\
  (err1 <> kCGLNoError -> result r = Abort (failure err1)) /\
  (err1 = kCGLNoError -> err2 <> kCGLNoError -> result r = Abort (failure err2)) /\
  (err1 = kCGLNoError -> err2 = kCGLNoError -> err3 <> kCGLNoError ->
   result r = Abort (failure err3)) /\
  (forall p, In (CGLDestroyPixelFormat p) (calls_of s r) <->
             p = pix /\ err1 = kCGLNoError /\ err2 = kCGLNoError).
Proof.
  cbv zeta. rewrite CGLHeadlessContext_ctor_eq. cbv zeta.
  destruct (fst (cgl_choose_pixel_format env) =? kCGLNoError) eqn:E1;
    [apply Z.eqb_eq in E1|apply Z.eqb_neq in E1]; cbn [negb].
  2:{ rewrite calls_of_add_events. cbn [result snd In].
      split; [|split; [|split; [|split; [|split]]]];
        try discriminate; try (intros; congruence).
      - intros self. split; [discriminate|]. intros [H _]. contradiction.
      - intros p. split; [|intros (_ & H & _); contradiction].
        intros [H|H]; [discriminate H|contradiction]. }
  destruct (fst (cgl_create_context env _) =? kCGLNoError) eqn:E2;
    [apply Z.eqb_eq in E2|apply Z.eqb_neq in E2]; cbn [negb].
  2:{ rewrite calls_of_add_events. cbn [result snd In].
      split; [|split; [|split; [|split; [|split]]]];
        try discriminate; try (intros; congruence).
      - intros self. split; [discriminate|]. intros (_ & H & _). contradiction.
      - intros p. split; [|intros (_ & _ & H); contradiction].
        intros [H|[H|H]]; [discriminate H|discriminate H|contradiction]. }
  destruct (cgl_set_current_context env _ =? kCGLNoError) eqn:E3;
    [apply Z.eqb_eq in E3|apply Z.eqb_neq in E3]; cbn [negb];
    rewrite calls_of_add_events; cbn [result snd app In];
    (split; [|split; [|split; [|split; [|split]]]]);
    try discriminate; try (intros; congruence);
    try (intros self; split;
         [intros E; injection E as <-; auto
         |intros (_ & _ & _ & ->); reflexivity]);
    try (intros self; split; [discriminate|intros (_ & _ & H & _); contradiction]);
    intros p; (split; [|intros (-> & _); tauto]);
    intros H;
    repeat match type of H with
           | _ \/ _ => destruct H as [H|H]
           | False => contradiction
           | CGLDestroyPixelFormat _ = _ => injection H as <-; auto
           | _ = _ => discriminate H
           end.
Qed.

(** X9: the windowed constructor succeeds exactly when
    [glfwCreateWindow] returns a window, which the object then holds and
    which has been made current; when it returns none, the construction
    ends through [error_exit] right after that call; the window is
    always requested non-resizable; without the core flag no other hint
    is set, so that the DEBUG symbol of the build has no effect, and the
    debug-context hint is set exactly when the core flag and DEBUG are
    both on. *)
Theorem windowed_outcomes (DEBUG : bool) (env : GLFWEnv) (ws : Geometry) (core : bool)
    (s : world) :
  let r := GLFWContext_ctor DEBUG env ws core s in
  let window := glfw_create_window env (w ws) (h ws) in
  (forall self, result r = Ok self <-> window <> NULL /\ self = mkGLFWContext ws window) /\
  (succeeded r -> In (glfwMakeContextCurrent window) (calls_of s r)) /\
  (window = NULL ->
   result r = Abort "Failed to create GLFW window!" /\
   exists before, calls_of s r = before ++ [glfwCreateWindow (w ws) (h ws) "GLFW"]) /\
  In (glfwWindowHint GLFW_RESIZABLE GL_FALSE) (calls_of s r) /\
  (core = false ->
   filter is_glfw_hint (calls_of s r) = [glfwWindowHint GLFW_RESIZABLE GL_FALSE] /\
   GLFWContext_ctor DEBUG env ws core s = GLFWContext_ctor (negb DEBUG) env ws core s) /\
  (In (glfwWindowHint GLFW_OPENGL_DEBUG_CONTEXT 1) (calls_of s r) <->
   core = true /\ DEBUG = true).
Proof.
  cbv zeta. rewrite !GLFWContext_ctor_eq. cbv zeta.
  destruct (glfw_create_window env (w ws) (h ws) =? NULL) eqn:Ew;
    [apply Z.eqb_eq in Ew|apply Z.eqb_neq in Ew];
    rewrite calls_of_add_events; cbn [result snd];
    (split; [|split; [|split; [|split; [|split]]]]).
  - intros self. split; [discriminate|]. intros [H _]. contradiction.
  - intros [self H]. discriminate H.
  - intros _. split; [reflexivity|]. eexists.
    change (glfwInit :: ?l ++ ?x) with ((glfwInit :: l) ++ x). reflexivity.
  - unfold glfw_hints. destruct core, DEBUG; cbn; tauto.
  - intros ->. split; reflexivity.
  - unfold glfw_hints. destruct core, DEBUG; cbn [app In]; split;
      try (intros [_ H]; discriminate H); try (intros [H _]; discriminate H);
      try (intros _; tauto); try tauto;
      intros H;
      repeat match type of H with
             | _ \/ _ => destruct H as [H|H]
             | False => contradiction
             | _ = _ => discriminate H
             end.
  - intros self. split.
    + intros E. injection E as <-. auto.
    + intros [_ ->]. reflexivity.
  - intros _. apply in_or_app. right. cbn. auto.
  - intros E. contradiction.
  - unfold glfw_hints. destruct core, DEBUG; cbn; tauto.
  - intros ->. split; [|reflexivity]. reflexivity.
  - unfold glfw_hints. destruct core, DEBUG; cbn [app In]; split;
      try (intros [_ H]; discriminate H); try (intros [H _]; discriminate H);
      try (intros _; tauto); try tauto;
      intros H;
      repeat match type of H with
             | _ \/ _ => destruct H as [H|H]
             | False => contradiction
             | _ = _ => discriminate H
             end.
Qed.

(** ** Bounds on the enumeration *)

Lemma numDevices_bound env : numDevices env <= MAX_DEVICES.
Proof.
  unfold numDevices, enumerated. rewrite length_firstn.
  unfold MAX_DEVICES. lia.
Qed.

Lemma visibility_set_length env N :
  1 <= N -> Z.of_nat (List.length (visibility_set env N)) <= N.
Proof.
  intros HN. unfold visibility_set. destruct (1 <? N).
  - pose proof (accessible_length env (Z.to_nat N)). lia.
  - cbn. lia.
Qed.

(** X10: at most [MAX_DEVICES] = 16 devices are enumerated, and a
    requested index that is not below the enumerated count, in
    particular any index of 16 or more, always ends the construction
    through [error_exit], however many devices the system has. *)
Theorem index_beyond_enumeration_rejected (env : EGLEnv) (ws : Geometry) (dev : Z)
    (s : world) :
  numDevices env <= dev ->
  numDevices env <= MAX_DEVICES /\ aborted (EGLContext_ctor env ws dev s).
Proof.
  intros Hdev. split; [apply numDevices_bound|].
  destruct (extensions_dec env) as [Hext|Hext].
  2:{ exists msg_no_extension. apply EGLContext_ctor_select_abort.
      intros s'. now apply select_display_no_extension. }
  pose proof (numDevices_nonneg env) as Hn.
  destruct (Z.eq_dec (numDevices env) 0) as [H0|H0].
  - exists msg_no_devices. apply EGLContext_ctor_select_abort.
    apply select_display_abort; [assumption|]. intros s'.
    now rewrite resolve_device_none by lia.
  - eexists. apply EGLContext_ctor_select_abort.
    apply select_display_abort; [assumption|]. intros s'.
    rewrite resolve_device_rejects by lia.
    pose proof (visibility_set_length env (numDevices env)).
    destruct (dev >=? _) eqn:E; [reflexivity|].
    rewrite Z.geb_leb in E. apply Z.leb_gt in E. lia.
Qed.

(** Seventeen devices in the system: index 16 is out of range. *)
Lemma index_beyond_enumeration_rejected_witness :
  let env := healthy_egl [1; 2; 3; 4; 5; 6; 7; 8; 9; 10; 11; 12; 13; 14; 15; 16; 17]
               (fun _ => 3) in
  numDevices env <= MAX_DEVICES /\
  aborted (EGLContext_ctor env geometry_640x480 16 world0).
Proof.
  intros env.
  apply (index_beyond_enumeration_rejected env geometry_640x480 16 world0).
  vm_compute. discriminate.
Defined.

(** ** What the device-direct constructor writes to cerr *)

Lemma string_append_nil (a : string) : (a ++ "")%string = a.
Proof. induction a as [|c a IH]; cbn [append]; [reflexivity|now rewrite IH]. Qed.

Lemma resolve_device_cerr env N dev s :
  0 <= dev ->
  cerr (final (resolve_device env N dev s))
  = (cerr s ++ resolver_report env N dev (result (resolve_device env N dev s)))%string.
Proof.
  intros Hdev. unfold resolver_report, visibility_set.
  destruct (Z_lt_le_dec 1 N) as [H|H].
  - rewrite resolve_device_many by assumption. cbv zeta.
    apply Z.ltb_lt in H. rewrite H.
    destruct (dev >=? _) eqn:Ege; cbn [final result fst snd];
      [now rewrite string_append_nil|].
    rewrite Z.geb_leb in Ege. apply Z.leb_gt in Ege.
    destruct (_ =? N); cbn [final result fst snd]; [reflexivity|].
    destruct (dev <? 0) eqn:E0; [apply Z.ltb_lt in E0; lia|].
    destruct (nth_error _ _) eqn:En; cbn [final result fst snd]; [reflexivity|].
    apply nth_error_None in En. lia.
  - destruct (Z.eq_dec N 1) as [->|Hne].
    + rewrite resolve_device_one.
      destruct (dev >=? 1); cbn [final result fst snd];
        [now rewrite string_append_nil|reflexivity].
    + rewrite resolve_device_none by lia. cbn [final result fst snd].
      now rewrite string_append_nil.
Qed.

Lemma select_tail_cerr env (devs : list handle) (p : Z) s :
  cerr (final ((d <- index devs p ;; emit (eglGetPlatformDisplayEXT d) ;;
                ret (egl_platform_display env d)) s)) = cerr s.
Proof.
  unfold bind, index. destruct (p <? 0); [reflexivity|].
  destruct (nth_error devs (Z.to_nat p)); reflexivity.
Qed.

Lemma after_display_cerr env ws dpy s :
  cerr (final (after_display env ws dpy s)) = cerr s.
Proof.
  destruct (after_display_shape env ws dpy s) as (cfg & ctx & k & err & o & -> & _).
  reflexivity.
Qed.

(** X11: for a requested index that is not negative, the device-direct
    constructor writes at most one report to cerr with its own [cerr <<]
    statements: nothing when the extension entry points are missing or
    the resolver chooses no device, and otherwise the line of the
    resolver, which names the enumerated count and the requested index
    when every enumerated device is visible and the remapped physical
    index when some are hidden; no later step of the construction writes
    to cerr. *)
Theorem device_direct_report (env : EGLEnv) (ws : Geometry) (dev : Z) (s : world) :
  0 <= dev ->
  cerr (final (EGLContext_ctor env ws dev s))
  = (cerr s ++
     if egl_proc_address env "eglQueryDevicesEXT"
        && egl_proc_address env "eglGetPlatformDisplayEXT"
     then resolver_report env (numDevices env) dev
            (result (resolve_device env (numDevices env) dev s))
     else "")%string.
Proof.
  intros Hdev.
  rewrite EGLContext_ctor_eq. set (s0 := final (fetch_add 1 s)).
  assert (Hsel : cerr (final (select_display env dev s0))
                 = (cerr s ++
                    if egl_proc_address env "eglQueryDevicesEXT"
                       && egl_proc_address env "eglGetPlatformDisplayEXT"
                    then resolver_report env (numDevices env) dev
                           (result (resolve_device env (numDevices env) dev s))
                    else "")%string).
  { rewrite select_display_eq. cbv zeta.
    destruct (egl_proc_address env "eglQueryDevicesEXT");
      [destruct (egl_proc_address env "eglGetPlatformDisplayEXT")|];
      cbn [negb orb andb];
      try (cbn [final fst add_events cerr]; now rewrite string_append_nil).
    match goal with |- context [bind (resolve_device env ?N dev) ?k ?s2] =>
      pose proof (resolve_device_cerr env N dev s2 Hdev) as Hc;
      rewrite (resolve_device_result_independent env N dev s2 s) in Hc;
      unfold bind at 1;
      destruct (resolve_device env N dev s2) as [s3 [p|msg|]]
    end; cbn [final fst] in Hc |- *.
    - rewrite select_tail_cerr. exact Hc.
    - exact Hc.
    - exact Hc. }
  unfold bind.
  destruct (select_display env dev s0) as [s1 [dpy|msg|]]; cbn [final fst] in *.
  - now rewrite after_display_cerr.
  - exact Hsel.
  - exact Hsel.
Qed.

(** Three devices of which 0 and 2 are accessible, logical index 1. *)
Lemma device_direct_report_witness :
  cerr (final (EGLContext_ctor (healthy_egl [100; 101; 102] files_0_2)
                 geometry_640x480 1 world0))
  = ("" ++ text_remapped 2 3 1 2)%string.
Proof.
  apply (device_direct_report (healthy_egl [100; 101; 102] files_0_2)
           geometry_640x480 1 world0).
  lia.
Defined.

(** ** What is still held after construction and destruction *)

Lemma held_app (a b : list event) : held (a ++ b) = fold_left track b (held a).
Proof. unfold held. apply fold_left_app. Qed.

(** X12: constructing a backend and destroying it at once releases every
    resource in the display-backed and the native backend; the
    device-direct destructor destroys the context and terminates the
    display without clearing the current binding, which is all that is
    left; the windowed destructor terminates the library with the window
    and the binding still in place. *)
Theorem leftovers_after_destruction :
  (forall env ws s self,
     let r := GLXHeadlessContext_ctor env ws s in
     result r = Ok self -> context_ self <> NULL ->
     held (calls_of s r ++ calls_of (final r) (GLXHeadlessContext_dtor self (final r)))
     = []) /\
  (forall env ws s self,
     let r := CGLHeadlessContext_ctor env ws s in
     result r = Ok self -> cgl_context_ self <> NULL ->
     held (calls_of s r ++ calls_of (final r) (CGLHeadlessContext_dtor self (final r)))
     = []) /\
  (forall env ws dev s self,
     let r := EGLContext_ctor env ws dev s in
     result r = Ok self -> eglCtx_ self <> EGL_NO_CONTEXT ->
     held (calls_of s r ++ calls_of (final r) (EGLContext_dtor self (final r)))
     = [CurrentBinding]) /\
  (forall DEBUG env ws core s self,
     let r := GLFWContext_ctor DEBUG env ws core s in
     result r = Ok self ->
     held (calls_of s r ++ calls_of (final r) (GLFWContext_dtor self (final r)))
     = [CurrentBinding; Window]).
Proof.
  split; [|split; [|split]].
  - intros env ws s self r Hr Hctx. subst r.
    rewrite held_app, (held_GLX env ws s self Hr Hctx), GLXHeadlessContext_dtor_calls.
    reflexivity.
  - intros env ws s self r Hr Hctx. subst r.
    rewrite held_app, (held_CGL env ws s self Hr Hctx), CGLHeadlessContext_dtor_calls.
    reflexivity.
  - intros env ws dev s self r Hr Hctx. subst r.
    rewrite held_app, (held_EGL env ws dev s self Hr), EGLContext_dtor_calls.
    apply Z.eqb_neq in Hctx. rewrite Hctx. reflexivity.
  - intros DEBUG env ws core s self r Hr. subst r.
    rewrite held_app, (held_GLFW DEBUG env ws core s self Hr), GLFWContext_dtor_calls.
    reflexivity.
Qed.

Lemma leftovers_after_destruction_witness :
  (let r := GLXHeadlessContext_ctor healthy_glx geometry_640x480 world0 in
   held (calls_of world0 r
           ++ calls_of (final r)
                (GLXHeadlessContext_dtor (mkGLXHeadlessContext geometry_640x480 5 21 22)
                   (final r))) = []) /\
  (let r := EGLContext_ctor (healthy_egl [100] no_file) geometry_640x480 0 world0 in
   held (calls_of world0 r
           ++ calls_of (final r)
                (EGLContext_dtor (mkEGLContext geometry_640x480 1100 42) (final r)))
   = [CurrentBinding]).
Proof.
  destruct leftovers_after_destruction as (Hglx & _ & Hegl & _).
  split.
  - apply (Hglx healthy_glx geometry_640x480 world0); [reflexivity|discriminate].
  - apply (Hegl (healthy_egl [100] no_file) geometry_640x480 0 world0);
      [reflexivity|discriminate].
Defined.

(** ** The device a context is bound to *)

Lemma sorted_nth_lt (l : list Z) : StronglySorted Z.lt l ->
  forall i j p q, (i < j)%nat -> nth_error l i = Some p -> nth_error l j = Some q -> p < q.
Proof.
  induction 1 as [|a l Hl IH Ha]; intros i j p q Hij Hi Hj.
  - destruct i; discriminate.
  - destruct j as [|j]; [lia|]. cbn in Hj. destruct i as [|i]; cbn in Hi.
    + injection Hi as <-. rewrite Forall_forall in Ha. apply Ha.
      eapply nth_error_In; eauto.
    + apply (IH i j); auto. lia.
Qed.

(** In a strictly ascending list of numbers that are at least [i], the
    element at position [k] is at least [i + k]. *)
Lemma sorted_nth_ge (l : list Z) : StronglySorted Z.lt l ->
  forall i k p, (forall d, In d l -> i <= d) -> nth_error l k = Some p ->
  i + Z.of_nat k <= p.
Proof.
  induction 1 as [|a l Hl IH Ha]; intros i k p Hge Hk.
  - destruct k; discriminate.
  - destruct k as [|k]; cbn in Hk.
    + injection Hk as <-. specialize (Hge a (or_introl eq_refl)). lia.
    + assert (Hi : i <= a) by (apply Hge; left; reflexivity).
      specialize (IH (a + 1) k p). rewrite Forall_forall in Ha.
      assert (a + 1 + Z.of_nat k <= p).
      { apply IH; [|exact Hk]. intros d Hd. specialize (Ha d Hd). lia. }
      lia.
Qed.

(** What the resolver answers for an index that is not negative, when
    more than one device is enumerated. *)
Lemma resolve_device_nth env N dev s p :
  1 < N -> 0 <= dev ->
  result (resolve_device env N dev s) = Ok p ->
  nth_error (accessible env (Z.to_nat N)) (Z.to_nat dev) = Some p.
Proof.
  intros HN Hdev. rewrite resolve_device_many by assumption. cbv zeta.
  destruct (dev >=? _) eqn:Ege; [discriminate|].
  rewrite Z.geb_leb in Ege. apply Z.leb_gt in Ege.
  destruct (_ =? N) eqn:EN.
  - apply Z.eqb_eq in EN. cbn [result snd]. intros E. injection E as <-.
    rewrite accessible_full by lia. f_equal. lia.
  - destruct (dev <? 0); [discriminate|].
    destruct (nth_error _ _); [|discriminate].
    cbn [result snd]. now intros E; injection E as <-.
Qed.

Lemma resolve_device_ok_nonnegative env N dev s p :
  0 <= p -> result (resolve_device env N dev s) = Ok p -> 0 <= dev.
Proof.
  intros Hp. destruct (Z_lt_le_dec 1 N) as [H|H].
  - rewrite resolve_device_many by assumption. cbv zeta.
    destruct (dev >=? _); [discriminate|].
    destruct (_ =? N); [cbn [result snd]; intros E; injection E as <-; exact Hp|].
    destruct (dev <? 0) eqn:E0; [discriminate|].
    intros _. now apply Z.ltb_ge in E0.
  - destruct (Z.eq_dec N 1) as [->|Hne].
    + rewrite resolve_device_one. destruct (dev >=? 1); [discriminate|].
      cbn [result snd]. intros E. injection E as <-. exact Hp.
    + rewrite resolve_device_none by lia. discriminate.
Qed.

(** X13: when more than one device is enumerated, a context that was
    constructed for logical index i is bound to the platform display of
    the i-th smallest accessible device: the index was not negative and
    below the number of accessible devices, and the display held by the
    object is the one of the enumerated device at that physical index. *)
Theorem context_bound_to_ith_accessible (env : EGLEnv) (ws : Geometry) (dev : Z)
    (s : world) (self : EGLContext) :
  1 < numDevices env ->
  result (EGLContext_ctor env ws dev s) = Ok self ->
  let S := accessible env (Z.to_nat (numDevices env)) in
  0 <= dev < Z.of_nat (List.length S) /\
  exists p d,
    ith_smallest S dev p /\ readable env p = true /\
    nth_error (enumerated env) (Z.to_nat p) = Some d /\
    eglDpy_ self = egl_platform_display env d.
Proof.
  intros HN Hok S.
  apply EGLContext_ctor_success_conditions in Hok.
  destruct Hok as (_ & _ & p & d & cfg & Hp & Hp0 & Hd & Hdpy & _).
  assert (Hdev : 0 <= dev) by (eapply resolve_device_ok_nonnegative; eauto).
  pose proof (resolve_device_nth env _ dev s p HN Hdev Hp) as Hnth. fold S in Hnth.
  split.
  - split; [exact Hdev|].
    assert ((Z.to_nat dev < List.length S)%nat) by (apply nth_error_Some; congruence).
    lia.
  - exists p, d. split; [|split; [|split]]; auto.
    + rewrite <- (Z2Nat.id dev) by lia.
      apply nth_is_ith_smallest; [apply accessible_sorted|exact Hnth].
    + apply nth_error_In in Hnth. now apply in_accessible in Hnth.
Qed.

Lemma context_bound_to_ith_accessible_witness :
  let env := healthy_egl [100; 101; 102] files_0_2 in
  let S := accessible env (Z.to_nat (numDevices env)) in
  0 <= 1 < Z.of_nat (List.length S) /\
  exists p d,
    ith_smallest S 1 p /\ readable env p = true /\
    nth_error (enumerated env) (Z.to_nat p) = Some d /\
    eglDpy_ (mkEGLContext geometry_640x480 1102 42) = egl_platform_display env d.
Proof.
  intros env.
  apply (context_bound_to_ith_accessible env geometry_640x480 1 world0
           (mkEGLContext geometry_640x480 1102 42)).
  - vm_compute. reflexivity.
  - reflexivity.
Defined.

(** The ways in which the resolver answers with a device. *)
Lemma resolve_device_ok_cases env N i s p :
  result (resolve_device env N i s) = Ok p ->
  (1 < N /\ 0 <= i /\ nth_error (accessible env (Z.to_nat N)) (Z.to_nat i) = Some p)
  \/ (p = i /\ 1 <= N /\ (i < 0 \/ N = 1)).
Proof.
  intros Hp. destruct (Z_lt_le_dec 1 N) as [H|H].
  - destruct (Z_lt_le_dec i 0) as [Hneg|Hpos].
    + right. rewrite resolve_device_many in Hp by assumption. cbv zeta in Hp.
      destruct (i >=? _); [discriminate|].
      destruct (_ =? N).
      * cbn [result snd] in Hp. injection Hp as <-. split; [reflexivity|lia].
      * apply Z.ltb_lt in Hneg. rewrite Hneg in Hp. discriminate.
    + left. split; [exact H|]. split; [exact Hpos|].
      eapply resolve_device_nth; eauto.
  - right. destruct (Z.eq_dec N 1) as [->|Hne].
    + rewrite resolve_device_one in Hp. destruct (i >=? 1); [discriminate|].
      cbn [result snd] in Hp. injection Hp as <-. split; [reflexivity|lia].
    + rewrite resolve_device_none in Hp by lia. discriminate.
Qed.

(** X14: the resolver preserves the order of the devices.  A logical
    index that it accepts is mapped to a physical index that is not
    below it, also when it is the only index accepted; and every larger
    logical index that it accepts as well is mapped to a strictly larger
    physical index, so that different logical indices never share a
    device. *)
Theorem resolver_preserves_order (env : EGLEnv) (N i p : Z) (s : world) :
  result (resolve_device env N i s) = Ok p ->
  i <= p /\
  forall j q, i < j -> result (resolve_device env N j s) = Ok q -> p < q /\ j <= q.
Proof.
  intros Hp.
  pose proof (accessible_sorted env (Z.to_nat N)) as Hs.
  assert (Hge : forall d, In d (accessible env (Z.to_nat N)) -> 0 <= d).
  { intros d Hd. apply in_accessible in Hd. lia. }
  assert (Hle : forall k r, result (resolve_device env N k s) = Ok r -> k <= r).
  { intros k r Hr. apply resolve_device_ok_cases in Hr.
    destruct Hr as [(_ & Hk & Hn)|(-> & _)]; [|lia].
    pose proof (sorted_nth_ge _ Hs 0 _ _ Hge Hn). lia. }
  split; [now apply Hle|].
  intros j q Hij Hq. split; [|now apply Hle].
  pose proof (Hle _ _ Hq) as Hjq.
  apply resolve_device_ok_cases in Hp.
  destruct Hp as [(HN & Hi & Hni)|(-> & _ & _)]; [|lia].
  apply resolve_device_ok_cases in Hq.
  destruct Hq as [(_ & Hj & Hnj)|(-> & _ & [Hj|Hj])]; [|lia|lia].
  apply (sorted_nth_lt _ Hs (Z.to_nat i) (Z.to_nat j)); auto. lia.
Qed.

(** Two devices of which only device 1 is accessible: logical index 0 is
    the only one accepted, and it is mapped to physical index 1. *)
Lemma resolver_preserves_order_witness :
  0 <= 1 /\
  forall j q, 0 < j ->
    result (resolve_device (healthy_egl [100; 101] files_1) 2 j world0) = Ok q ->
    1 < q /\ j <= q.
Proof.
  apply (resolver_preserves_order (healthy_egl [100; 101] files_1) 2 0 1 world0).
  reflexivity.
Defined.

(** ** Checks after native calls, constructor by constructor *)

Lemma calls_after_skip (p : event -> bool) (pre l : list event) :
  no_call_failed p pre = true -> calls_after p (pre ++ l) = calls_after p l.
Proof.
  unfold no_call_failed. induction pre as [|e pre IH]; intros H; [reflexivity|].
  cbn [forallb] in H. apply andb_true_iff in H as [He H].
  cbn [app calls_after]. apply negb_true_iff in He. rewrite He. now apply IH.
Qed.

Lemma calls_after_ext (p q : event -> bool) (l : list event) :
  (forall e, In e l -> p e = q e) -> calls_after p l = calls_after q l.
Proof.
  induction l as [|e l IH]; intros H; [reflexivity|].
  cbn [calls_after]. rewrite (H e) by now left.
  destruct (q e); [reflexivity|]. apply IH. intros e' He'. apply H. now right.
Qed.

Lemma no_call_failed_In failed calls e :
  no_call_failed failed calls = true -> In e calls -> failed e = false.
Proof.
  unfold no_call_failed. rewrite forallb_forall. intros H Hin.
  apply negb_true_iff. now apply H.
Qed.

Lemma egl_ctor_call_failed_setup env e :
  setup_event e = true -> egl_ctor_call_failed env e = egl_call_failed env e.
Proof. destruct e; try discriminate; reflexivity. Qed.

Lemma probe_or_display_not_failed env evs :
  forallb probe_or_display_event evs = true ->
  no_call_failed (egl_ctor_call_failed env) evs = true.
Proof.
  unfold no_call_failed. rewrite !forallb_forall. intros H e He.
  specialize (H e He). destruct e; try discriminate H; reflexivity.
Qed.

Section SelectionChecks.

Variables (env : EGLEnv) (dev : Z) (s : world).

(** One of the two lookups returned a null pointer: both lookups were
    made before the test of line 151. *)
Lemma select_display_lookup_failed :
  egl_proc_address env "eglQueryDevicesEXT"
  && egl_proc_address env "eglGetPlatformDisplayEXT" = false ->
  select_display env dev s
  = (add_events s [eglGetProcAddress "eglQueryDevicesEXT";
                   eglGetProcAddress "eglGetPlatformDisplayEXT"],
     Abort msg_no_extension).
Proof.
  intros H. rewrite select_display_eq. cbv zeta.
  destruct (egl_proc_address env "eglQueryDevicesEXT");
    destruct (egl_proc_address env "eglGetPlatformDisplayEXT");
    try discriminate H; reflexivity.
Qed.

(** The enumeration stored a count below one. *)
Lemma select_display_no_device :
  extensions_available env -> numDevices env < 1 ->
  select_display env dev s
  = (add_events s [eglGetProcAddress "eglQueryDevicesEXT";
                   eglGetProcAddress "eglGetPlatformDisplayEXT";
                   eglQueryDevicesEXT MAX_DEVICES],
     Abort msg_no_devices).
Proof.
  intros [H1 H2] HN. rewrite select_display_eq. cbv zeta. rewrite H1, H2.
  cbn [negb orb]. unfold bind at 1. rewrite resolve_device_none by lia.
  now rewrite add_events_app.
Qed.

(** The lookups succeeded and at least one device was enumerated: no
    call of the block reports failure, and the block can only abort
    through the test of the requested index. *)
Lemma select_display_index_check :
  extensions_available env -> 1 <= numDevices env ->
  let r := select_display env dev s in
  no_call_failed (egl_ctor_call_failed env) (calls_of s r) = true /\
  forall msg, result r = Abort msg -> exists found, msg = msg_out_of_range dev found.
Proof.
  intros [H1 H2] HN. cbv zeta. rewrite select_display_eq. cbv zeta. rewrite H1, H2.
  cbn [negb orb].
  match goal with |- context [bind ?m ?k ?s2] =>
    set (rest := bind m k); set (s2' := s2) end.
  assert (Hq : quiet probe_or_display_event rest).
  { apply quiet_bind; [apply quiet_resolve_device|intros p].
    - intros e He. destruct e; try discriminate He; reflexivity.
    - apply quiet_bind; [apply quiet_index|intros d].
      apply quiet_bind; [now apply quiet_emit|intros; apply quiet_ret]. }
  assert (Hf : fatal_only (fun msg => exists found, msg = msg_out_of_range dev found) rest).
  { apply fatal_only_bind; [|intros; fatal_steps].
    unfold resolve_device. fatal_steps.
    - exfalso. lia.
    - eexists. reflexivity. }
  split; [|intros msg; apply Hf].
  destruct (Hq s2') as [_ [evs [Ht Hp]]].
  rewrite (calls_of_app s _ ([eglGetProcAddress "eglQueryDevicesEXT";
                              eglGetProcAddress "eglGetPlatformDisplayEXT";
                              eglQueryDevicesEXT MAX_DEVICES] ++ evs)).
  - unfold no_call_failed. cbn [app forallb egl_ctor_call_failed]. rewrite H1, H2.
    cbn [negb andb].
    fold (enumerated env). fold (numDevices env).
    destruct (numDevices env <? 1) eqn:E; [apply Z.ltb_lt in E; lia|].
    cbn [negb andb]. now apply probe_or_display_not_failed.
  - rewrite Ht. unfold s2'. cbn [add_events trace]. now rewrite <- !app_assoc.
Qed.

End SelectionChecks.


(** Closes a goal from a call that belongs to a list written out and
    reports failure although the tests passed. *)
Ltac no_failing_call Hin Hf :=
  exfalso; cbn [app In] in Hin;
  repeat match type of Hin with
         | _ \/ _ => destruct Hin as [Hin|Hin]
         | False => contradiction
         | _ = _ => subst; cbn in Hf; congruence
         end.

Lemma failure_aborts_GLFW DEBUG env ws core s e :
  In e (calls_of s (GLFWContext_ctor DEBUG env ws core s)) ->
  glfw_call_failed env e = true ->
  aborted (GLFWContext_ctor DEBUG env ws core s).
Proof.
  rewrite GLFWContext_ctor_eq. cbv zeta.
  destruct (glfw_create_window env (w ws) (h ws) =? NULL) eqn:Ew;
    [intros _ _; eexists; reflexivity|].
  erewrite calls_of_app by apply add_events_trace. intros Hin Hf.
  unfold glfw_hints in Hin. destruct core, DEBUG; no_failing_call Hin Hf.
Qed.

Lemma failure_aborts_CGL env ws s e :
  In e (calls_of s (CGLHeadlessContext_ctor env ws s)) ->
  cgl_call_failed env e = true ->
  aborted (CGLHeadlessContext_ctor env ws s).
Proof.
  rewrite CGLHeadlessContext_ctor_eq. cbv zeta.
  destruct (negb (fst (cgl_choose_pixel_format env) =? kCGLNoError)) eqn:E1;
    [intros _ _; eexists; reflexivity|].
  destruct (negb (fst (cgl_create_context env (snd (cgl_choose_pixel_format env)))
                  =? kCGLNoError)) eqn:E2;
    [intros _ _; eexists; reflexivity|].
  destruct (negb (cgl_set_current_context env
                    (snd (cgl_create_context env (snd (cgl_choose_pixel_format env))))
                  =? kCGLNoError)) eqn:E3;
    [intros _ _; eexists; reflexivity|].
  erewrite calls_of_app by apply add_events_trace. intros Hin Hf.
  no_failing_call Hin Hf.
Qed.

Lemma failure_aborts_GLX env ws s e :
  In e (calls_of s (GLXHeadlessContext_ctor env ws s)) ->
  glx_call_failed env e = true ->
  aborted (GLXHeadlessContext_ctor env ws s).
Proof.
  rewrite GLXHeadlessContext_ctor_eq. cbv zeta.
  destruct (x_open_display env =? NULL) eqn:Ed;
    [intros _ _; eexists; reflexivity|].
  destruct (glx_fb_configs env (x_open_display env)) as [|fbc0 fbc].
  { erewrite calls_of_app by apply add_events_trace. intros Hin Hf.
    no_failing_call Hin Hf. }
  destruct (glx_proc_address env _).
  2:{ erewrite calls_of_app by apply add_events_trace. intros Hin Hf.
      no_failing_call Hin Hf. }
  destruct (negb (glx_make_current env _ _ _)) eqn:Em;
    [intros _ _; eexists; reflexivity|].
  erewrite calls_of_app by apply add_events_trace. intros Hin Hf.
  no_failing_call Hin Hf.
Qed.

(** Whatever [glXCreateContextAttribsARB] returns, the pbuffer is
    created and the returned context is handed to
    [glXMakeContextCurrent]. *)
Lemma glx_creation_not_checked env ws s dpy cfg :
  let calls := calls_of s (GLXHeadlessContext_ctor env ws s) in
  In (glXCreateContextAttribsARB dpy cfg NULL) calls ->
  In (glXCreatePbuffer dpy cfg) calls /\
  In (glXMakeContextCurrent dpy (glx_create_pbuffer env dpy cfg)
        (glx_create_pbuffer env dpy cfg) (glx_create_context env dpy cfg)) calls.
Proof.
  cbv zeta. rewrite GLXHeadlessContext_ctor_eq. cbv zeta.
  destruct (x_open_display env =? NULL) eqn:Ed.
  { erewrite calls_of_app by apply add_events_trace. intros Hin.
    cbn [In] in Hin. destruct Hin as [Hin|[]]. discriminate Hin. }
  destruct (glx_fb_configs env (x_open_display env)) as [|fbc0 fbc].
  { erewrite calls_of_app by apply add_events_trace. intros Hin.
    cbn [In] in Hin. decompose [or] Hin; try discriminate; contradiction. }
  destruct (glx_proc_address env _).
  2:{ erewrite calls_of_app by apply add_events_trace. intros Hin.
      cbn [In] in Hin. decompose [or] Hin; try discriminate; contradiction. }
  destruct (negb (glx_make_current env _ _ _));
    erewrite calls_of_app by apply add_events_trace; intros Hin;
    cbn [app In] in Hin |- *;
    decompose [or] Hin; try discriminate; try contradiction;
    match goal with H : glXCreateContextAttribsARB _ _ _ = _ |- _ =>
      injection H as <- <- end; tauto.
Qed.

Section ConstructorChecks.

Variables (env : EGLEnv) (ws : Geometry) (dev : Z) (s : world).

Lemma EGLContext_ctor_result :
  let s0 := final (fetch_add 1 s) in
  result (EGLContext_ctor env ws dev s)
  = match result (select_display env dev s0) with
    | Ok dpy => result (after_display env ws dpy (final (select_display env dev s0)))
    | Abort msg => Abort msg
    | Undefined => Undefined
    end.
Proof.
  cbv zeta. rewrite EGLContext_ctor_eq. unfold bind.
  destruct (select_display env dev (final (fetch_add 1 s))) as [s1 [dpy|msg|]];
    reflexivity.
Qed.

Lemma after_display_setup_calls dpy s1 :
  forallb setup_event (calls_of s1 (after_display env ws dpy s1)) = true.
Proof. apply quiet_calls. apply (quiet_after_display env setup_event). auto. Qed.

(** A call of the constructor that reports failure ends the
    construction through [error_exit]. *)
Lemma failure_aborts_EGL e :
  In e (calls_of s (EGLContext_ctor env ws dev s)) ->
  egl_ctor_call_failed env e = true ->
  aborted (EGLContext_ctor env ws dev s).
Proof.
  intros Hin Hf. unfold aborted. rewrite EGLContext_ctor_result. cbv zeta.
  rewrite EGLContext_ctor_calls_eq in Hin. cbv zeta in Hin.
  set (s0 := final (fetch_add 1 s)) in *.
  destruct (egl_proc_address env "eglQueryDevicesEXT"
            && egl_proc_address env "eglGetPlatformDisplayEXT") eqn:Hext.
  2:{ rewrite select_display_lookup_failed by exact Hext. eexists. reflexivity. }
  apply andb_true_iff in Hext.
  destruct (Z_lt_le_dec (numDevices env) 1) as [HN|HN].
  { rewrite select_display_no_device by assumption. eexists. reflexivity. }
  destruct (select_display_index_check env dev s0 Hext HN) as [Hno _].
  destruct Hin as [<-|Hin]; [discriminate Hf|].
  apply in_app_or in Hin. destruct Hin as [Hin|Hin].
  { rewrite (no_call_failed_In _ _ _ Hno Hin) in Hf. discriminate Hf. }
  destruct (select_display env dev s0) as [s1 [dpy|msg|]];
    cbn [result final fst snd] in *; try contradiction.
  destruct (after_display_checks env ws dpy s1) as (_ & Hok & _).
  destruct (after_display env ws dpy s1) as [s2 [self|msg|]] eqn:Ea;
    cbn [result snd] in *.
  - exfalso. assert (Hs : succeeded (s2, Ok self)) by (eexists; reflexivity).
    specialize (Hok Hs). rewrite forallb_forall in Hok. specialize (Hok e Hin).
    pose proof (after_display_setup_calls dpy s1) as Hsetup. rewrite Ea in Hsetup.
    rewrite forallb_forall in Hsetup. specialize (Hsetup e Hin).
    rewrite (egl_ctor_call_failed_setup env e Hsetup) in Hf. rewrite Hf in Hok.
    discriminate Hok.
  - eexists. reflexivity.
  - exfalso. destruct (after_display_shape env ws dpy s1) as (cfg & ctx & k & err & o & Heq & Ho).
    rewrite Ea in Heq. injection Heq as _ <-. exact Ho.
Qed.

(** An abort of the constructor comes right after the first call that
    reported failure, with two exceptions: the lookups are tested
    together after the second one, and the test of the requested index
    guards no call. *)
Lemma abort_validated_EGL :
  let r := EGLContext_ctor env ws dev s in
  aborted r ->
  validated_at_once (egl_ctor_call_failed env) s r
  \/ (egl_proc_address env "eglQueryDevicesEXT" = false /\
      calls_of s r = [fetch_add_NUM_EGLCONTEXT_ALIVE 1;
                      eglGetProcAddress "eglQueryDevicesEXT";
                      eglGetProcAddress "eglGetPlatformDisplayEXT"] /\
      result r = Abort msg_no_extension)
  \/ (no_call_failed (egl_ctor_call_failed env) (calls_of s r) = true /\
      exists found, result r = Abort (msg_out_of_range dev found)).
Proof.
  cbv zeta. intros Hab. unfold validated_at_once.
  pose proof Hab as Hab'. unfold aborted in Hab'. revert Hab'.
  rewrite EGLContext_ctor_result, EGLContext_ctor_calls_eq. cbv zeta.
  set (s0 := final (fetch_add 1 s)).
  destruct (egl_proc_address env "eglQueryDevicesEXT"
            && egl_proc_address env "eglGetPlatformDisplayEXT") eqn:Hext.
  2:{ rewrite select_display_lookup_failed by exact Hext. intros _.
      cbn [result final fst snd].
      erewrite calls_of_app by apply add_events_trace. cbn [app].
      destruct (egl_proc_address env "eglQueryDevicesEXT") eqn:H1.
      - left. split; [exact Hab|]. cbn [andb] in Hext.
        cbn [calls_after egl_ctor_call_failed egl_call_failed]. rewrite H1, Hext.
        reflexivity.
      - right. left. auto. }
  apply andb_true_iff in Hext.
  destruct (Z_lt_le_dec (numDevices env) 1) as [HN|HN].
  { rewrite select_display_no_device by assumption. intros _.
    cbn [result final fst snd].
    erewrite calls_of_app by apply add_events_trace. cbn [app].
    left. split; [exact Hab|]. destruct Hext as [H1 H2].
    cbn [calls_after egl_ctor_call_failed egl_call_failed]. rewrite H1, H2.
    cbn [negb]. fold (enumerated env). fold (numDevices env).
    apply Z.ltb_lt in HN. rewrite HN. reflexivity. }
  destruct (select_display_index_check env dev s0 Hext HN) as [Hno Hmsg].
  destruct (select_display env dev s0) as [s1 [dpy|msg|]];
    cbn [result final fst snd] in *.
  - intros Hr. left. split; [exact Hab|].
    destruct (after_display_checks env ws dpy s1) as (Hval & _ & _).
    destruct (Hval Hr) as [_ Hafter].
    change (?x :: ?a ++ ?b) with ((x :: a) ++ b).
    rewrite calls_after_skip
      by (unfold no_call_failed in *; cbn [forallb]; now rewrite Hno).
    rewrite (calls_after_ext _ (egl_call_failed env)); [exact Hafter|].
    intros e He. apply egl_ctor_call_failed_setup.
    pose proof (after_display_setup_calls dpy s1) as Hsetup.
    rewrite forallb_forall in Hsetup. now apply Hsetup.
  - intros _. right. right. rewrite app_nil_r. split.
    + unfold no_call_failed in *. cbn [forallb]. now rewrite Hno.
    + destruct (Hmsg msg eq_refl) as [found ->]. now exists found.
  - intros [msg H]. discriminate H.
Qed.

End ConstructorChecks.

(** C5 (as amended): each check the constructors have comes after the
    native call it guards, and on failure a message is handed to
    [error_exit], which does not return.  Windowed backend: the
    construction aborts whenever [glfwCreateWindow] returns null, and an
    abort follows that call at once.  Native backend: the construction
    aborts whenever [CGLChoosePixelFormat], [CGLCreateContext] or
    [CGLSetCurrentContext] returns an error, and an abort follows the
    failing call at once.  Display-backed backend: the construction
    aborts whenever [XOpenDisplay] returns null or
    [glXMakeContextCurrent] fails, and an abort follows the failing call
    at once; no other call is validated: whatever
    [glXCreateContextAttribsARB] returns, the pbuffer is created and the
    returned context is handed to [glXMakeContextCurrent].
    Device-direct backend: the construction aborts whenever a lookup by
    [eglGetProcAddress] returns null, [eglQueryDevicesEXT] stores a
    count below one, or [eglInitialize], [eglChooseConfig] (failure,
    error code, or a count other than one), [eglBindAPI],
    [eglCreateContext] (its pending error code) or [eglMakeCurrent]
    fails; an abort follows the first failing call with nothing but
    [eglGetError] in between, or it is the abort for a null first
    lookup, raised after the second lookup has been made, or it is the
    test of the requested index, raised while no call has failed; and
    [eglMakeCurrent] is called only with a context whose creation left
    no error code. *)
Theorem checks_follow_calls :
  (forall A B msg (k : A -> M B) s, bind (error_exit msg) k s = (s, Abort msg)) /\
  (forall DEBUG env ws core s,
     let r := GLFWContext_ctor DEBUG env ws core s in
     ((exists e, In e (calls_of s r) /\ glfw_call_failed env e = true) -> aborted r) /\
     (aborted r -> validated_at_once (glfw_call_failed env) s r)) /\
  (forall env ws s,
     let r := CGLHeadlessContext_ctor env ws s in
     ((exists e, In e (calls_of s r) /\ cgl_call_failed env e = true) -> aborted r) /\
     (aborted r -> validated_at_once (cgl_call_failed env) s r)) /\
  (forall env ws s,
     let r := GLXHeadlessContext_ctor env ws s in
     ((exists e, In e (calls_of s r) /\ glx_call_failed env e = true) -> aborted r) /\
     (aborted r -> validated_at_once (glx_call_failed env) s r) /\
     (forall dpy cfg,
        In (glXCreateContextAttribsARB dpy cfg NULL) (calls_of s r) ->
        In (glXCreatePbuffer dpy cfg) (calls_of s r) /\
        In (glXMakeContextCurrent dpy (glx_create_pbuffer env dpy cfg)
              (glx_create_pbuffer env dpy cfg) (glx_create_context env dpy cfg))
           (calls_of s r))) /\
  (forall env ws dev s,
     let r := EGLContext_ctor env ws dev s in
     ((exists e, In e (calls_of s r) /\ egl_ctor_call_failed env e = true) -> aborted r) /\
     (aborted r ->
      validated_at_once (egl_ctor_call_failed env) s r
      \/ (egl_proc_address env "eglQueryDevicesEXT" = false /\
          calls_of s r = [fetch_add_NUM_EGLCONTEXT_ALIVE 1;
                          eglGetProcAddress "eglQueryDevicesEXT";
                          eglGetProcAddress "eglGetPlatformDisplayEXT"] /\
          result r = Abort msg_no_extension)
      \/ (no_call_failed (egl_ctor_call_failed env) (calls_of s r) = true /\
          exists found, result r = Abort (msg_out_of_range dev found))) /\
     (forall dpy draw read ctx,
        In (eglMakeCurrent dpy draw read ctx) (calls_of s r) ->
        exists cfg,
          In (eglCreateContext dpy cfg EGL_NO_CONTEXT) (calls_of s r) /\
          egl_create_context env dpy cfg = (ctx, EGL_SUCCESS))).
Proof.
  split; [reflexivity|]. split; [|split; [|split]].
  - intros DEBUG env ws core s r. split.
    + intros (e & Hin & Hf). now apply (failure_aborts_GLFW DEBUG env ws core s e).
    + apply validated_GLFW.
  - intros env ws s r. split.
    + intros (e & Hin & Hf). now apply (failure_aborts_CGL env ws s e).
    + apply validated_CGL.
  - intros env ws s r. split; [|split].
    + intros (e & Hin & Hf). now apply (failure_aborts_GLX env ws s e).
    + apply validated_GLX.
    + intros dpy cfg. apply glx_creation_not_checked.
  - intros env ws dev s r. split; [|split].
    + intros (e & Hin & Hf). now apply (failure_aborts_EGL env ws dev s e).
    + apply abort_validated_EGL.
    + intros dpy draw read ctx. apply make_current_after_creation.
Qed.

(** A display-backed construction whose context creation returns null,
    and a device-direct construction whose configuration query answers
    with a count of two. *)
Lemma checks_follow_calls_witness :
  (validated_at_once (glx_call_failed no_context_glx) world0
     (GLXHeadlessContext_ctor no_context_glx geometry_640x480 world0) /\
   In (glXMakeContextCurrent 5 22 22 NULL)
      (calls_of world0 (GLXHeadlessContext_ctor no_context_glx geometry_640x480 world0))) /\
  (aborted (EGLContext_ctor two_configs_egl geometry_640x480 0 world0) /\
   (validated_at_once (egl_ctor_call_failed two_configs_egl) world0
      (EGLContext_ctor two_configs_egl geometry_640x480 0 world0)
    \/ (egl_proc_address two_configs_egl "eglQueryDevicesEXT" = false /\
        calls_of world0 (EGLContext_ctor two_configs_egl geometry_640x480 0 world0)
        = [fetch_add_NUM_EGLCONTEXT_ALIVE 1;
           eglGetProcAddress "eglQueryDevicesEXT";
           eglGetProcAddress "eglGetPlatformDisplayEXT"] /\
        result (EGLContext_ctor two_configs_egl geometry_640x480 0 world0)
        = Abort msg_no_extension)
    \/ (no_call_failed (egl_ctor_call_failed two_configs_egl)
          (calls_of world0 (EGLContext_ctor two_configs_egl geometry_640x480 0 world0))
        = true /\
        exists found,
          result (EGLContext_ctor two_configs_egl geometry_640x480 0 world0)
          = Abort (msg_out_of_range 0 found)))) /\
  (exists cfg,
     In (eglCreateContext 1100 cfg EGL_NO_CONTEXT)
        (calls_of world0 (EGLContext_ctor (healthy_egl [100] no_file) geometry_640x480 0 world0)) /\
     egl_create_context (healthy_egl [100] no_file) 1100 cfg = (42, EGL_SUCCESS)).
Proof.
  destruct checks_follow_calls as (_ & _ & _ & Hglx & Hegl).
  split; [|split].
  - destruct (Hglx no_context_glx geometry_640x480 world0) as (_ & Hval & Hcreate).
    split.
    + apply Hval. eexists. reflexivity.
    + apply (Hcreate 5 9). vm_compute. tauto.
  - destruct (Hegl two_configs_egl geometry_640x480 0 world0) as (Hfail & Hval & _).
    assert (Hab : aborted (EGLContext_ctor two_configs_egl geometry_640x480 0 world0)).
    { apply Hfail. exists (eglChooseConfig 1100 1). split; [|reflexivity].
      vm_compute. tauto. }
    split; [exact Hab|]. apply Hval. exact Hab.
  - destruct (Hegl (healthy_egl [100] no_file) geometry_640x480 0 world0) as (_ & _ & Hmc).
    apply (Hmc 1100 0 0 42). vm_compute. tauto.
Defined.
